(** * A fixed-capacity LRU cache and its thread-safe wrapper

    Shallow embedding of [lru_cache_using_std.h] and
    [shared_lru_cache_using_std.h], and of the program
    [test/shared_lru_cache_test.cpp] that exercises them.

    Conventions of the embedding:
    - [MAP<K, ...>] ([std::map] or [std::unordered_map]) is a [gmap];
    - [std::list<K>] is a list of nodes; a node carries its identity (what a
      [std::list] iterator designates) next to the key it stores, so that
      the iterators kept in the map can be followed;
    - [size_t] is a 64-bit unsigned integer, an [N] whose increments wrap;
    - the cached function is an external call: it may have effects of its
      own and it may throw, so it transforms an environment [Env] and
      returns a value or an exception; it does not call back into the
      cache that is calling it;
    - the build is the one with assertions enabled ([NDEBUG] undefined,
      which is also the build in which [_eval_counters] exists): a failed
      [assert] aborts the program; [LruNdebug] has the core store as the
      build with [NDEBUG] defined compiles it;
    - threads interleave at the granularity of the critical sections: the
      wrapper is a transition system over the calls in progress. *)

From stdpp Require Import base option list list_numbers gmap.
From Stdlib Require Import NArith ZArith Lia.

(** ** Machine integers *)

Definition size_t_modulus : N := 2 ^ 64.

(** [++n] on a [size_t]. *)
Definition size_t_incr (n : N) : N := ((n + 1) mod size_t_modulus)%N.

(** ** Abnormal terminations *)

Inductive failure :=
  | AssertionFailed      (* a failed [assert]: the program aborts *)
  | UndefinedBehaviour.  (* an invalid iterator or an empty list is used *)

(** Result of a member function that calls nothing external. *)
Inductive fallible (A : Type) :=
  | Done (a : A)
  | Fail (f : failure).
Arguments Done {A} a.
Arguments Fail {A} f.

Definition fallible_bind {A B} (x : fallible A) (g : A → fallible B) : fallible B :=
  match x with
  | Done a => g a
  | Fail f => Fail f
  end.

Notation "x ←! y ; z" := (fallible_bind y (λ x, z))
  (at level 20, y at level 100, z at level 200, only parsing).

Definition assert (b : bool) : fallible () :=
  if b then Done () else Fail AssertionFailed.

(** ** [std::list] with node identities *)

Module StdList.
Section std_list.
Context {K : Type} `{EqDecision K}.

(** What a [std::list<K>::iterator] designates: a node. *)
Definition iterator := nat.
Definition node : Type := iterator * K.
Definition t := list node.

(** A newly allocated node is none of the nodes of the list. *)
Definition fresh (l : t) : iterator := S (max_list (l.*1)).

(** [l.insert(l.end(), k)]: returns the iterator to the new node. *)
Definition push_back (l : t) (k : K) : t * iterator :=
  (l ++ [(fresh l, k)], fresh l).

(** Detach the node [it]: the node and the list without it. *)
Fixpoint unlink (it : iterator) (l : t) : option (node * t) :=
  match l with
  | [] => None
  | n :: l' =>
      if decide (n.1 = it) then Some (n, l')
      else '(x, r) ← unlink it l'; Some (x, n :: r)
  end.

(** [l.splice(l.end(), l, it)]: the node [it] moves to the back and keeps
    its identity. *)
Definition splice_back (l : t) (it : iterator) : option t :=
  '(n, r) ← unlink it l; Some (r ++ [n]).

(** [l.erase(it)] *)
Definition erase (l : t) (it : iterator) : option t :=
  snd <$> unlink it l.

(** [std::find(l.begin(), l.end(), k)] *)
Fixpoint find (l : t) (k : K) : option iterator :=
  match l with
  | [] => None
  | n :: l' => if decide (n.2 = k) then Some n.1 else find l' k
  end.

(** [l.front()] and [l.pop_front()] *)
Definition front (l : t) : option K := snd <$> head l.
Definition pop_front (l : t) : option t :=
  match l with [] => None | _ :: l' => Some l' end.

Definition keys (l : t) : list K := l.*2.
End std_list.
End StdList.

(** ** The core store: [lru_cache_using_std] *)

Module Lru.
Section core.
Context `{Countable K} {V E Env : Type}.

(** [std::function<V(const K&)>], as an external call. *)
Definition function_type : Type := K → Env → (V + E) * Env.

Record lru_cache := LruCache {
  _fn : function_type;
  _capacity : N;
  _key_tracker : StdList.t (K:=K);
  _key_to_value : gmap K (V * StdList.iterator);
  _eval_counters : gmap K N
}.

Definition set_key_tracker (l : StdList.t) (c : lru_cache) : lru_cache :=
  LruCache (_fn c) (_capacity c) l (_key_to_value c) (_eval_counters c).
Definition set_key_to_value (m : gmap K (V * StdList.iterator)) (c : lru_cache) : lru_cache :=
  LruCache (_fn c) (_capacity c) (_key_tracker c) m (_eval_counters c).
Definition set_eval_counters (m : gmap K N) (c : lru_cache) : lru_cache :=
  LruCache (_fn c) (_capacity c) (_key_tracker c) (_key_to_value c) m.

(** The constructor. *)
Definition lru_cache_using_std (f : function_type) (c : N) : fallible lru_cache :=
  _ ←! assert (bool_decide (c ≠ 0%N));
  Done (LruCache f c [] ∅ ∅).

Definition has (c : lru_cache) (k : K) : bool :=
  bool_decide (is_Some (_key_to_value c !! k)).

Definition is_full (c : lru_cache) : bool :=
  bool_decide (_capacity c ≤ N.of_nat (size (_key_to_value c)))%N.

(** [evict()]: purge the least-recently-used element. *)
Definition evict_lru (c : lru_cache) : fallible lru_cache :=
  _ ←! assert (bool_decide (_key_tracker c ≠ []));
  match StdList.front (_key_tracker c), StdList.pop_front (_key_tracker c) with
  | Some k, Some l' =>
      _ ←! assert (bool_decide (is_Some (_key_to_value c !! k)));
      Done (set_key_tracker l' (set_key_to_value (delete k (_key_to_value c)) c))
  | _, _ => Fail UndefinedBehaviour
  end.

(** [insert(k, v)]: record a fresh key-value pair. *)
Definition insert (k : K) (v : V) (c : lru_cache) : fallible lru_cache :=
  _ ←! assert (bool_decide (_key_to_value c !! k = None));
  c1 ←! (if is_full c then evict_lru c else Done c);
  let '(l', it) := StdList.push_back (_key_tracker c1) k in
  Done (set_key_to_value (<[k := (v, it)]> (_key_to_value c1))
          (set_key_tracker l' c1)).

(** The [#ifndef NDEBUG] block of [operator()]. *)
Definition count_evaluation (k : K) (c : lru_cache) : lru_cache :=
  match _eval_counters c !! k with
  | Some n => set_eval_counters (<[k := size_t_incr n]> (_eval_counters c)) c
  | None => set_eval_counters (<[k := 1%N]> (_eval_counters c)) c
  end.

(** Outcome of a call that may run the cached function. *)
Inductive outcome (A : Type) :=
  | Returns (a : A) (c : lru_cache) (w : Env)
  | Throws (e : E) (c : lru_cache) (w : Env)
  | Crashes (f : failure).
Arguments Returns {A} a c w.
Arguments Throws {A} e c w.
Arguments Crashes {A} f.

(** [operator()(k)] *)
Definition operator_call (c : lru_cache) (k : K) (w : Env) : outcome V :=
  match _key_to_value c !! k with
  | None =>
      match _fn c k w with
      | (inl v, w') =>
          match insert k v c with
          | Done c' => Returns v (count_evaluation k c') w'
          | Fail f => Crashes f
          end
      | (inr e, w') => Throws e c w'
      end
  | Some (v, it) =>
      match StdList.splice_back (_key_tracker c) it with
      | Some l' => Returns v (set_key_tracker l' c) w
      | None => Crashes UndefinedBehaviour
      end
  end.

(** [get_keys]: most recently used first. *)
Definition get_keys (c : lru_cache) : list K :=
  reverse (StdList.keys (_key_tracker c)).

(** [set(k, v)] *)
Definition set (k : K) (v : V) (c : lru_cache) : fallible lru_cache :=
  match _key_to_value c !! k with
  | None => insert k v c
  | Some _ => Done c
  end.

(** [evict(key)] *)
Definition evict (key : K) (c : lru_cache) : fallible lru_cache :=
  match _key_to_value c !! key with
  | Some _ =>
      let m' := delete key (_key_to_value c) in
      let it2 := StdList.find (_key_tracker c) key in
      _ ←! assert (bool_decide (is_Some it2));
      match it2 ≫= StdList.erase (_key_tracker c) with
      | Some l' => Done (set_key_tracker l' (set_key_to_value m' c))
      | None => Fail UndefinedBehaviour
      end
  | None => Done c
  end.

(** *** Sequences of calls of the public interface *)

Inductive op :=
  | Get (k : K)            (* [operator()(k)] *)
  | Put (k : K) (v : V)    (* [set(k, v)] *)
  | Evict (k : K)          (* [evict(k)] *)
  | Has (k : K)            (* [has(k)] *)
  | IsFull.                (* [is_full()] *)

Inductive answer :=
  | Value (v : V)
  | Flag (b : bool)
  | Void.

Definition lift (r : fallible lru_cache) (w : Env) : outcome answer :=
  match r with
  | Done c => Returns Void c w
  | Fail f => Crashes f
  end.

Definition apply (o : op) (c : lru_cache) (w : Env) : outcome answer :=
  match o with
  | Get k =>
      match operator_call c k w with
      | Returns v c' w' => Returns (Value v) c' w'
      | Throws e c' w' => Throws e c' w'
      | Crashes f => Crashes f
      end
  | Put k v => lift (set k v c) w
  | Evict k => lift (evict k c) w
  | Has k => Returns (Flag (has c k)) c w
  | IsFull => Returns (Flag (is_full c)) c w
  end.

(** The caller goes on after an exception of the cached function; an
    abort ends the program. *)
Fixpoint apply_all (os : list op) (c : lru_cache) (w : Env)
  : fallible (lru_cache * Env) :=
  match os with
  | [] => Done (c, w)
  | o :: os' =>
      match apply o c w with
      | Returns _ c' w' | Throws _ c' w' => apply_all os' c' w'
      | Crashes f => Fail f
      end
  end.

(** *** The representation invariant *)

(** Every key of the map has exactly one node in the recency list, the
    one its iterator designates, and every node is the node of a key of
    the map. *)
Record bijection (c : lru_cache) : Prop := {
  one_node_per_key : NoDup (StdList.keys (_key_tracker c));
  same_keys : ∀ k, k ∈ StdList.keys (_key_tracker c) ↔ is_Some (_key_to_value c !! k);
  iterators_valid : ∀ k v it,
    _key_to_value c !! k = Some (v, it) → (it, k) ∈ _key_tracker c
}.

Record wf (c : lru_cache) : Prop := {
  wf_nodes : NoDup (_key_tracker c).*1;
  wf_bijection : bijection c;
  wf_size : length (_key_tracker c) = size (_key_to_value c);
  wf_capacity : (0 < _capacity c)%N;
  wf_bounded : (N.of_nat (size (_key_to_value c)) ≤ _capacity c)%N
}.

(** *** What the store holds *)

(** Every cached value is the value [g] gives for its key. *)
Definition caches_values_of (g : K → V) (c : lru_cache) : Prop :=
  ∀ k v it, _key_to_value c !! k = Some (v, it) → v = g k.

(** *** What the evaluation counters count *)

(** Whether the call [o] on [c] is an [operator()(k)] that does not find
    [k] cached: 1 if so, 0 if not. *)
Definition evaluated (k : K) (o : op) (c : lru_cache) : nat :=
  match o with
  | Get k' => if bool_decide (k' = k ∧ _key_to_value c !! k = None) then 1 else 0
  | _ => 0
  end.

(** The number of calls among [os], run from [c], in which [operator()(k)]
    did not find [k] cached and the cached function returned. *)
Fixpoint evaluations (k : K) (os : list op) (c : lru_cache) (w : Env) : nat :=
  match os with
  | [] => 0
  | o :: os' =>
      match apply o c w with
      | Returns _ c' w' => evaluated k o c + evaluations k os' c' w'
      | Throws _ c' w' => evaluations k os' c' w'
      | Crashes _ => 0
      end
  end.

(** Lines 90-96 on the counter of one key: [++i->second], or 1 when there
    is none. *)
Definition bump (x : option N) : option N :=
  Some (match x with Some n => size_t_incr n | None => 1%N end).
End core.

Arguments lru_cache K {_ _} V E Env.
Arguments outcome K {_ _} V E Env A.
Arguments Returns {K _ _ V E Env A} a c w.
Arguments Throws {K _ _ V E Env A} e c w.
Arguments Crashes {K _ _ V E Env A} f.
Arguments function_type K V E Env : clear implicits.
Arguments op K V : clear implicits.
Arguments answer V : clear implicits.
End Lru.

(** ** The core store compiled with [NDEBUG]

    [assert] expands to nothing and the [#ifndef NDEBUG] block of
    [operator()] is not compiled; [has], [is_full] and [get_keys] are the
    same in both builds. The field [_eval_counters] does not exist in this
    build; it is left as it is. What an assertion guarded is then met
    by the code that follows it. *)

Module LruNdebug.
Section core.
Context `{Countable K} {V E Env : Type}.

(** The constructor: any capacity is accepted. *)
Definition lru_cache_using_std (f : Lru.function_type K V E Env) (c : N)
  : fallible (Lru.lru_cache K V E Env) :=
  Done (Lru.LruCache f c [] ∅ ∅).

(** [evict()]: [front()] of an empty list and [erase(end())] are
    undefined. *)
Definition evict_lru (c : Lru.lru_cache K V E Env) : fallible (Lru.lru_cache K V E Env) :=
  match StdList.front (Lru._key_tracker c), StdList.pop_front (Lru._key_tracker c) with
  | Some k, Some l' =>
      match Lru._key_to_value c !! k with
      | Some _ =>
          Done (Lru.set_key_tracker l'
                  (Lru.set_key_to_value (delete k (Lru._key_to_value c)) c))
      | None => Fail UndefinedBehaviour
      end
  | _, _ => Fail UndefinedBehaviour
  end.

(** [insert(k, v)]: [MAP::insert] keeps the entry of a key that is
    present. *)
Definition insert (k : K) (v : V) (c : Lru.lru_cache K V E Env)
  : fallible (Lru.lru_cache K V E Env) :=
  c1 ←! (if Lru.is_full c then evict_lru c else Done c);
  let '(l', it) := StdList.push_back (Lru._key_tracker c1) k in
  let m' := match Lru._key_to_value c1 !! k with
            | Some _ => Lru._key_to_value c1
            | None => <[k := (v, it)]> (Lru._key_to_value c1)
            end in
  Done (Lru.set_key_to_value m' (Lru.set_key_tracker l' c1)).

(** [operator()(k)] *)
Definition operator_call (c : Lru.lru_cache K V E Env) (k : K) (w : Env)
  : Lru.outcome K V E Env V :=
  match Lru._key_to_value c !! k with
  | None =>
      match Lru._fn c k w with
      | (inl v, w') =>
          match insert k v c with
          | Done c' => Lru.Returns v c' w'
          | Fail f => Lru.Crashes f
          end
      | (inr e, w') => Lru.Throws e c w'
      end
  | Some (v, it) =>
      match StdList.splice_back (Lru._key_tracker c) it with
      | Some l' => Lru.Returns v (Lru.set_key_tracker l' c) w
      | None => Lru.Crashes UndefinedBehaviour
      end
  end.

(** [set(k, v)] *)
Definition set (k : K) (v : V) (c : Lru.lru_cache K V E Env)
  : fallible (Lru.lru_cache K V E Env) :=
  match Lru._key_to_value c !! k with
  | None => insert k v c
  | Some _ => Done c
  end.

(** [evict(key)]: [erase(end())] is undefined. *)
Definition evict (key : K) (c : Lru.lru_cache K V E Env)
  : fallible (Lru.lru_cache K V E Env) :=
  match Lru._key_to_value c !! key with
  | Some _ =>
      let m' := delete key (Lru._key_to_value c) in
      let it2 := StdList.find (Lru._key_tracker c) key in
      match it2 ≫= StdList.erase (Lru._key_tracker c) with
      | Some l' => Done (Lru.set_key_tracker l' (Lru.set_key_to_value m' c))
      | None => Fail UndefinedBehaviour
      end
  | None => Done c
  end.
End core.
End LruNdebug.

(** ** The coordinated cache: [shared_lru_cache_using_std] *)

Module SharedLru.
Section shared.
Context `{Countable K} {V E Env : Type}.

(** [std::thread::id] *)
Definition thread_id := nat.

(** [std::shared_ptr<std::mutex>]: which mutex it designates. *)
Definition mutex_ptr := nat.

Record hit_rate := HitRate { calls : N; hits : N; late_hits : N }.

Record is_being_evaluated := Ticket {
  mutex : mutex_ptr;
  active_threads : gset thread_id
}.

(** The object. The mutexes [_is_being_evaluated_mutex] and
    [_hit_rate_mutex] have no field: a thread that holds one of them
    acquires nothing else before it releases it, so each of their critical
    sections is one atomic step and they are never seen held.
    [_underlying_lru_cache_mutex] is held across such sections and records
    its owner. *)
Record shared_lru_cache := SharedLruCache {
  _underlying_lru_cache : Lru.lru_cache K V E Env;
  _underlying_lru_cache_mutex : option thread_id;
  _fn : Lru.function_type K V E Env;
  _is_being_evaluated : gmap K is_being_evaluated;
  _hit_rate : hit_rate
}.

(** The constructor. *)
Definition shared_lru_cache_using_std (f : Lru.function_type K V E Env) (c : N)
  : fallible shared_lru_cache :=
  u ←! Lru.lru_cache_using_std f c;
  Done (SharedLruCache u None f ∅ (HitRate 0 0 0)).

(** [has(k)] of the wrapper: not synchronised. *)
Definition has (o : shared_lru_cache) (k : K) : bool :=
  Lru.has (_underlying_lru_cache o) k.

Definition get_hit_rate (o : shared_lru_cache) : hit_rate := _hit_rate o.

(** Where a thread stands inside [operator()(k)], with the locals that are
    live there. The line is the next one it executes. *)
Inductive frame :=
  | Enter (k : K)                                   (* 55 *)
  | FastCounting (k : K)                            (* 58, cache mutex held *)
  | FastReading (k : K)                             (* 62, cache mutex held *)
  | MissCounting (k : K)                            (* 65, cache mutex held *)
  | Registering (k : K)                             (* 75 *)
  | Locking (k : K) (m : mutex_ptr)                 (* 96 *)
  | Rechecking (k : K) (m : mutex_ptr)              (* 98, key mutex held *)
  | LateDeregistering (k : K) (m : mutex_ptr) (v : V)  (* 101, both held *)
  | LateCounting (k : K) (m : mutex_ptr) (v : V)    (* 103, both held *)
  | Evaluating (k : K) (m : mutex_ptr)              (* 110, key mutex held *)
  | Publishing (k : K) (m : mutex_ptr) (v : V)      (* 113, key mutex held *)
  | Deregistering (k : K) (m : mutex_ptr) (v : V).  (* 118, key mutex held *)

(** The program: the object, the per-key mutexes that exist and their
    owners, the environment of the cached function, and the calls in
    progress. *)
Record system := System {
  object : shared_lru_cache;
  allocated : nat;                       (* mutexes created by [new] so far *)
  locked : gmap mutex_ptr thread_id;     (* the locked ones, with their owner *)
  env : Env;
  threads : gmap thread_id frame
}.

Definition initial (o : shared_lru_cache) (w : Env) : system :=
  System o 0 ∅ w ∅.

(** How a call of [operator()] ends. *)
Inductive ending :=
  | Hit (v : V)         (* line 62 *)
  | LateHit (v : V)     (* line 106 *)
  | Fresh (v : V)       (* line 119 *)
  | Thrown (e : E).     (* an exception left [operator()] *)

Inductive event :=
  | Called (t : thread_id) (k : K)
  | Ended (t : thread_id) (k : K) (r : ending).

Inductive step_result :=
  | Next (σ : system) (evs : list event)
  | Blocked               (* the thread waits for a mutex *)
  | Idle                  (* the thread is not inside [operator()] *)
  | Busy                  (* the thread is already inside [operator()] *)
  | Aborted (f : failure).

(** Field updates. *)
Definition with_cache (u : Lru.lru_cache K V E Env) (o : shared_lru_cache) :=
  SharedLruCache u (_underlying_lru_cache_mutex o) (_fn o)
    (_is_being_evaluated o) (_hit_rate o).
Definition with_cache_mutex (h : option thread_id) (o : shared_lru_cache) :=
  SharedLruCache (_underlying_lru_cache o) h (_fn o)
    (_is_being_evaluated o) (_hit_rate o).
Definition with_registry (r : gmap K is_being_evaluated) (o : shared_lru_cache) :=
  SharedLruCache (_underlying_lru_cache o) (_underlying_lru_cache_mutex o)
    (_fn o) r (_hit_rate o).
Definition with_hit_rate (h : hit_rate) (o : shared_lru_cache) :=
  SharedLruCache (_underlying_lru_cache o) (_underlying_lru_cache_mutex o)
    (_fn o) (_is_being_evaluated o) h.

Definition with_object (o : shared_lru_cache) (σ : system) :=
  System o (allocated σ) (locked σ) (env σ) (threads σ).
Definition with_env (w : Env) (σ : system) :=
  System (object σ) (allocated σ) (locked σ) w (threads σ).
Definition unlock (m : mutex_ptr) (σ : system) :=
  System (object σ) (allocated σ) (delete m (locked σ)) (env σ) (threads σ).
Definition lock (m : mutex_ptr) (t : thread_id) (σ : system) :=
  System (object σ) (allocated σ) (<[m := t]> (locked σ)) (env σ) (threads σ).
Definition goto (t : thread_id) (f : frame) (σ : system) :=
  System (object σ) (allocated σ) (locked σ) (env σ) (<[t := f]> (threads σ)).
Definition leave (t : thread_id) (σ : system) :=
  System (object σ) (allocated σ) (locked σ) (env σ) (delete t (threads σ)).

(** Lines 75-84: find or create the ticket of [k] and join it. *)
Definition register (t : thread_id) (k : K) (σ : system)
  : fallible (mutex_ptr * system) :=
  let o := object σ in
  let '(tk, n) :=
    match _is_being_evaluated o !! k with
    | Some tk => (tk, allocated σ)
    | None => (Ticket (allocated σ) ∅, S (allocated σ))
    end in
  _ ←! assert (bool_decide (t ∉ active_threads tk));
  let tk' := Ticket (mutex tk) ({[t]} ∪ active_threads tk) in
  Done (mutex tk,
        System (with_registry (<[k := tk']> (_is_being_evaluated o)) o)
          n (locked σ) (env σ) (threads σ)).

(** The lambda [done]. *)
Definition done (t : thread_id) (k : K) (o : shared_lru_cache)
  : fallible shared_lru_cache :=
  match _is_being_evaluated o !! k with
  | None => Fail UndefinedBehaviour    (* [i] is [end()] and is dereferenced *)
  | Some tk =>
      _ ←! assert (bool_decide (t ∈ active_threads tk));
      let a := active_threads tk ∖ {[t]} in
      if decide (a = ∅)
      then Done (with_registry (delete k (_is_being_evaluated o)) o)
      else Done (with_registry (<[k := Ticket (mutex tk) a]> (_is_being_evaluated o)) o)
  end.

Definition count_hit (h : hit_rate) : hit_rate :=
  HitRate (size_t_incr (calls h)) (size_t_incr (hits h)) (late_hits h).
Definition count_miss (h : hit_rate) : hit_rate :=
  HitRate (size_t_incr (calls h)) (hits h) (late_hits h).
Definition count_late_hit (h : hit_rate) : hit_rate :=
  HitRate (calls h) (hits h) (size_t_incr (late_hits h)).

(** The calling thread leaves [operator()]: the guards that are still in
    scope release their mutexes. *)
Definition finish (t : thread_id) (k : K) (r : ending) (σ : system) : step_result :=
  Next (leave t σ) [Ended t k r].

Definition release_cache_mutex (σ : system) : system :=
  with_object (with_cache_mutex None (object σ)) σ.

(** One atomic step of thread [t] inside [operator()]: the critical section
    of [_hit_rate_mutex] or of [_is_being_evaluated_mutex] it is about to
    enter, or the acquisition of the cache mutex or of a key mutex together
    with the code that follows it up to the next acquisition. A thread that
    needs a mutex another thread holds is [Blocked]. When the thread leaves
    [operator()], by [return] or by an exception, the [lock_guard]s in scope
    release their mutexes; nothing else runs during unwinding. *)
Definition step (t : thread_id) (σ : system) : step_result :=
  let o := object σ in
  match threads σ !! t with
  | None => Idle
  | Some (Enter k) =>
      match _underlying_lru_cache_mutex o with
      | Some _ => Blocked
      | None =>
          let σ1 := with_object (with_cache_mutex (Some t) o) σ in
          if Lru.has (_underlying_lru_cache o) k
          then Next (goto t (FastCounting k) σ1) []
          else Next (goto t (MissCounting k) σ1) []
      end
  | Some (FastCounting k) =>
      Next (goto t (FastReading k)
              (with_object (with_hit_rate (count_hit (_hit_rate o)) o) σ)) []
  | Some (FastReading k) =>
      match Lru.operator_call (_underlying_lru_cache o) k (env σ) with
      | Lru.Returns v u w =>
          finish t k (Hit v)
            (release_cache_mutex (with_env w (with_object (with_cache u o) σ)))
      | Lru.Throws e u w =>
          finish t k (Thrown e)
            (release_cache_mutex (with_env w (with_object (with_cache u o) σ)))
      | Lru.Crashes f => Aborted f
      end
  | Some (MissCounting k) =>
      Next (goto t (Registering k)
              (release_cache_mutex
                 (with_object (with_hit_rate (count_miss (_hit_rate o)) o) σ))) []
  | Some (Registering k) =>
      match register t k σ with
      | Done (m, σ1) => Next (goto t (Locking k m) σ1) []
      | Fail f => Aborted f
      end
  | Some (Locking k m) =>
      match locked σ !! m with
      | Some _ => Blocked
      | None => Next (goto t (Rechecking k m) (lock m t σ)) []
      end
  | Some (Rechecking k m) =>
      match _underlying_lru_cache_mutex o with
      | Some _ => Blocked
      | None =>
          if Lru.has (_underlying_lru_cache o) k then
            match Lru.operator_call (_underlying_lru_cache o) k (env σ) with
            | Lru.Returns v u w =>
                Next (goto t (LateDeregistering k m v)
                        (with_env w
                           (with_object (with_cache_mutex (Some t) (with_cache u o)) σ))) []
            | Lru.Throws e u w =>
                finish t k (Thrown e)
                  (unlock m (with_env w (with_object (with_cache u o) σ)))
            | Lru.Crashes f => Aborted f
            end
          else Next (goto t (Evaluating k m) σ) []
      end
  | Some (LateDeregistering k m v) =>
      match done t k o with
      | Done o1 => Next (goto t (LateCounting k m v) (with_object o1 σ)) []
      | Fail f => Aborted f
      end
  | Some (LateCounting k m v) =>
      finish t k (LateHit v)
        (unlock m
           (release_cache_mutex
              (with_object (with_hit_rate (count_late_hit (_hit_rate o)) o) σ)))
  | Some (Evaluating k m) =>
      match _fn o k (env σ) with
      | (inl v, w) => Next (goto t (Publishing k m v) (with_env w σ)) []
      | (inr e, w) => finish t k (Thrown e) (unlock m (with_env w σ))
      end
  | Some (Publishing k m v) =>
      match _underlying_lru_cache_mutex o with
      | Some _ => Blocked
      | None =>
          match
            (_ ←! assert (negb (Lru.has (_underlying_lru_cache o) k));
             Lru.set k v (_underlying_lru_cache o))
          with
          | Done u => Next (goto t (Deregistering k m v) (with_object (with_cache u o) σ)) []
          | Fail f => Aborted f
          end
      end
  | Some (Deregistering k m v) =>
      match done t k o with
      | Done o1 => finish t k (Fresh v) (unlock m (with_object o1 σ))
      | Fail f => Aborted f
      end
  end.

(** What a scheduler can do: let an idle thread call [operator()(k)], or
    let a thread take its next step. *)
Inductive action :=
  | Call (t : thread_id) (k : K)
  | Step (t : thread_id).

Definition perform (a : action) (σ : system) : step_result :=
  match a with
  | Call t k =>
      match threads σ !! t with
      | None => Next (goto t (Enter k) σ) [Called t k]
      | Some _ => Busy
      end
  | Step t => step t σ
  end.

Inductive run_result :=
  | Running (σ : system) (trace : list event)
  | Abort (f : failure).

(** A schedule is a list of actions; an action that cannot be taken
    (the thread waits, or is not where the action needs it) leaves the
    state as it is. *)
Fixpoint run (sched : list action) (σ : system) (trace : list event) : run_result :=
  match sched with
  | [] => Running σ trace
  | a :: sched' =>
      match perform a σ with
      | Next σ' evs => run sched' σ' (trace ++ evs)
      | Blocked | Idle | Busy => run sched' σ trace
      | Aborted f => Abort f
      end
  end.

(** A call run to its end with no other thread interleaved: the longest
    path through [operator()] takes eight steps. *)
Definition request (t : thread_id) (k : K) : list action :=
  Call t k :: replicate 8 (Step t).

(** *** Accounting *)

Definition is_hit (ev : event) : bool :=
  match ev with Ended _ _ (Hit _) => true | _ => false end.
Definition is_late_hit (ev : event) : bool :=
  match ev with Ended _ _ (LateHit _) => true | _ => false end.
Definition is_fresh (ev : event) : bool :=
  match ev with Ended _ _ (Fresh _) => true | _ => false end.
Definition is_thrown (ev : event) : bool :=
  match ev with Ended _ _ (Thrown _) => true | _ => false end.
Definition is_called (ev : event) : bool :=
  match ev with Called _ _ => true | _ => false end.

Definition number (p : event → bool) (trace : list event) : nat :=
  length (filter (λ ev, p ev = true) trace).

(** Frames in which the cache mutex is held. *)
Definition holds_cache_mutex (f : frame) : bool :=
  match f with
  | FastCounting _ | FastReading _ | MissCounting _
  | LateDeregistering _ _ _ | LateCounting _ _ _ => true
  | _ => false
  end.

(** Frames of a call that [calls] has counted already. *)
Definition call_counted (f : frame) : bool :=
  match f with
  | Enter _ | FastCounting _ | MissCounting _ => false
  | _ => true
  end.

(** Frames of a call that [hits] has counted already. *)
Definition hit_counted (f : frame) : bool :=
  match f with FastReading _ => true | _ => false end.

(** The calls in progress whose frame satisfies [p]. *)
Definition count (p : frame → bool) (m : gmap thread_id frame) : nat :=
  size (filter (λ tf, p tf.2 = true) m).
Definition weight (p : frame → bool) (f : frame) : nat := if p f then 1 else 0.
Definition weight_next (p : frame → bool) (next : option frame) : nat :=
  match next with Some f => weight p f | None => 0 end.
Definition in_flight (p : frame → bool) (σ : system) : nat :=
  count p (threads σ).

(** No call is in progress. *)
Definition quiescent (σ : system) : Prop := threads σ = ∅.

(** What the counters would be without wrap-around. *)
Definition calls_counted (σ : system) (trace : list event) : nat :=
  number (λ ev, negb (is_called ev)) trace + in_flight call_counted σ.
Definition hits_counted (σ : system) (trace : list event) : nat :=
  number is_hit trace + in_flight hit_counted σ.
Definition late_hits_counted (trace : list event) : nat :=
  number is_late_hit trace.

Definition to_size_t (n : nat) : N := (N.of_nat n mod size_t_modulus)%N.

Record accounted (σ : system) (trace : list event) : Prop := {
  acc_mutex : ∀ t f, threads σ !! t = Some f → holds_cache_mutex f = true →
    _underlying_lru_cache_mutex (object σ) = Some t;
  acc_present : ∀ t k, threads σ !! t = Some (FastCounting k) ∨
                       threads σ !! t = Some (FastReading k) →
    Lru.has (_underlying_lru_cache (object σ)) k = true;
  acc_calls : calls (_hit_rate (object σ)) = to_size_t (calls_counted σ trace);
  acc_hits : hits (_hit_rate (object σ)) = to_size_t (hits_counted σ trace);
  acc_late_hits : late_hits (_hit_rate (object σ)) = to_size_t (late_hits_counted trace);
  acc_called : number is_called trace =
               number (λ ev, negb (is_called ev)) trace + size (threads σ)
}.

(** *** The protocol invariant *)

(** The ticket a call is a participant of: its key and its mutex. *)
Definition registered (f : frame) : option (K * mutex_ptr) :=
  match f with
  | Locking k m | Rechecking k m | LateDeregistering k m _
  | Evaluating k m | Publishing k m _ | Deregistering k m _ => Some (k, m)
  | _ => None
  end.

(** The key mutex a call holds. *)
Definition holds_key_mutex (f : frame) : option mutex_ptr :=
  match f with
  | Rechecking _ m | LateDeregistering _ m _ | LateCounting _ m _
  | Evaluating _ m | Publishing _ m _ | Deregistering _ m _ => Some m
  | _ => None
  end.

(** The key a call is computing the value of. *)
Definition computes (f : frame) : option K :=
  match f with
  | Evaluating k _ | Publishing k _ _ => Some k
  | _ => None
  end.

Definition never_throws (f : Lru.function_type K V E Env) : Prop :=
  ∀ k w, ∃ v w', f k w = (inl v, w').

(** What holds of every state the wrapper reaches as long as the cached
    function does not throw: the store is well-formed; the cache mutex and
    the key mutexes are owned by the calls that are inside their scopes;
    the participants of the tickets are exactly the calls between lines 84
    and 118 (or 101); a call that is computing the value of a key finds it
    absent from the store. *)
Record coordinated (σ : system) : Prop := {
  co_wf : Lru.wf (_underlying_lru_cache (object σ));
  co_total : never_throws (_fn (object σ));
  co_mutex : ∀ t f, threads σ !! t = Some f → holds_cache_mutex f = true →
    _underlying_lru_cache_mutex (object σ) = Some t;
  co_present : ∀ t k, threads σ !! t = Some (FastCounting k) ∨
                      threads σ !! t = Some (FastReading k) →
    Lru.has (_underlying_lru_cache (object σ)) k = true;
  co_registered : ∀ t f k m, threads σ !! t = Some f → registered f = Some (k, m) →
    ∃ tk, _is_being_evaluated (object σ) !! k = Some tk ∧ mutex tk = m ∧
          t ∈ active_threads tk;
  co_members : ∀ k tk t, _is_being_evaluated (object σ) !! k = Some tk →
    t ∈ active_threads tk →
    ∃ f m, threads σ !! t = Some f ∧ registered f = Some (k, m);
  co_locked : ∀ t f m, threads σ !! t = Some f → holds_key_mutex f = Some m →
    locked σ !! m = Some t;
  co_absent : ∀ t f k, threads σ !! t = Some f → computes f = Some k →
    Lru.has (_underlying_lru_cache (object σ)) k = false
}.

(** The counters without wrap-around never go down. *)
Definition advances (σ : system) (trace : list event)
    (σ' : system) (trace' : list event) : Prop :=
  calls_counted σ trace ≤ calls_counted σ' trace' ∧
  hits_counted σ trace ≤ hits_counted σ' trace' ∧
  late_hits_counted trace ≤ late_hits_counted trace'.

(** *** Who holds what *)

(** A locked mutex has an owner that is inside its scope, and a ticket
    has a participant. *)
Record owned (σ : system) : Prop := {
  ow_cache_mutex : ∀ t, _underlying_lru_cache_mutex (object σ) = Some t →
    ∃ f, threads σ !! t = Some f ∧ holds_cache_mutex f = true;
  ow_key_mutex : ∀ m t, locked σ !! m = Some t →
    ∃ f, threads σ !! t = Some f ∧ holds_key_mutex f = Some m;
  ow_ticket : ∀ k tk, _is_being_evaluated (object σ) !! k = Some tk →
    active_threads tk ≠ ∅
}.

(** No call is in progress and nothing is left of the calls that were:
    no mutex is locked and the registry is empty. *)
Definition at_rest (σ : system) : Prop :=
  threads σ = ∅ ∧ _underlying_lru_cache_mutex (object σ) = None ∧
  locked σ = ∅ ∧ _is_being_evaluated (object σ) = ∅.

(** A bound on the steps a call has left before it returns. *)
Definition remaining (f : frame) : nat :=
  match f with
  | Enter _ => 8
  | MissCounting _ => 7
  | Registering _ => 6
  | Locking _ _ => 5
  | Rechecking _ _ => 4
  | Evaluating _ _ => 3
  | Publishing _ _ _ => 2
  | Deregistering _ _ _ => 1
  | FastCounting _ => 2
  | FastReading _ => 1
  | LateDeregistering _ _ _ => 2
  | LateCounting _ _ _ => 1
  end.

(** A bound on the steps the calls in progress have left together. *)
Definition work (σ : system) : nat :=
  map_fold (λ _ f n, remaining f + n) 0 (threads σ).

(** *** What the calls return *)

(** The value a call has in hand. *)
Definition carried (f : frame) : option (K * V) :=
  match f with
  | LateDeregistering k _ v | LateCounting k _ v
  | Publishing k _ v | Deregistering k _ v => Some (k, v)
  | _ => None
  end.

(** The value a call returned. *)
Definition returned (r : ending) : option V :=
  match r with
  | Hit v | LateHit v | Fresh v => Some v
  | Thrown _ => None
  end.

(** The cached function computes [g], and so does everything that is
    stored, in hand or returned. *)
Record faithful (g : K → V) (σ : system) (tr : list event) : Prop := {
  fa_fn : ∀ k w, ∃ w', _fn (object σ) k w = (inl (g k), w');
  fa_cached : Lru.caches_values_of g (_underlying_lru_cache (object σ));
  fa_carried : ∀ t f k v, threads σ !! t = Some f → carried f = Some (k, v) → v = g k;
  fa_returned : ∀ t k r, Ended t k r ∈ tr → returned r = Some (g k)
}.

(** Frames of a call that has run the cached function. *)
Definition computed (f : frame) : bool :=
  match f with Publishing _ _ _ | Deregistering _ _ _ => true | _ => false end.

(** [μ] counts the invocations of the cached function in its environment:
    there is one for every call that ended with a fresh value or with an
    exception, and one for every call that has its fresh value in hand. *)
Record metered (μ : Env → nat) (n0 : nat) (σ : system) (tr : list event) : Prop := {
  me_fn : ∀ k w, μ (_fn (object σ) k w).2 = S (μ w);
  me_env : μ (env σ) =
           n0 + number is_fresh tr + number is_thrown tr + in_flight computed σ
}.
End shared.

Arguments shared_lru_cache K {_ _} V E Env.
Arguments system K {_ _} V E Env.
Arguments frame K V : clear implicits.
Arguments event K V E : clear implicits.
Arguments ending V E : clear implicits.
Arguments step_result K {_ _} V E Env.
Arguments run_result K {_ _} V E Env.
Arguments action K : clear implicits.
End SharedLru.

(** ** The test program: [test/shared_lru_cache_test.cpp]

    [int] values are in [Z]; the keys the program computes stay within
    the range of [int]. *)

Module Test.
Import Lru SharedLru.

(** [uint64_t] arithmetic wraps around. *)
Definition uint64_modulus : N := 2 ^ 64.

(** The body of the loop of [fibonacci], on the locals [(a, b, sum)]. *)
Definition fibonacci_body (s : N * N * N) : N * N * N :=
  let '(a, b, _) := s in
  let sum := ((a + b) mod uint64_modulus)%N in
  (sum, a, sum).

(** [fibonacci(x)]: the loop [for (int i = 1; i < x; ++i)] runs [x - 1]
    times, and not at all when [x <= 1]. *)
Definition fibonacci (x : Z) : N :=
  (Nat.iter (Z.to_nat (x - 1)) fibonacci_body (1, 1, 1)%N).2.

(** [repeat_count], by whether [_DEBUG] is defined. *)
Definition repeat_count (debug : bool) : N := if debug then 100%N else 1000000%N.

(** [repeated_fibonacci(x)]: fills a local vector and returns
    [fibonacci(x)]; it has no effect on the environment and throws
    nothing (allocation failure is not modelled). *)
Definition repeated_fibonacci (debug : bool) : function_type Z N Empty_set () :=
  λ x w,
    let results := N.iter (repeat_count debug) (λ r, r ++ [fibonacci x]) [] in
    (inl (fibonacci x), w).

(** [cache cache(repeated_fibonacci, 10)] of [main]. *)
Definition main_cache (debug : bool)
  : fallible (shared_lru_cache Z N Empty_set ()) :=
  shared_lru_cache_using_std (repeated_fibonacci debug) 10.

(** The keys [calculate(n, cache)] asks for, in order: [x = i * n] for
    [i] from 1 to [10 * n]. *)
Definition calculate_keys (n : Z) : list Z := (λ i, i * n)%Z <$> seqZ 1 (10 * n).

(** The assertion of line 45, on a call that has ended. *)
Definition asserted (ev : event Z N Empty_set) : Prop :=
  match ev with
  | Ended _ x (Hit r) | Ended _ x (LateHit r) | Ended _ x (Fresh r) => r = fibonacci x
  | Ended _ _ (Thrown _) => False
  | Called _ _ => True
  end.

(** The Fibonacci numbers: 0, 1, 1, 2, 3, 5, ... *)
Fixpoint Fibonacci_number (n : nat) : N :=
  match n with
  | O => 0%N
  | S n' =>
      match n' with
      | O => 1%N
      | S n'' => (Fibonacci_number n' + Fibonacci_number n'')%N
      end
  end.
End Test.

(** ** Concrete instances

    Natural numbers as keys and values. *)

Module Examples.
Import Lru SharedLru.

(** A cached function that multiplies by ten and has no effect. *)
Definition times_ten : function_type nat nat () () := λ k w, (inl (k * 10), w).

(** A cached function that counts its invocations in the environment and
    throws at the first one. *)
Definition flaky : function_type nat nat () nat :=
  λ k w, (match w with 0 => inr () | S _ => inl (k * 10) end, S w).

(** A cached function that always throws. *)
Definition always_throws : function_type nat nat () () := λ k w, (inr (), w).

Definition empty2 : lru_cache nat nat () () := LruCache times_ten 2 [] ∅ ∅.

(** A store of capacity one that caches key 7: what [set(7, 70)] makes of
    the empty store. *)
Definition full1 : lru_cache nat nat () () :=
  LruCache times_ten 1 [(1, 7)] {[7 := (70, 1)]} ∅.

(** A wrapper over a new store of capacity one, before any call. *)
Definition start {Env} (f : function_type nat nat () Env) (w : Env)
  : system nat nat () Env :=
  initial (SharedLruCache (LruCache f 1 [] ∅ ∅) None f ∅ (HitRate 0 0 0)) w.

(** The wrapper over [full1] when no call is in progress, with hit-rate
    counters [h]. This is the state after thread 0 has asked for key 7. *)
Definition warm (h : hit_rate) : system nat nat () () :=
  System (SharedLruCache full1 None times_ten ∅ h) 1 ∅ () ∅.

(** Thread [t] asks for key [k], [n] times in a row. *)
Definition requests (t : thread_id) (k : nat) (n : nat) : list (action nat) :=
  mjoin (replicate n (request t k)).

(** What one such call adds to the trace when key 7 is cached. *)
Definition hit7 : list (event nat nat ()) := [Called 0 7; Ended 0 7 (Hit 70)].

(** Thread 0 is about to publish the value of key 8 into the wrapper over
    [full1]. *)
Definition publishing8 : system nat nat () () :=
  System (SharedLruCache full1 None times_ten {[8 := Ticket 1 {[0]}]} (HitRate 2 0 0))
    2 {[1 := 0]} () {[0 := Publishing 8 1 80]}.
End Examples.

(** * Properties *)

(** ** Lists with node identities *)

Module StdListFacts.
Import StdList.
Section facts.
Context {K : Type} `{EqDecision K}.
Implicit Types (l r : t (K:=K)) (n : node (K:=K)) (it : iterator) (k : K).

Lemma fresh_not_elem l : fresh l ∉ l.*1.
Proof. apply max_list_not_elem_of_gt. unfold fresh. lia. Qed.

Lemma unlink_Some it l n r :
  unlink it l = Some (n, r) →
  ∃ l1 l2, l = l1 ++ n :: l2 ∧ r = l1 ++ l2 ∧ n.1 = it ∧ it ∉ l1.*1.
Proof.
  revert n r. induction l as [|x l IH]; intros n r; simpl; [done|].
  case_decide as Hx.
  - intros [= <- <-]. exists [], l. split_and!; auto. simpl. apply not_elem_of_nil.
  - destruct (unlink it l) as [[y r']|] eqn:Hu; simpl; [|done].
    intros [= <- <-]. destruct (IH _ _ eq_refl) as (l1 & l2 & -> & -> & Hy & Hni).
    exists (x :: l1), l2. split_and!; auto.
    simpl. rewrite not_elem_of_cons. auto.
Qed.

Lemma unlink_middle it k l1 l2 :
  it ∉ l1.*1 → unlink it (l1 ++ (it, k) :: l2) = Some ((it, k), l1 ++ l2).
Proof.
  induction l1 as [|x l1 IH]; simpl; intros Hni.
  - by rewrite decide_True.
  - apply not_elem_of_cons in Hni as [Hx Hni].
    rewrite decide_False by done. by rewrite IH.
Qed.

Lemma unlink_elem_of it k l :
  NoDup l.*1 → (it, k) ∈ l →
  ∃ l1 l2, l = l1 ++ (it, k) :: l2 ∧ unlink it l = Some ((it, k), l1 ++ l2).
Proof.
  intros Hnd Hin. apply list_elem_of_split in Hin as (l1 & l2 & ->).
  exists l1, l2. split; [done|]. apply unlink_middle.
  rewrite fmap_app, fmap_cons in Hnd. apply NoDup_app in Hnd as (_ & Hd & _).
  intros Hi. apply (Hd _ Hi). simpl. apply list_elem_of_here.
Qed.

Lemma find_Some l k it :
  find l k = Some it →
  ∃ l1 l2, l = l1 ++ (it, k) :: l2 ∧ k ∉ keys l1.
Proof.
  induction l as [|[i x] l IH]; simpl; [done|].
  case_decide as Hx; simpl in *.
  - intros [= <-]. subst x. exists [], l. split; [done|]. apply not_elem_of_nil.
  - intros Hf. destruct (IH Hf) as (l1 & l2 & -> & Hni).
    exists ((i, x) :: l1), l2. split; [done|].
    unfold keys in *. simpl. rewrite not_elem_of_cons. auto.
Qed.

Lemma find_is_Some l k : k ∈ keys l → is_Some (find l k).
Proof.
  induction l as [|[i x] l IH]; simpl.
  - intros Hin. by apply elem_of_nil in Hin.
  - unfold keys. simpl. rewrite elem_of_cons. intros Hin.
    case_decide; simpl in *; [eauto|]. destruct Hin; [congruence|]. by apply IH.
Qed.

Lemma find_None l k : k ∉ keys l → find l k = None.
Proof.
  intros Hni. destruct (find l k) as [it|] eqn:Hf; [|done].
  apply find_Some in Hf as (l1 & l2 & -> & _). exfalso. apply Hni.
  unfold keys. rewrite fmap_app, fmap_cons. simpl.
  apply elem_of_app. right. apply list_elem_of_here.
Qed.

Lemma keys_app l r : keys (l ++ r) = keys l ++ keys r.
Proof. unfold keys. apply fmap_app. Qed.
End facts.
End StdListFacts.

(** ** The core store *)

Module LruFacts.
Import StdList StdListFacts Lru.
Section facts.
Context `{Countable K} {V E Env : Type}.
Abbreviation cache := (lru_cache K V E Env).
Implicit Types (c : cache) (k : K) (v : V) (w : Env) (it : iterator).

(** A node of the list determines the entry of its key. *)
Lemma node_lookup c it k :
  wf c → (it, k) ∈ _key_tracker c → ∃ v, _key_to_value c !! k = Some (v, it).
Proof.
  intros Hwf Hin.
  assert (is_Some (_key_to_value c !! k)) as [[v it'] Hk].
  { apply (same_keys c (wf_bijection c Hwf)).
    apply list_elem_of_fmap. by exists (it, k). }
  exists v. rewrite Hk. do 2 f_equal.
  pose proof (iterators_valid c (wf_bijection c Hwf) _ _ _ Hk) as Hin'.
  pose proof (one_node_per_key c (wf_bijection c Hwf)) as Hnd.
  apply list_elem_of_split in Hin as (l1 & l2 & Hl). rewrite Hl in Hin', Hnd.
  unfold keys in Hnd. rewrite fmap_app, fmap_cons in Hnd. simpl in Hnd.
  apply NoDup_app in Hnd as (_ & Hd & Hnd2). apply NoDup_cons in Hnd2 as [Hk2 _].
  apply elem_of_app in Hin' as [Hin'|Hin'].
  - exfalso. apply (Hd k); [|apply list_elem_of_here].
    apply list_elem_of_fmap. by exists (it', k).
  - apply elem_of_cons in Hin' as [[= ->]|Hin']; [done|].
    exfalso. apply Hk2. apply list_elem_of_fmap. by exists (it', k).
Qed.

(** The invariant depends on the recency list up to its order. *)
Lemma wf_reorder c l :
  wf c → l ≡ₚ _key_tracker c → wf (set_key_tracker l c).
Proof.
  intros [Hn [Hk Hs Hi] Hsz Hc Hb] Hp. split; simpl; try done.
  - by rewrite Hp.
  - split; simpl.
    + unfold keys. by rewrite Hp.
    + intros k. unfold keys in *. rewrite Hp. apply Hs.
    + intros k v it Hl. rewrite Hp. by eapply Hi.
  - by rewrite Hp.
Qed.

(** Removing a node together with the entry of its key. *)
Lemma wf_remove c l1 l2 it k :
  wf c → _key_tracker c = l1 ++ (it, k) :: l2 →
  wf (set_key_tracker (l1 ++ l2) (set_key_to_value (delete k (_key_to_value c)) c)).
Proof.
  intros Hwf Hl.
  assert (wf (set_key_tracker ((it, k) :: l1 ++ l2) c)) as Hwf'.
  { apply wf_reorder; [done|]. rewrite Hl. by rewrite Permutation_middle. }
  assert (∃ v, _key_to_value c !! k = Some (v, it)) as [v Hk].
  { apply node_lookup; [done|]. rewrite Hl. apply elem_of_app. right. apply list_elem_of_here. }
  clear Hwf Hl. destruct Hwf' as [Hn [Hkn Hs Hi] Hsz Hc Hb]. simpl in *.
  unfold keys in *. simpl in *.
  apply NoDup_cons in Hn as [_ Hn]. apply NoDup_cons in Hkn as [Hk1 Hkn].
  split; simpl; try done.
  - split; simpl; unfold keys; [done|..].
    + intros k'. destruct (decide (k' = k)) as [->|Hne].
      * rewrite lookup_delete_eq. split; [done|]. intros []%is_Some_None.
      * rewrite lookup_delete_ne by done. rewrite <-Hs, elem_of_cons. tauto.
    + intros k' v' it'. rewrite lookup_delete_Some. intros [Hne Hl].
      apply Hi in Hl. apply elem_of_cons in Hl as [[= _ ?]|]; done.
  - rewrite map_size_delete_Some by eauto. rewrite <-Hsz. done.
  - rewrite map_size_delete_Some by eauto. lia.
Qed.

(** Appending a new node for a key that is not cached. *)
Lemma wf_push c k v :
  wf c → _key_to_value c !! k = None →
  (N.of_nat (size (_key_to_value c)) < _capacity c)%N →
  wf (set_key_to_value (<[k := (v, fresh (_key_tracker c))]> (_key_to_value c))
        (set_key_tracker (_key_tracker c ++ [(fresh (_key_tracker c), k)]) c)).
Proof.
  intros [Hn [Hkn Hs Hi] Hsz Hc Hb] Hk Hlt. simpl in *.
  assert (k ∉ keys (_key_tracker c)) as Hnk.
  { rewrite Hs, Hk. intros []%is_Some_None. }
  split; simpl; try done.
  - rewrite fmap_app. apply NoDup_app. split_and!; [done| |apply NoDup_singleton].
    simpl. intros x Hx ->%list_elem_of_singleton. by apply fresh_not_elem in Hx.
  - split; simpl.
    + rewrite keys_app. apply NoDup_app. split_and!; [done| |apply NoDup_singleton].
      simpl. intros x Hx ->%list_elem_of_singleton. done.
    + intros k'. rewrite keys_app, elem_of_app, Hs. unfold keys. simpl.
      rewrite list_elem_of_singleton, lookup_insert_is_Some.
      destruct (decide (k = k')); intuition congruence.
    + intros k' v' it'. rewrite lookup_insert_Some, elem_of_app, list_elem_of_singleton.
      intros [[<- [= <- <-]]|[Hne Hl]]; [by right|]. left. by eapply Hi.
  - rewrite length_app, map_size_insert_None by done. simpl. lia.
  - rewrite map_size_insert_None by done. lia.
Qed.

Lemma wf_count_evaluation c k : wf c → wf (count_evaluation k c).
Proof.
  intros [Hn [Hkn Hs Hi] Hsz Hc Hb]. unfold count_evaluation.
  destruct (_eval_counters c !! k); split; simpl; try done; by split.
Qed.

Lemma wf_nonempty_of_full c :
  wf c → is_full c = true → ∃ it k l, _key_tracker c = (it, k) :: l.
Proof.
  intros Hwf Hfull. apply bool_decide_eq_true in Hfull.
  pose proof (wf_capacity c Hwf). pose proof (wf_size c Hwf) as Hsz.
  destruct (_key_tracker c) as [|[it k] l]; simpl in *; [lia|eauto].
Qed.

(** Construction with a non-zero capacity gives an empty store. *)
Lemma constructed_wf (f : function_type K V E Env) (n : N) :
  n ≠ 0%N →
  lru_cache_using_std f n = Done (LruCache f n [] ∅ ∅) ∧ wf (LruCache f n [] ∅ ∅).
Proof.
  intros Hn. unfold lru_cache_using_std. rewrite bool_decide_eq_true_2 by done.
  split; [done|]. split; simpl.
  - apply NoDup_nil_2.
  - split; simpl; [apply NoDup_nil_2| |done].
    intros k. rewrite lookup_empty. split; [by intros ?%elem_of_nil|by intros ?%is_Some_None].
  - by rewrite map_size_empty.
  - lia.
  - rewrite map_size_empty. lia.
Qed.

(** *** What each member function does on a well-formed store *)

Lemma evict_lru_eq c it k l :
  wf c → _key_tracker c = (it, k) :: l →
  evict_lru c =
  Done (LruCache (_fn c) (_capacity c) l (delete k (_key_to_value c)) (_eval_counters c)).
Proof.
  intros Hwf Hl. unfold evict_lru. rewrite Hl. simpl.
  destruct (node_lookup c it k Hwf) as [v Hk].
  { rewrite Hl. apply list_elem_of_here. }
  rewrite bool_decide_eq_true_2 by eauto. done.
Qed.

Lemma insert_not_full c k v :
  _key_to_value c !! k = None → is_full c = false →
  insert k v c =
  Done (LruCache (_fn c) (_capacity c)
          (_key_tracker c ++ [(fresh (_key_tracker c), k)])
          (<[k := (v, fresh (_key_tracker c))]> (_key_to_value c))
          (_eval_counters c)).
Proof.
  intros Hk Hf. unfold insert. rewrite bool_decide_eq_true_2 by done.
  simpl. rewrite Hf. done.
Qed.

Lemma insert_full c k v it0 k0 l :
  wf c → _key_to_value c !! k = None → is_full c = true →
  _key_tracker c = (it0, k0) :: l →
  insert k v c =
  Done (LruCache (_fn c) (_capacity c)
          (l ++ [(fresh l, k)])
          (<[k := (v, fresh l)]> (delete k0 (_key_to_value c)))
          (_eval_counters c)).
Proof.
  intros Hwf Hk Hf Hl. unfold insert. rewrite bool_decide_eq_true_2 by done.
  simpl. rewrite Hf, (evict_lru_eq c it0 k0 l) by done. done.
Qed.

Lemma insert_wf c k v :
  wf c → _key_to_value c !! k = None →
  ∃ c', insert k v c = Done c' ∧ wf c' ∧
        is_Some (_key_to_value c' !! k) ∧ _capacity c' = _capacity c.
Proof.
  intros Hwf Hk. destruct (is_full c) eqn:Hf.
  - destruct (wf_nonempty_of_full c Hwf Hf) as (it0 & k0 & l & Hl).
    eexists. split; [by eapply insert_full|].
    pose proof (wf_remove c [] l it0 k0 Hwf Hl) as Hwf1. simpl in Hwf1.
    assert (k0 ≠ k) as Hne.
    { intros ->. destruct (node_lookup c it0 k Hwf) as [? ?]; [|congruence].
      rewrite Hl. apply list_elem_of_here. }
    split_and!; [|by simpl; rewrite lookup_insert_eq|done].
    eapply (wf_push _ k v) in Hwf1; simpl in *; [exact Hwf1|..].
    + by rewrite lookup_delete_ne.
    + destruct (node_lookup c it0 k0 Hwf) as [? ?].
      { rewrite Hl. apply list_elem_of_here. }
      rewrite map_size_delete_Some by eauto.
      pose proof (wf_bounded c Hwf). pose proof (wf_size c Hwf) as Hsz.
      rewrite Hl in Hsz. simpl in Hsz. lia.
  - eexists. split; [by eapply insert_not_full|].
    split_and!; [|by simpl; rewrite lookup_insert_eq|done].
    apply (wf_push c k v); [done..|].
    apply bool_decide_eq_false in Hf. lia.
Qed.

Lemma operator_call_hit c k v it w :
  wf c → _key_to_value c !! k = Some (v, it) →
  ∃ l1 l2, _key_tracker c = l1 ++ (it, k) :: l2 ∧
    operator_call c k w =
    Returns v (LruCache (_fn c) (_capacity c) (l1 ++ l2 ++ [(it, k)])
                 (_key_to_value c) (_eval_counters c)) w.
Proof.
  intros Hwf Hk.
  pose proof (iterators_valid c (wf_bijection c Hwf) _ _ _ Hk) as Hin.
  destruct (unlink_elem_of it k _ (wf_nodes c Hwf) Hin) as (l1 & l2 & Hl & Hu).
  exists l1, l2. split; [done|].
  unfold operator_call, splice_back. rewrite Hk, Hu. simpl.
  by rewrite <-(assoc_L (++)).
Qed.

Lemma evict_present c k v it :
  wf c → _key_to_value c !! k = Some (v, it) →
  ∃ l1 l2, _key_tracker c = l1 ++ (it, k) :: l2 ∧
    evict k c =
    Done (LruCache (_fn c) (_capacity c) (l1 ++ l2)
            (delete k (_key_to_value c)) (_eval_counters c)).
Proof.
  intros Hwf Hk.
  assert (k ∈ keys (_key_tracker c)) as Hin.
  { apply (same_keys c (wf_bijection c Hwf)). eauto. }
  destruct (find_is_Some _ _ Hin) as [it' Hf].
  destruct (find_Some _ _ _ Hf) as (l1 & l2 & Hl & _).
  destruct (node_lookup c it' k Hwf) as [v' Hk'].
  { rewrite Hl. apply elem_of_app. right. apply list_elem_of_here. }
  assert (it' = it) as -> by congruence.
  exists l1, l2. split; [done|].
  unfold evict. rewrite Hk, Hf. simpl. unfold erase. rewrite Hl.
  rewrite unlink_middle; [done|].
  pose proof (wf_nodes c Hwf) as Hnd. rewrite Hl, fmap_app, fmap_cons in Hnd.
  apply NoDup_app in Hnd as (_ & Hd & _).
  intros Hi. apply (Hd _ Hi). apply list_elem_of_here.
Qed.

(** Every call of the interface keeps the invariant and none aborts. *)
Lemma apply_wf (o : op K V) c w :
  wf c →
  match apply o c w with
  | Returns _ c' _ | Throws _ c' _ => wf c' ∧ _capacity c' = _capacity c
  | Crashes _ => False
  end.
Proof.
  intros Hwf. destruct o as [k|k v|k|k|]; simpl; [| | |done..].
  - destruct (_key_to_value c !! k) as [[v it]|] eqn:Hk.
    + destruct (operator_call_hit c k v it w Hwf Hk) as (l1 & l2 & Hl & ->).
      split; [|done]. apply (wf_reorder c); [done|].
      rewrite Hl. rewrite (assoc_L (++)). by rewrite <-Permutation_cons_append, Permutation_middle.
    + unfold operator_call. rewrite Hk. destruct (_fn c k w) as [[v|e] w']; [|done].
      destruct (insert_wf c k v Hwf Hk) as (c' & -> & Hwf' & _ & Hc).
      split; [by apply wf_count_evaluation|].
      unfold count_evaluation. by destruct (_eval_counters c' !! k).
  - unfold set. destruct (_key_to_value c !! k) as [x|] eqn:Hk; [done|].
    destruct (insert_wf c k v Hwf Hk) as (c' & -> & Hwf' & _ & Hc). done.
  - destruct (_key_to_value c !! k) as [[v it]|] eqn:Hk.
    + destruct (evict_present c k v it Hwf Hk) as (l1 & l2 & Hl & ->). simpl.
      split; [|done]. by apply (wf_remove c l1 l2 it k).
    + unfold evict. by rewrite Hk.
Qed.

Lemma apply_all_wf (os : list (op K V)) c w :
  wf c →
  ∃ c' w', apply_all os c w = Done (c', w') ∧ wf c' ∧ _capacity c' = _capacity c.
Proof.
  revert c w. induction os as [|o os IH]; intros c w Hwf; simpl; [by eauto|].
  pose proof (apply_wf o c w Hwf) as Ho.
  destruct (apply o c w) as [a c1 w1|e c1 w1|f]; [| |done];
    destruct Ho as [Hwf1 Hc1];
    destruct (IH c1 w1 Hwf1) as (c' & w' & -> & Hwf' & Hc');
    exists c', w'; split_and!; auto; congruence.
Qed.
End facts.
End LruFacts.

(** ** The contract of the core store *)

Module LruSpec.
Import StdList StdListFacts Lru LruFacts.
Section spec.
Context `{Countable K} {V E Env : Type}.
Abbreviation cache := (lru_cache K V E Env).
Implicit Types (c : cache) (k : K) (v : V) (w : Env) (it : iterator).

(** C2. [operator()(k)] on a well-formed store, as every store built
    through the interface is ([apply_all_wf]). If [k] is cached, its
    node moves to the back of the recency list (the most-recent end), the
    stored value is returned, and the cached function is not run: the
    environment it acts on is the one before the call. If [k] is not
    cached, the cached function is run on [k]; when it returns [v], the
    front node and its entry are removed first if the store is full, then
    a new node for [k] is appended and [k] is mapped to [v], and [v] is
    returned. *)
Theorem operator_call_spec c k w :
  wf c →
  match _key_to_value c !! k with
  | Some (v, it) =>
      ∃ l1 l2, _key_tracker c = l1 ++ (it, k) :: l2 ∧
        operator_call c k w =
        Returns v (LruCache (_fn c) (_capacity c) (l1 ++ l2 ++ [(it, k)])
                     (_key_to_value c) (_eval_counters c)) w
  | None =>
      match _fn c k w with
      | (inl v, w') =>
          ∃ c', operator_call c k w = Returns v c' w' ∧
            if is_full c then
              ∃ it0 k0 l, _key_tracker c = (it0, k0) :: l ∧
                _key_tracker c' = l ++ [(fresh l, k)] ∧
                _key_to_value c' = <[k := (v, fresh l)]> (delete k0 (_key_to_value c))
            else
              _key_tracker c' = _key_tracker c ++ [(fresh (_key_tracker c), k)] ∧
              _key_to_value c' =
                <[k := (v, fresh (_key_tracker c))]> (_key_to_value c)
      | (inr e, w') => operator_call c k w = Throws e c w'
      end
  end.
Proof.
  intros Hwf. destruct (_key_to_value c !! k) as [[v it]|] eqn:Hk.
  - by apply operator_call_hit.
  - unfold operator_call. rewrite Hk.
    destruct (_fn c k w) as [[v|e] w']; [|done].
    destruct (is_full c) eqn:Hf.
    + destruct (wf_nonempty_of_full c Hwf Hf) as (it0 & k0 & l & Hl).
      rewrite (insert_full c k v it0 k0 l) by done.
      eexists. split; [done|]. exists it0, k0, l.
      unfold count_evaluation; simpl. by destruct (_eval_counters c !! k).
    + rewrite insert_not_full by done.
      eexists. split; [done|].
      unfold count_evaluation; simpl. by destruct (_eval_counters c !! k).
Qed.

(** C3. Whatever calls of the interface are made on a store constructed
    with a non-zero capacity, none aborts, and afterwards the map and the
    recency list are in bijection, they have the same size, and that size
    is at most the capacity. *)
Theorem invariant_always (f : function_type K V E Env) (n : N) (os : list (op K V)) w :
  n ≠ 0%N →
  ∃ c0 c w',
    lru_cache_using_std f n = Done c0 ∧
    _key_tracker c0 = [] ∧ _key_to_value c0 = ∅ ∧
    apply_all os c0 w = Done (c, w') ∧
    bijection c ∧
    length (_key_tracker c) = size (_key_to_value c) ∧
    (N.of_nat (size (_key_to_value c)) ≤ n)%N.
Proof.
  intros Hn. destruct (constructed_wf f n Hn) as [Hc Hwf].
  destruct (apply_all_wf os _ w Hwf) as (c & w' & Hr & Hwf' & Hcap).
  eexists _, c, w'. split_and!; [exact Hc|done|done|exact Hr|..].
  - by apply wf_bijection.
  - by apply wf_size.
  - pose proof (wf_bounded c Hwf'). simpl in Hcap. lia.
Qed.

(** C6. [set(k, v)] on a key that is cached returns with the store as it
    was: same entries, same recency list, same size; the two values are
    never compared, [V] has no equality. On a key that is not cached it
    adds the entry [(k, v)] with a new node at the most-recent end, after
    it has removed the front node and its entry if the store is full; the
    other entries and nodes stay as they are. *)
Theorem set_spec c k v :
  wf c →
  (is_Some (_key_to_value c !! k) → set k v c = Done c) ∧
  (_key_to_value c !! k = None →
   ∃ c' it, set k v c = Done c' ∧ wf c' ∧
     _key_to_value c' !! k = Some (v, it) ∧
     last (_key_tracker c') = Some (it, k) ∧
     if is_full c then
       ∃ it0 k0 l, _key_tracker c = (it0, k0) :: l ∧ it = fresh l ∧
         c' = LruCache (_fn c) (_capacity c) (l ++ [(it, k)])
                (<[k := (v, it)]> (delete k0 (_key_to_value c)))
                (_eval_counters c)
     else
       it = fresh (_key_tracker c) ∧
       c' = LruCache (_fn c) (_capacity c) (_key_tracker c ++ [(it, k)])
              (<[k := (v, it)]> (_key_to_value c))
              (_eval_counters c)).
Proof.
  intros Hwf. split.
  - intros [x Hk]. unfold set. by rewrite Hk.
  - intros Hk. unfold set. rewrite Hk.
    destruct (insert_wf c k v Hwf Hk) as (c' & Hi & Hwf' & _ & _).
    destruct (is_full c) eqn:Hf.
    + destruct (wf_nonempty_of_full c Hwf Hf) as (it0 & k0 & l & Hl).
      rewrite (insert_full c k v it0 k0 l) in Hi |- * by done.
      injection Hi as <-. eexists _, _. split_and!; [done|done|..]; simpl.
      * apply lookup_insert_eq.
      * apply last_snoc.
      * by exists it0, k0, l.
    + rewrite insert_not_full in Hi |- * by done.
      injection Hi as <-. eexists _, _. split_and!; [done|done|..]; simpl.
      * apply lookup_insert_eq.
      * apply last_snoc.
      * done.
      * done.
Qed.

(** C7. [evict(k)] on a key that is not cached returns with the store as
    it was. On a cached key it removes the entry of [k] from the map and
    the node of [k] from the recency list, and nothing else; the next
    [operator()(k)] then runs the cached function: it returns what the
    function returns, in the environment the function leaves. *)
Theorem evict_spec c k :
  wf c →
  (_key_to_value c !! k = None → evict k c = Done c) ∧
  (∀ v it, _key_to_value c !! k = Some (v, it) →
   ∃ l1 l2 c', _key_tracker c = l1 ++ (it, k) :: l2 ∧
     evict k c = Done c' ∧
     c' = LruCache (_fn c) (_capacity c) (l1 ++ l2)
            (delete k (_key_to_value c)) (_eval_counters c) ∧
     (k ∉ keys (_key_tracker c')) ∧ has c' k = false ∧ wf c' ∧
     ∀ w, match _fn c k w with
          | (inl v', w') => ∃ c'', operator_call c' k w = Returns v' c'' w' ∧
                                   has c'' k = true
          | (inr e, w') => operator_call c' k w = Throws e c' w'
          end).
Proof.
  intros Hwf. split.
  - intros Hk. unfold evict. by rewrite Hk.
  - intros v it Hk.
    destruct (evict_present c k v it Hwf Hk) as (l1 & l2 & Hl & He).
    pose proof (wf_remove c l1 l2 it k Hwf Hl) as Hwf'.
    change (wf (LruCache (_fn c) (_capacity c) (l1 ++ l2)
                  (delete k (_key_to_value c)) (_eval_counters c))) in Hwf'.
    eexists l1, l2, _. split_and!; [done|exact He|done|..]; simpl.
    + rewrite (same_keys _ (wf_bijection _ Hwf')). simpl.
      rewrite lookup_delete_eq. by intros ?%is_Some_None.
    + unfold has. simpl. rewrite lookup_delete_eq.
      apply bool_decide_eq_false. by intros ?%is_Some_None.
    + exact Hwf'.
    + intros w. unfold operator_call at 1 2. simpl. rewrite lookup_delete_eq.
      destruct (_fn c k w) as [[v'|e] w']; [|done].
      destruct (insert_wf _ k v' Hwf') as (c'' & Hi & _ & Hs & _).
      { simpl. apply lookup_delete_eq. }
      rewrite Hi. eexists. split; [done|].
      unfold has, count_evaluation.
      destruct (_eval_counters c'' !! k); simpl; by apply bool_decide_eq_true.
Qed.

(** C8, as the code has it. In the build with assertions the constructor
    called with capacity zero fails its assertion: the program aborts and
    no store is produced. In the build with [NDEBUG] the same call
    returns a store of capacity zero, which is empty and full at once:
    [set] of any key, and [operator()] on any key on which the cached
    function returns, then run [evict()] on the empty recency list, which
    is undefined behaviour. With any other capacity the two builds
    construct the same store. *)
Theorem zero_capacity_by_build (f : function_type K V E Env) :
  lru_cache_using_std f 0 = Fail AssertionFailed ∧
  (∃ c0,
     LruNdebug.lru_cache_using_std f 0 = Done c0 ∧
     c0 = LruCache f 0 [] ∅ ∅ ∧
     is_full c0 = true ∧
     (∀ k v, LruNdebug.set k v c0 = Fail UndefinedBehaviour) ∧
     ∀ k w,
       LruNdebug.operator_call c0 k w =
       match f k w with
       | (inl v, w') => Crashes UndefinedBehaviour
       | (inr e, w') => Throws e c0 w'
       end) ∧
  ∀ n, n ≠ 0%N →
    lru_cache_using_std f n = Done (LruCache f n [] ∅ ∅) ∧
    LruNdebug.lru_cache_using_std f n = Done (LruCache f n [] ∅ ∅).
Proof.
  split; [done|]. split.
  - eexists. split; [done|]. split; [done|]. split; [done|].
    split; [done|]. intros k w. unfold LruNdebug.operator_call. simpl.
    rewrite lookup_empty. by destruct (f k w) as [[v|e] w'].
  - intros n Hn. split; [|done].
    unfold lru_cache_using_std. by rewrite bool_decide_eq_true_2.
Qed.

(** C9. [has(k)] answers whether [k] is a key of the map and returns with
    the store (map, recency list, size) and the environment as they
    were. *)
Theorem has_spec c k w :
  apply (Has k) c w = Returns (Flag (bool_decide (k ∈ dom (_key_to_value c)))) c w.
Proof.
  simpl. unfold has. do 2 f_equal. apply bool_decide_ext. by rewrite elem_of_dom.
Qed.

(** C5. With capacity 2 and three distinct keys [x], [y], [z] on which the
    cached function returns, the calls [operator()] on [x], [y], [x], [z]
    from the empty store leave exactly [x] and [z] cached: [y] was evicted
    and [z] is the most recent. *)
Theorem recency_example (f : function_type K V E Env) (x y z : K) w :
  x ≠ y → x ≠ z → y ≠ z →
  (∀ k w0, ∃ v w1, f k w0 = (inl v, w1)) →
  ∃ c0 c4 w4,
    lru_cache_using_std f 2 = Done c0 ∧
    apply_all [Get x; Get y; Get x; Get z] c0 w = Done (c4, w4) ∧
    dom (_key_to_value c4) = {[x; z]} ∧
    get_keys c4 = [z; x] ∧
    has c4 y = false.
Proof.
  intros Hxy Hxz Hyz Hf.
  destruct (Hf x w) as (vx & w1 & Hx).
  destruct (Hf y w1) as (vy & w2 & Hy).
  destruct (Hf z w2) as (vz & w3 & Hz).
  eexists _, _, _. split; [done|].
  assert (∀ l m n, is_full (LruCache f 2 l m n) = bool_decide (2 ≤ size m)) as Hfull'.
  { intros l m n. unfold is_full. simpl. apply bool_decide_ext. lia. }
  unfold apply_all, apply.
  (* Get x *)
  unfold operator_call at 1. simpl. rewrite lookup_empty, Hx.
  rewrite insert_not_full; [|apply lookup_empty|by rewrite Hfull', map_size_empty].
  unfold count_evaluation at 1; simpl. rewrite lookup_empty.
  unfold set_eval_counters; simpl.
  (* Get y *)
  unfold operator_call at 1. simpl. rewrite lookup_insert_ne, lookup_empty, Hy by done.
  rewrite insert_not_full;
    [|by simpl; rewrite lookup_insert_ne, lookup_empty
     |by rewrite Hfull', map_size_insert_None, map_size_empty by apply lookup_empty].
  unfold count_evaluation at 1; simpl. rewrite lookup_insert_ne, lookup_empty by done.
  unfold set_eval_counters; simpl.
  (* Get x again *)
  unfold operator_call at 1. simpl.
  rewrite (lookup_insert_ne _ y x), lookup_insert_eq by done.
  unfold set_key_tracker; simpl.
  (* Get z *)
  unfold operator_call at 1. simpl.
  rewrite !(lookup_insert_ne _ _ z), lookup_empty, Hz by done.
  unfold insert. simpl. rewrite !(lookup_insert_ne _ _ z), lookup_empty by done. simpl.
  rewrite Hfull'.
  rewrite !map_size_insert_None, map_size_empty;
    [|apply lookup_empty|by rewrite lookup_insert_ne, lookup_empty].
  simpl. unfold evict_lru. simpl. rewrite lookup_insert_eq. simpl.
  unfold count_evaluation, set_key_to_value, set_key_tracker; simpl.
  rewrite !(lookup_insert_ne _ _ z), lookup_empty by done.
  unfold set_eval_counters; simpl.
  split; [reflexivity|]. simpl. split_and!.
  - rewrite delete_insert_eq, delete_insert_ne, delete_empty by done.
    rewrite !dom_insert_L, dom_empty_L, (right_id_L ∅ (∪)). apply (comm_L (∪)).
  - done.
  - unfold has. simpl. apply bool_decide_eq_false.
    rewrite lookup_insert_ne, lookup_delete_eq by done. by intros ?%is_Some_None.
Qed.
End spec.

Import Examples.

Lemma empty2_wf : wf empty2.
Proof. by apply (constructed_wf times_ten 2). Qed.

Lemma full1_wf : wf full1.
Proof.
  pose proof (apply_wf (Put 7 70) (LruCache times_ten 1 [] ∅ ∅) ()) as Hp.
  apply Hp. by apply (constructed_wf times_ten 1).
Qed.

Lemma operator_call_spec_witness :
  wf empty2 ∧
  ∃ c', operator_call empty2 1 () = Returns 10 c' () ∧
        _key_tracker c' = [(1, 1)] ∧ _key_to_value c' = {[1 := (10, 1)]}.
Proof.
  split; [exact empty2_wf|].
  destruct (operator_call_spec empty2 1 () empty2_wf) as (c' & Hc & Ht & Hm).
  exists c'. split_and!; [exact Hc|exact Ht|exact Hm].
Defined.

Lemma invariant_always_witness :
  (2 ≠ 0)%N ∧
  ∃ c0 c w',
    lru_cache_using_std times_ten 2 = Done c0 ∧
    _key_tracker c0 = [] ∧ _key_to_value c0 = ∅ ∧
    apply_all [Get 1; Get 2; Put 3 30; Evict 1; Has 2; IsFull; Get 3] c0 () = Done (c, w') ∧
    bijection c ∧
    length (_key_tracker c) = size (_key_to_value c) ∧
    (N.of_nat (size (_key_to_value c)) ≤ 2)%N.
Proof.
  assert (2 ≠ 0)%N as Hn by lia.
  split; [exact Hn|]. exact (invariant_always times_ten 2 _ () Hn).
Defined.

Lemma set_spec_witness :
  let c1 := LruCache times_ten 2 [(1, 1)] {[1 := (10, 1)]} ∅ in
  let c2 := LruCache times_ten 2 [(1, 1); (2, 2)] (<[2 := (20, 2)]> {[1 := (10, 1)]}) ∅ in
  set 1 10 empty2 = Done c1 ∧ wf c1 ∧
  set 1 99 c1 = Done c1 ∧
  set 2 20 c1 = Done c2 ∧
  set 7 99 full1 = Done full1 ∧
  set 8 80 full1 = Done (LruCache times_ten 1 [(1, 8)] {[8 := (80, 1)]} ∅).
Proof.
  intros c1 c2.
  destruct (set_spec empty2 1 10 empty2_wf) as [_ Hnew].
  destruct (Hnew eq_refl) as (c1' & it1 & Hset1 & Hwf1 & _ & _ & Hit1 & Hc1).
  subst it1. change (c1' = c1) in Hc1. subst c1'.
  destruct (set_spec c1 1 99 Hwf1) as [Hkept _].
  destruct (set_spec c1 2 20 Hwf1) as [_ Hadd].
  destruct (Hadd eq_refl) as (c2' & it2 & Hset2 & _ & _ & _ & Hit2 & Hc2).
  subst it2. change (c2' = c2) in Hc2. subst c2'.
  destruct (set_spec full1 7 99 full1_wf) as [Hkept7 _].
  destruct (set_spec full1 8 80 full1_wf) as [_ Hevict].
  destruct (Hevict eq_refl) as (c3 & it3 & Hset3 & _ & _ & _ & it0 & k0 & l & Hl & Hit3 & Hc3).
  injection Hl as <- <- <-. subst it3 c3.
  split_and!; [exact Hset1|exact Hwf1| |exact Hset2| |exact Hset3].
  - apply Hkept. by eexists.
  - apply Hkept7. by eexists.
Defined.

(** C8 as it is stated fails in the build with [NDEBUG]: the constructor
    returns a store of capacity zero, and the first call that has a value
    to cache reads the front of an empty list. *)
Lemma zero_capacity_accepted_under_ndebug :
  LruNdebug.lru_cache_using_std times_ten 0 = Done (LruCache times_ten 0 [] ∅ ∅) ∧
  LruNdebug.lru_cache_using_std times_ten 0 ≠ Fail AssertionFailed ∧
  LruNdebug.operator_call (LruCache times_ten 0 [] ∅ ∅) 7 () = Crashes UndefinedBehaviour ∧
  LruNdebug.set 7 70 (LruCache times_ten 0 [] ∅ ∅) = Fail UndefinedBehaviour.
Proof. split_and!; [reflexivity|discriminate|reflexivity|reflexivity]. Qed.

Lemma evict_spec_witness :
  wf full1 ∧
  evict 8 full1 = Done full1 ∧
  evict 7 full1 = Done (LruCache times_ten 1 [] ∅ ∅) ∧
  ∃ c'', operator_call (LruCache times_ten 1 [] ∅ ∅) 7 () = Returns 70 c'' () ∧
         has c'' 7 = true.
Proof.
  destruct (evict_spec full1 7 full1_wf) as [_ Hp].
  destruct (evict_spec full1 8 full1_wf) as [Ha _].
  destruct (Hp 70 1 eq_refl) as (l1 & l2 & c' & Hl & He & Hc & _ & _ & _ & Hnext).
  assert (l1 = [] ∧ l2 = []) as [-> ->].
  { destruct l1 as [|n1 [|n2 l1]]; simpl in Hl; [by injection Hl as <-|..];
      by injection Hl. }
  subst c'. split_and!; [exact full1_wf|exact (Ha eq_refl)|exact He|exact (Hnext ())].
Defined.

Lemma recency_example_witness :
  1 ≠ 2 ∧ 1 ≠ 3 ∧ 2 ≠ 3 ∧
  (∀ k w0, ∃ v w1, times_ten k w0 = (inl v, w1)) ∧
  ∃ c0 c4 w4,
    lru_cache_using_std times_ten 2 = Done c0 ∧
    apply_all [Get 1; Get 2; Get 1; Get 3] c0 () = Done (c4, w4) ∧
    dom (_key_to_value c4) = {[1; 3]} ∧
    get_keys c4 = [3; 1] ∧
    has c4 2 = false.
Proof.
  assert (∀ k w0, ∃ v w1, times_ten k w0 = (inl v, w1)) as Hf.
  { intros k w0. exists (k * 10), w0. reflexivity. }
  assert (1 ≠ 2) as H12 by lia. assert (1 ≠ 3) as H13 by lia.
  assert (2 ≠ 3) as H23 by lia.
  split_and!; [exact H12|exact H13|exact H23|exact Hf|].
  exact (recency_example times_ten 1 2 3 () H12 H13 H23 Hf).
Defined.
End LruSpec.

(** ** The coordinated cache *)

Module SharedLruFacts.
Import StdList Lru LruFacts SharedLru.

Lemma size_t_incr_to_size_t (n : nat) : size_t_incr (to_size_t n) = to_size_t (S n).
Proof.
  unfold size_t_incr, to_size_t.
  rewrite N.Div0.add_mod_idemp_l. f_equal. lia.
Qed.

Lemma to_size_t_small (n : nat) : (N.of_nat n < size_t_modulus)%N → to_size_t n = N.of_nat n.
Proof. intros Hn. unfold to_size_t. by apply N.mod_small. Qed.

Section counting.
Context {K V : Type}.
Implicit Types (p : frame K V → bool) (m : gmap thread_id (frame K V)).

Lemma count_insert_new p m t f :
  m !! t = None → count p (<[t := f]> m) = count p m + weight p f.
Proof.
  intros Hm. unfold count, weight. rewrite map_filter_insert. simpl.
  destruct (p f) eqn:Hp.
  - rewrite decide_True by done. rewrite map_size_insert_None; [lia|].
    apply map_lookup_filter_None. by left.
  - rewrite decide_False by congruence. rewrite delete_id by done. lia.
Qed.

Lemma count_delete p m t f :
  m !! t = Some f → count p m = count p (delete t m) + weight p f.
Proof.
  intros Hm. assert (m = <[t := f]> (delete t m)) as Heq.
  { by rewrite insert_delete_eq, insert_id. }
  rewrite Heq at 1. apply count_insert_new, lookup_delete_eq.
Qed.

Lemma count_goto p m t f f' :
  m !! t = Some f →
  count p (<[t := f']> m) + weight p f = count p m + weight p f'.
Proof.
  intros Hm. rewrite (count_delete p m t f Hm).
  rewrite <-insert_delete_eq. rewrite count_insert_new by apply lookup_delete_eq. lia.
Qed.

Lemma size_leave m t f : m !! t = Some f → size m = S (size (delete t m)).
Proof.
  intros Hm. rewrite map_size_delete_Some by eauto.
  assert (size m ≠ 0); [|lia]. eapply map_size_ne_0_lookup_2. eauto.
Qed.
End counting.

Section events.
Context {K V E : Type}.
Implicit Types (p : event K V E → bool) (tr : list (event K V E)).

Lemma number_app p tr1 tr2 : number p (tr1 ++ tr2) = number p tr1 + number p tr2.
Proof. unfold number. by rewrite filter_app, length_app. Qed.

Lemma number_nil p : number p [] = 0.
Proof. done. Qed.

Lemma number_singleton p ev : number p [ev] = if p ev then 1 else 0.
Proof.
  unfold number. rewrite filter_cons, filter_nil.
  destruct (p ev); [by rewrite decide_True|by rewrite decide_False].
Qed.

(** Every event is a call or exactly one kind of ending. *)
Lemma number_endings tr :
  number (λ ev, negb (is_called ev)) tr =
  number is_hit tr + number is_late_hit tr + number is_fresh tr + number is_thrown tr.
Proof.
  induction tr as [|ev tr IH]; [done|].
  rewrite !(number_app _ [ev] tr), !number_singleton, IH.
  destruct ev as [t k|t k []]; simpl; lia.
Qed.
End events.

Section accounting.
Context `{Countable K} {V E Env : Type}.
Implicit Types (σ : system K V E Env) (tr : list (event K V E)) (t : thread_id).

Lemma count_empty (p : frame K V → bool) : count p ∅ = 0.
Proof. unfold count. by rewrite map_filter_empty, map_size_empty. Qed.

Lemma accounted_initial (f : function_type K V E Env) n o w :
  shared_lru_cache_using_std f n = Done o → accounted (initial o w) [].
Proof.
  unfold shared_lru_cache_using_std, lru_cache_using_std.
  destruct (assert _); simpl; [|done]. intros [= <-].
  split; simpl; try done.
  - intros t k [Hl|Hl]; by rewrite lookup_empty in Hl.
Qed.

Lemma call_accounted σ tr t k :
  accounted σ tr → threads σ !! t = None →
  accounted (goto t (Enter k) σ) (tr ++ [Called t k]) ∧
  advances σ tr (goto t (Enter k) σ) (tr ++ [Called t k]).
Proof.
  intros [Hm Hp Hc Hh Hl Hn] Ht. split; [split; simpl|].
  - intros t' f. rewrite lookup_insert. case_decide as Htt; [by intros [= <-]|]. apply Hm.
  - intros t' k'. rewrite !lookup_insert. case_decide as Htt; [by intros [[=]|[=]]|]. apply Hp.
  - rewrite Hc. unfold calls_counted, in_flight. simpl.
    rewrite number_app, number_singleton, count_insert_new by done. simpl.
    f_equal. unfold weight. simpl. lia.
  - rewrite Hh. unfold hits_counted, in_flight. simpl.
    rewrite number_app, number_singleton, count_insert_new by done. simpl.
    f_equal. unfold weight. simpl. lia.
  - rewrite Hl. unfold late_hits_counted. by rewrite number_app, number_singleton, Nat.add_0_r.
  - rewrite !number_app, !number_singleton, map_size_insert_None by done. simpl. lia.
  - unfold advances, calls_counted, hits_counted, late_hits_counted, in_flight. simpl.
    rewrite !number_app, !count_insert_new by done. lia.
Qed.

Lemma iter_size_t_incr d n :
  Nat.iter d size_t_incr (to_size_t n) = to_size_t (n + d).
Proof.
  induction d as [|d IH]; simpl.
  - by rewrite Nat.add_0_r.
  - rewrite IH, size_t_incr_to_size_t. f_equal. lia.
Qed.

(** One step of a thread, seen from the accounting: the thread goes to
    [next] (or leaves), the counters are incremented [dc], [dh] and [dl]
    times, and the events [evs] are emitted. *)
Lemma accounted_update σ tr t f next σ' evs dc dh dl :
  accounted σ tr →
  threads σ !! t = Some f →
  threads σ' = match next with
               | Some f' => <[t := f']> (threads σ)
               | None => delete t (threads σ)
               end →
  (∀ f', next = Some f' → holds_cache_mutex f' = true →
         _underlying_lru_cache_mutex (object σ') = Some t) →
  (_underlying_lru_cache_mutex (object σ') = _underlying_lru_cache_mutex (object σ) ∨
   _underlying_lru_cache_mutex (object σ) = None ∨
   _underlying_lru_cache_mutex (object σ) = Some t) →
  (_underlying_lru_cache (object σ') = _underlying_lru_cache (object σ) ∨
   _underlying_lru_cache_mutex (object σ) = None ∨
   _underlying_lru_cache_mutex (object σ) = Some t) →
  (∀ k, next = Some (FastCounting k) ∨ next = Some (FastReading k) →
        Lru.has (_underlying_lru_cache (object σ')) k = true) →
  calls (_hit_rate (object σ')) = Nat.iter dc size_t_incr (calls (_hit_rate (object σ))) →
  hits (_hit_rate (object σ')) = Nat.iter dh size_t_incr (hits (_hit_rate (object σ))) →
  late_hits (_hit_rate (object σ')) =
    Nat.iter dl size_t_incr (late_hits (_hit_rate (object σ))) →
  weight call_counted f + dc =
    weight_next call_counted next + number (λ ev, negb (is_called ev)) evs →
  weight hit_counted f + dh = weight_next hit_counted next + number is_hit evs →
  dl = number is_late_hit evs →
  number is_called evs = 0 →
  number (λ ev, negb (is_called ev)) evs + weight_next (λ _, true) next = 1 →
  accounted σ' (tr ++ evs) ∧ advances σ tr σ' (tr ++ evs).
Proof.
  intros [Hm Hp Hc Hh Hl Hn] Ht Hth Hhold Hmut Hcache Hpres Hcalls Hhits Hlate
    Hdc Hdh Hdl Hcalled Hended.
  assert (∀ t' f', t' ≠ t → threads σ' !! t' = Some f' → threads σ !! t' = Some f') as Hother.
  { intros t' f' Hne. rewrite Hth. destruct next.
    - by rewrite lookup_insert_ne.
    - by rewrite lookup_delete_ne. }
  assert (∀ f', threads σ' !! t = Some f' → next = Some f') as Hself.
  { intros f'. rewrite Hth. destruct next.
    - rewrite lookup_insert_eq. congruence.
    - by rewrite lookup_delete_eq. }
  assert (∀ p, count p (threads σ') + weight p f =
               count p (threads σ) + weight_next p next) as Hcount.
  { intros p. rewrite Hth. destruct next; simpl.
    - by apply count_goto.
    - rewrite (count_delete p _ t f Ht). lia. }
  split; [split|].
  - intros t' f' Hl' Hh'. destruct (decide (t' = t)) as [->|Hne].
    + eapply Hhold; [|done]. by apply Hself.
    + pose proof (Hm t' f' (Hother _ _ Hne Hl') Hh') as Hmt.
      destruct Hmut as [->|[Hx|Hx]]; congruence.
  - intros t' k Hl'. destruct (decide (t' = t)) as [->|Hne].
    + apply Hpres. destruct Hl' as [Hl'|Hl']; apply Hself in Hl'; auto.
    + assert (threads σ !! t' = Some (FastCounting k) ∨
              threads σ !! t' = Some (FastReading k)) as Hold.
      { destruct Hl' as [Hl'|Hl']; apply Hother in Hl'; auto. }
      assert (_underlying_lru_cache_mutex (object σ) = Some t') as Hmt.
      { destruct Hold as [Ho|Ho]; by eapply Hm. }
      destruct Hcache as [->|[Hx|Hx]]; [by eapply Hp|congruence..].
  - rewrite Hcalls, Hc, iter_size_t_incr. f_equal.
    unfold calls_counted, in_flight. rewrite number_app.
    pose proof (Hcount call_counted). lia.
  - rewrite Hhits, Hh, iter_size_t_incr. f_equal.
    unfold hits_counted, in_flight. rewrite number_app.
    pose proof (Hcount hit_counted). lia.
  - rewrite Hlate, Hl, iter_size_t_incr. f_equal.
    unfold late_hits_counted. rewrite number_app. lia.
  - rewrite !number_app, Hcalled. rewrite Hth.
    destruct next.
    + rewrite map_size_insert_Some by eauto. simpl in Hended. unfold weight in Hended. lia.
    + rewrite (size_leave _ t f Ht) in Hn. simpl in Hended. lia.
  - unfold advances, calls_counted, hits_counted, late_hits_counted, in_flight.
    rewrite !number_app.
    pose proof (Hcount call_counted). pose proof (Hcount hit_counted). lia.
Qed.

Ltac account Hacc Ht Hmt next dc dh dl :=
  eapply (accounted_update _ _ _ _ next _ _ dc dh dl Hacc Ht);
  simpl;
  try first
    [ reflexivity
    | by intros ? [= <-]
    | by left
    | by (right; left)
    | by (right; right; apply Hmt)
    | by (intros ? [[=]|[=]]) ].

Lemma step_accounted σ tr t σ' evs :
  accounted σ tr → step t σ = Next σ' evs →
  accounted σ' (tr ++ evs) ∧ advances σ tr σ' (tr ++ evs).
Proof.
  intros Hacc Hstep. unfold step in Hstep.
  destruct (threads σ !! t) as [f|] eqn:Ht; [|done].
  pose proof (acc_mutex _ _ Hacc t f Ht) as Hmt.
  destruct f as [k|k|k|k|k|k m|k m|k m v|k m v|k m|k m v|k m v]; simpl in Hmt.
  - (* Enter *)
    destruct (_underlying_lru_cache_mutex (object σ)) eqn:Hmx; [done|].
    destruct (Lru.has _ k) eqn:Hhas; injection Hstep as <- <-.
    + account Hacc Ht Hmt (Some (FastCounting k : frame K V)) 0 0 0.
      intros k' [Hx|Hx]; [|discriminate]. by injection Hx as <-.
    + account Hacc Ht Hmt (Some (MissCounting k : frame K V)) 0 0 0.
  - (* FastCounting *)
    injection Hstep as <- <-.
    account Hacc Ht Hmt (Some (FastReading k : frame K V)) 1 1 0.
    intros k' [Hx|Hx]; [discriminate|]. injection Hx as <-.
    apply (acc_present _ _ Hacc t). by left.
  - (* FastReading *)
    assert (Lru.has (_underlying_lru_cache (object σ)) k = true) as Hhas.
    { apply (acc_present _ _ Hacc t). by right. }
    unfold Lru.has in Hhas. apply bool_decide_eq_true in Hhas as [[v it] Hk].
    unfold operator_call in Hstep. rewrite Hk in Hstep.
    destruct (StdList.splice_back _ it); [|done].
    injection Hstep as <- <-.
    account Hacc Ht Hmt (@None (frame K V)) 0 0 0.
  - (* MissCounting *)
    injection Hstep as <- <-.
    account Hacc Ht Hmt (Some (Registering k : frame K V)) 1 0 0.
  - (* Registering *)
    unfold register in Hstep.
    destruct (_is_being_evaluated (object σ) !! k) as [tk|];
      destruct (assert _); simpl in Hstep; try done;
      injection Hstep as <- <-.
    + account Hacc Ht Hmt (Some (Locking k (mutex tk) : frame K V)) 0 0 0.
    + account Hacc Ht Hmt (Some (Locking k (allocated σ) : frame K V)) 0 0 0.
  - (* Locking *)
    destruct (locked σ !! m); [done|]. injection Hstep as <- <-.
    account Hacc Ht Hmt (Some (Rechecking k m : frame K V)) 0 0 0.
  - (* Rechecking *)
    destruct (_underlying_lru_cache_mutex (object σ)) eqn:Hmx; [done|].
    destruct (Lru.has _ k) eqn:Hhas.
    + unfold Lru.has in Hhas. apply bool_decide_eq_true in Hhas as [[v it] Hk].
      unfold operator_call in Hstep. rewrite Hk in Hstep.
      destruct (StdList.splice_back _ it); [|done].
      injection Hstep as <- <-.
      account Hacc Ht Hmt (Some (LateDeregistering k m v : frame K V)) 0 0 0.
    + injection Hstep as <- <-.
      account Hacc Ht Hmt (Some (Evaluating k m : frame K V)) 0 0 0.
  - (* LateDeregistering *)
    unfold done in Hstep.
    destruct (_is_being_evaluated (object σ) !! k) as [tk|]; [|done].
    destruct (assert _); simpl in Hstep; [|done].
    destruct (decide _); injection Hstep as <- <-;
      account Hacc Ht Hmt (Some (LateCounting k m v : frame K V)) 0 0 0.
  - (* LateCounting *)
    injection Hstep as <- <-.
    account Hacc Ht Hmt (@None (frame K V)) 0 0 1.
  - (* Evaluating *)
    destruct (_fn (object σ) k (env σ)) as [[v|e] w']; injection Hstep as <- <-.
    + account Hacc Ht Hmt (Some (Publishing k m v : frame K V)) 0 0 0.
    + account Hacc Ht Hmt (@None (frame K V)) 0 0 0.
  - (* Publishing *)
    destruct (_underlying_lru_cache_mutex (object σ)) eqn:Hmx; [done|].
    destruct (assert _); simpl in Hstep; [|done].
    destruct (Lru.set k v _); [|done]. injection Hstep as <- <-.
    account Hacc Ht Hmt (Some (Deregistering k m v : frame K V)) 0 0 0.
  - (* Deregistering *)
    unfold done in Hstep.
    destruct (_is_being_evaluated (object σ) !! k) as [tk|]; [|done].
    destruct (assert _); simpl in Hstep; [|done].
    destruct (decide _); injection Hstep as <- <-;
      account Hacc Ht Hmt (@None (frame K V)) 0 0 0.
Qed.

Lemma advances_refl σ tr : advances σ tr σ tr.
Proof. unfold advances. lia. Qed.

Lemma advances_trans σ1 tr1 σ2 tr2 σ3 tr3 :
  advances σ1 tr1 σ2 tr2 → advances σ2 tr2 σ3 tr3 → advances σ1 tr1 σ3 tr3.
Proof. unfold advances. lia. Qed.

Lemma perform_accounted a σ tr σ' evs :
  accounted σ tr → perform a σ = Next σ' evs →
  accounted σ' (tr ++ evs) ∧ advances σ tr σ' (tr ++ evs).
Proof.
  intros Hacc. destruct a as [t k|t]; simpl.
  - destruct (threads σ !! t) eqn:Ht; [done|]. intros [= <- <-].
    by apply call_accounted.
  - by apply step_accounted.
Qed.

Lemma run_accounted sched σ tr σ' tr' :
  accounted σ tr → run sched σ tr = Running σ' tr' →
  accounted σ' tr' ∧ advances σ tr σ' tr'.
Proof.
  revert σ tr. induction sched as [|a sched IH]; intros σ tr Hacc; simpl.
  - intros [= <- <-]. split; [done|apply advances_refl].
  - destruct (perform a σ) as [σ1 evs| | | |f] eqn:Ha; [|by auto..|done].
    destruct (perform_accounted _ _ _ _ _ Hacc Ha) as [Hacc1 Hadv1].
    intros Hrun. destruct (IH _ _ Hacc1 Hrun) as [Hacc' Hadv'].
    split; [done|]. by eapply advances_trans.
Qed.

Lemma count_le_size (p : frame K V → bool) (m : gmap thread_id (frame K V)) :
  count p m ≤ size m.
Proof. unfold count. apply map_subseteq_size, map_filter_subseteq. Qed.

(** Without wrap-around each counter is at most the number of calls made. *)
Lemma counted_le_called σ tr :
  accounted σ tr →
  calls_counted σ tr ≤ number is_called tr ∧
  hits_counted σ tr ≤ number is_called tr ∧
  late_hits_counted tr ≤ number is_called tr.
Proof.
  intros Hacc. rewrite (acc_called _ _ Hacc).
  unfold calls_counted, hits_counted, late_hits_counted, in_flight.
  pose proof (count_le_size call_counted (threads σ)).
  pose proof (count_le_size hit_counted (threads σ)).
  rewrite number_endings. lia.
Qed.

Lemma run_app s1 s2 σ tr :
  run (s1 ++ s2) σ tr =
  match run s1 σ tr with
  | Running σ' tr' => run s2 σ' tr'
  | Abort f => Abort f
  end.
Proof.
  revert σ tr. induction s1 as [|a s1 IH]; intros σ tr; simpl; [done|].
  destruct (perform a σ); auto.
Qed.

(** The trace so far is only extended. *)
Lemma run_trace sched σ tr :
  run sched σ tr =
  match run sched σ [] with
  | Running σ' tr' => Running σ' (tr ++ tr')
  | Abort f => Abort f
  end.
Proof.
  revert σ tr. induction sched as [|a sched IH]; intros σ tr; simpl.
  - by rewrite app_nil_r.
  - destruct (perform a σ) as [σ1 evs| | | |f]; auto.
    rewrite (IH σ1 (tr ++ evs)), (IH σ1 evs).
    destruct (run sched σ1 []); [|done]. by rewrite (assoc_L (++)).
Qed.
End accounting.

(** *** The protocol never aborts when the cached function never throws *)

Section coordination.
Context `{Countable K} {V E Env : Type}.
Implicit Types (σ : system K V E Env) (t : thread_id) (f : frame K V).

(** One step of a thread, seen from the protocol. *)
Lemma coordinated_update σ t f next σ' :
  coordinated σ →
  threads σ !! t = Some f →
  threads σ' = match next with
               | Some f' => <[t := f']> (threads σ)
               | None => delete t (threads σ)
               end →
  _fn (object σ') = _fn (object σ) →
  wf (_underlying_lru_cache (object σ')) →
  (∀ f', next = Some f' → holds_cache_mutex f' = true →
         _underlying_lru_cache_mutex (object σ') = Some t) →
  (_underlying_lru_cache_mutex (object σ') = _underlying_lru_cache_mutex (object σ) ∨
   _underlying_lru_cache_mutex (object σ) = None ∨
   _underlying_lru_cache_mutex (object σ) = Some t) →
  (∀ k, next = Some (FastCounting k) ∨ next = Some (FastReading k) →
        Lru.has (_underlying_lru_cache (object σ')) k = true) →
  ((∀ k, Lru.has (_underlying_lru_cache (object σ)) k = true →
         Lru.has (_underlying_lru_cache (object σ')) k = true) ∨
   _underlying_lru_cache_mutex (object σ) = None ∨
   _underlying_lru_cache_mutex (object σ) = Some t) →
  (∀ f' k m, next = Some f' → registered f' = Some (k, m) →
     ∃ tk, _is_being_evaluated (object σ') !! k = Some tk ∧ mutex tk = m ∧
           t ∈ active_threads tk) →
  (∀ t' k tk, t' ≠ t → _is_being_evaluated (object σ) !! k = Some tk →
     t' ∈ active_threads tk →
     ∃ tk', _is_being_evaluated (object σ') !! k = Some tk' ∧
            mutex tk' = mutex tk ∧ t' ∈ active_threads tk') →
  (∀ t' k tk', _is_being_evaluated (object σ') !! k = Some tk' →
     t' ∈ active_threads tk' →
     (t' ≠ t ∧ ∃ tk, _is_being_evaluated (object σ) !! k = Some tk ∧
                     t' ∈ active_threads tk) ∨
     (t' = t ∧ ∃ f' m, next = Some f' ∧ registered f' = Some (k, m))) →
  (∀ f' m, next = Some f' → holds_key_mutex f' = Some m → locked σ' !! m = Some t) →
  (∀ t' m, t' ≠ t → locked σ !! m = Some t' → locked σ' !! m = Some t') →
  (∀ f' k, next = Some f' → computes f' = Some k →
     Lru.has (_underlying_lru_cache (object σ')) k = false) →
  (∀ t' f' k, t' ≠ t → threads σ !! t' = Some f' → computes f' = Some k →
     Lru.has (_underlying_lru_cache (object σ')) k = false) →
  coordinated σ'.
Proof.
  intros [Hwf Htot Hm Hp Hreg Hmem Hlk Habs] Ht Hth Hfn Hwf' Hhold Hmut Hpres Hpres'
    Hreg1 Hreg2 Hmem' Hlk1 Hlk2 Habs1 Habs2.
  assert (∀ t' f', t' ≠ t → threads σ' !! t' = Some f' → threads σ !! t' = Some f') as Hother.
  { intros t' f' Hne. rewrite Hth. destruct next.
    - by rewrite lookup_insert_ne.
    - by rewrite lookup_delete_ne. }
  assert (∀ t' f', t' ≠ t → threads σ !! t' = Some f' → threads σ' !! t' = Some f') as Hother'.
  { intros t' f' Hne. rewrite Hth. destruct next.
    - by rewrite lookup_insert_ne.
    - by rewrite lookup_delete_ne. }
  assert (∀ f', threads σ' !! t = Some f' → next = Some f') as Hself.
  { intros f'. rewrite Hth. destruct next.
    - rewrite lookup_insert_eq. congruence.
    - by rewrite lookup_delete_eq. }
  assert (∀ f', next = Some f' → threads σ' !! t = Some f') as Hself'.
  { intros f' ->. rewrite Hth. by rewrite lookup_insert_eq. }
  split.
  - done.
  - by rewrite Hfn.
  - intros t' f' Hl' Hh'. destruct (decide (t' = t)) as [->|Hne].
    + eapply Hhold; [|done]. by apply Hself.
    + pose proof (Hm t' f' (Hother _ _ Hne Hl') Hh') as Hmt.
      destruct Hmut as [->|[Hx|Hx]]; congruence.
  - intros t' k Hl'. destruct (decide (t' = t)) as [->|Hne].
    + apply Hpres. destruct Hl' as [Hl'|Hl']; apply Hself in Hl'; auto.
    + assert (threads σ !! t' = Some (FastCounting k) ∨
              threads σ !! t' = Some (FastReading k)) as Hold.
      { destruct Hl' as [Hl'|Hl']; apply Hother in Hl'; auto. }
      assert (_underlying_lru_cache_mutex (object σ) = Some t') as Hmt.
      { destruct Hold as [Ho|Ho]; by eapply Hm. }
      destruct Hpres' as [Hx|[Hx|Hx]]; [|congruence..].
      apply Hx. by eapply Hp.
  - intros t' f' k m Hl' Hr. destruct (decide (t' = t)) as [->|Hne].
    + eapply Hreg1; [|done]. by apply Hself.
    + destruct (Hreg t' f' k m (Hother _ _ Hne Hl') Hr) as (tk & Hk & Hmx & Hin).
      destruct (Hreg2 t' k tk Hne Hk Hin) as (tk' & Hk' & Hmx' & Hin').
      exists tk'. split_and!; [done|congruence|done].
  - intros k tk' t' Hk' Hin'.
    destruct (Hmem' t' k tk' Hk' Hin') as [(Hne & tk & Hk & Hin)|(-> & f' & m & Hn & Hr)].
    + destruct (Hmem k tk t' Hk Hin) as (f' & m & Hl & Hr).
      exists f', m. split; [|done]. by apply Hother'.
    + exists f', m. split; [|done]. by apply Hself'.
  - intros t' f' m Hl' Hk. destruct (decide (t' = t)) as [->|Hne].
    + eapply Hlk1; [|done]. by apply Hself.
    + apply Hlk2; [done|]. eapply Hlk; [|done]. by apply Hother.
  - intros t' f' k Hl' Hc. destruct (decide (t' = t)) as [->|Hne].
    + eapply Habs1; [|done]. by apply Hself.
    + eapply Habs2; [done| |done]. by apply Hother.
Qed.

Lemma has_same_map (c c' : lru_cache K V E Env) k :
  _key_to_value c' = _key_to_value c → Lru.has c' k = Lru.has c k.
Proof. intros Hm. unfold Lru.has. by rewrite Hm. Qed.

Lemma has_false (c : lru_cache K V E Env) k :
  Lru.has c k = false ↔ _key_to_value c !! k = None.
Proof.
  unfold Lru.has. rewrite bool_decide_eq_false, <-eq_None_not_Some. done.
Qed.

(** A hit on a well-formed store reorders the recency list only. *)
Lemma operator_call_present (c : lru_cache K V E Env) k w :
  wf c → Lru.has c k = true →
  ∃ v c', operator_call c k w = Returns v c' w ∧ wf c' ∧
          _key_to_value c' = _key_to_value c.
Proof.
  intros Hwf Hhas. apply bool_decide_eq_true in Hhas as [[v it] Hk].
  destruct (operator_call_hit c k v it w Hwf Hk) as (l1 & l2 & Hl & Hc).
  eexists v, _. split; [exact Hc|]. split; [|done].
  apply (wf_reorder c); [done|].
  rewrite Hl, (assoc_L (++)). by rewrite <-Permutation_cons_append, Permutation_middle.
Qed.

(** [set] of a key that is not cached succeeds and caches no other key
    that was not. *)
Lemma set_absent (c : lru_cache K V E Env) k v :
  wf c → Lru.has c k = false →
  ∃ c', Lru.set k v c = Done c' ∧ wf c' ∧
        ∀ k', k' ≠ k → Lru.has c k' = false → Lru.has c' k' = false.
Proof.
  intros Hwf Hk%has_false. unfold Lru.set. rewrite Hk.
  destruct (insert_wf c k v Hwf Hk) as (c' & Hi & Hwf' & _ & _).
  exists c'. split_and!; [done..|].
  intros k' Hne Hk'%has_false. apply has_false.
  destruct (is_full c) eqn:Hf.
  - destruct (wf_nonempty_of_full c Hwf Hf) as (it0 & k0 & l & Hl).
    rewrite (insert_full c k v it0 k0 l) in Hi by done. injection Hi as <-. simpl.
    rewrite lookup_insert_ne by done. apply lookup_delete_None. by right.
  - rewrite insert_not_full in Hi by done. injection Hi as <-. simpl.
    by rewrite lookup_insert_ne.
Qed.

(** Two calls that are computing the value of the same key are the same
    call: the key mutex of the ticket admits one. *)
Lemma one_computation_per_key σ t1 t2 f1 f2 k :
  coordinated σ →
  threads σ !! t1 = Some f1 → threads σ !! t2 = Some f2 →
  computes f1 = Some k → computes f2 = Some k → t1 = t2.
Proof.
  intros Hco H1 H2 Hc1 Hc2.
  assert (∀ t f, threads σ !! t = Some f → computes f = Some k →
                 ∃ m, registered f = Some (k, m) ∧ holds_key_mutex f = Some m) as Hm.
  { intros t f _ Hc. destruct f; simpl in *; try done; injection Hc as ->; eauto. }
  destruct (Hm _ _ H1 Hc1) as (m1 & Hr1 & Hk1).
  destruct (Hm _ _ H2 Hc2) as (m2 & Hr2 & Hk2).
  destruct (co_registered _ Hco _ _ _ _ H1 Hr1) as (tk1 & Ht1 & Hm1 & _).
  destruct (co_registered _ Hco _ _ _ _ H2 Hr2) as (tk2 & Ht2 & Hm2 & _).
  assert (m1 = m2) as -> by congruence.
  pose proof (co_locked _ Hco _ _ _ H1 Hk1). pose proof (co_locked _ Hco _ _ _ H2 Hk2).
  congruence.
Qed.

(** What the registry conditions of [coordinated_update] come to when the
    registry is not touched. *)
Lemma registry_kept σ σ' t f next :
  coordinated σ → threads σ !! t = Some f →
  _is_being_evaluated (object σ') = _is_being_evaluated (object σ) →
  next ≫= registered = registered f →
  (∀ f' k m, next = Some f' → registered f' = Some (k, m) →
     ∃ tk, _is_being_evaluated (object σ') !! k = Some tk ∧ mutex tk = m ∧
           t ∈ active_threads tk) ∧
  (∀ t' k tk, t' ≠ t → _is_being_evaluated (object σ) !! k = Some tk →
     t' ∈ active_threads tk →
     ∃ tk', _is_being_evaluated (object σ') !! k = Some tk' ∧
            mutex tk' = mutex tk ∧ t' ∈ active_threads tk') ∧
  (∀ t' k tk', _is_being_evaluated (object σ') !! k = Some tk' →
     t' ∈ active_threads tk' →
     (t' ≠ t ∧ ∃ tk, _is_being_evaluated (object σ) !! k = Some tk ∧
                     t' ∈ active_threads tk) ∨
     (t' = t ∧ ∃ f' m, next = Some f' ∧ registered f' = Some (k, m))).
Proof.
  intros Hco Ht HR Hreg. split_and!.
  - intros f' k m -> Hr. rewrite HR. eapply (co_registered _ Hco t f); [done|].
    by rewrite <-Hreg.
  - intros t' k tk _ Hk Hin. exists tk. by rewrite HR.
  - intros t' k tk'. rewrite HR. intros Hk Hin.
    destruct (decide (t' = t)) as [->|Hne]; [right|left; eauto].
    split; [done|].
    destruct (co_members _ Hco k tk' t Hk Hin) as (f0 & m & Hf0 & Hr).
    assert (f0 = f) as -> by congruence. rewrite <-Hreg in Hr.
    destruct next as [f'|]; [|done]. by exists f', m.
Qed.

(** The same for the lambda [done], after which the call is no participant
    any more. *)
Lemma done_spec σ t f k m next :
  coordinated σ → threads σ !! t = Some f → registered f = Some (k, m) →
  next ≫= registered = None →
  ∃ o', done t k (object σ) = Done o' ∧
    _underlying_lru_cache o' = _underlying_lru_cache (object σ) ∧
    _underlying_lru_cache_mutex o' = _underlying_lru_cache_mutex (object σ) ∧
    _fn o' = _fn (object σ) ∧
    (∀ f' k m, next = Some f' → registered f' = Some (k, m) →
       ∃ tk, _is_being_evaluated o' !! k = Some tk ∧ mutex tk = m ∧
             t ∈ active_threads tk) ∧
    (∀ t' k tk, t' ≠ t → _is_being_evaluated (object σ) !! k = Some tk →
       t' ∈ active_threads tk →
       ∃ tk', _is_being_evaluated o' !! k = Some tk' ∧
              mutex tk' = mutex tk ∧ t' ∈ active_threads tk') ∧
    (∀ t' k tk', _is_being_evaluated o' !! k = Some tk' →
       t' ∈ active_threads tk' →
       (t' ≠ t ∧ ∃ tk, _is_being_evaluated (object σ) !! k = Some tk ∧
                       t' ∈ active_threads tk) ∨
       (t' = t ∧ ∃ f' m, next = Some f' ∧ registered f' = Some (k, m))).
Proof.
  intros Hco Ht Hr Hnext.
  destruct (co_registered _ Hco t f k m Ht Hr) as (tk & Hk & Hm & Hin).
  assert (∀ k' tk', k' ≠ k → _is_being_evaluated (object σ) !! k' = Some tk' →
                    t ∉ active_threads tk') as Hnot.
  { intros k' tk' Hne Hk' Hin'.
    destruct (co_members _ Hco k' tk' t Hk' Hin') as (f0 & m0 & Hf0 & Hr0).
    congruence. }
  unfold done. rewrite Hk. rewrite bool_decide_eq_true_2 by done. simpl.
  destruct (decide (active_threads tk ∖ {[t]} = ∅)) as [He|He];
    eexists; (split; [reflexivity|]); simpl; (split_and!; [done..| | |]).
  - intros f' k' m' -> Hr'. simpl in Hnext. congruence.
  - intros t' k' tk0 Hne Hk0 Hin0. destruct (decide (k' = k)) as [->|Hnk].
    + assert (tk0 = tk) as -> by congruence.
      assert (t' ∈ active_threads tk ∖ {[t]}) as Hx.
      { apply elem_of_difference. split; [done|]. by rewrite elem_of_singleton. }
      rewrite He in Hx. by apply not_elem_of_empty in Hx.
    + exists tk0. by rewrite lookup_delete_ne.
  - intros t' k' tk'. destruct (decide (k' = k)) as [->|Hnk].
    + by rewrite lookup_delete_eq.
    + rewrite lookup_delete_ne by done. intros Hk' Hin'. left. split; [|eauto].
      intros ->. by eapply Hnot.
  - intros f' k' m' -> Hr'. simpl in Hnext. congruence.
  - intros t' k' tk0 Hne Hk0 Hin0. destruct (decide (k' = k)) as [->|Hnk].
    + assert (tk0 = tk) as -> by congruence.
      eexists. rewrite lookup_insert_eq. split_and!; [done..|]. simpl.
      apply elem_of_difference. split; [done|]. by rewrite elem_of_singleton.
    + exists tk0. by rewrite lookup_insert_ne.
  - intros t' k' tk'. destruct (decide (k' = k)) as [->|Hnk].
    + rewrite lookup_insert_eq. intros [= <-]. simpl.
      intros [Hin' Hne]%elem_of_difference. rewrite elem_of_singleton in Hne.
      left. eauto.
    + rewrite lookup_insert_ne by done. intros Hk' Hin'. left. split; [|eauto].
      intros ->. by eapply Hnot.
Qed.

(** The same for lines 75-84, after which the call is a participant. *)
Lemma register_spec σ t k :
  coordinated σ → threads σ !! t = Some (Registering k) →
  ∃ m σ1, register t k σ = Done (m, σ1) ∧
    threads σ1 = threads σ ∧ locked σ1 = locked σ ∧
    _underlying_lru_cache (object σ1) = _underlying_lru_cache (object σ) ∧
    _underlying_lru_cache_mutex (object σ1) = _underlying_lru_cache_mutex (object σ) ∧
    _fn (object σ1) = _fn (object σ) ∧
    (∃ tk, _is_being_evaluated (object σ1) !! k = Some tk ∧ mutex tk = m ∧
           t ∈ active_threads tk) ∧
    (∀ t' k' tk, t' ≠ t → _is_being_evaluated (object σ) !! k' = Some tk →
       t' ∈ active_threads tk →
       ∃ tk', _is_being_evaluated (object σ1) !! k' = Some tk' ∧
              mutex tk' = mutex tk ∧ t' ∈ active_threads tk') ∧
    (∀ t' k' tk', _is_being_evaluated (object σ1) !! k' = Some tk' →
       t' ∈ active_threads tk' →
       (t' ≠ t ∧ ∃ tk, _is_being_evaluated (object σ) !! k' = Some tk ∧
                       t' ∈ active_threads tk) ∨
       (t' = t ∧ k' = k)).
Proof.
  intros Hco Ht.
  assert (∀ k' tk', _is_being_evaluated (object σ) !! k' = Some tk' →
                    t ∉ active_threads tk') as Hnot.
  { intros k' tk' Hk' Hin'.
    destruct (co_members _ Hco k' tk' t Hk' Hin') as (f0 & m0 & Hf0 & Hr0).
    rewrite Ht in Hf0. by injection Hf0 as <-. }
  unfold register.
  destruct (_is_being_evaluated (object σ) !! k) as [tk|] eqn:Hk.
  - rewrite bool_decide_eq_true_2 by (by eapply Hnot). simpl.
    eexists _, _. split; [reflexivity|]. simpl. split_and!; [done..| | |].
    + eexists. rewrite lookup_insert_eq. split_and!; [done..|]. simpl.
      apply elem_of_union_l. by apply elem_of_singleton.
    + intros t' k' tk0 Hne Hk0 Hin0. destruct (decide (k' = k)) as [->|Hnk].
      * assert (tk0 = tk) as -> by congruence.
        eexists. rewrite lookup_insert_eq. split_and!; [done..|]. simpl.
        by apply elem_of_union_r.
      * exists tk0. by rewrite lookup_insert_ne.
    + intros t' k' tk'. destruct (decide (k' = k)) as [->|Hnk].
      * rewrite lookup_insert_eq. intros [= <-]. simpl.
        intros [->%elem_of_singleton|Hin']%elem_of_union; [by right|].
        left. split; [|eauto]. intros ->. by eapply Hnot.
      * rewrite lookup_insert_ne by done. intros Hk' Hin'. left. split; [|eauto].
        intros ->. by eapply Hnot.
  - rewrite bool_decide_eq_true_2 by apply not_elem_of_empty. simpl.
    eexists _, _. split; [reflexivity|]. simpl. split_and!; [done..| | |].
    + eexists. rewrite lookup_insert_eq. split_and!; [done..|]. simpl.
      apply elem_of_union_l. by apply elem_of_singleton.
    + intros t' k' tk0 Hne Hk0 Hin0. destruct (decide (k' = k)) as [->|Hnk].
      * congruence.
      * exists tk0. by rewrite lookup_insert_ne.
    + intros t' k' tk'. destruct (decide (k' = k)) as [->|Hnk].
      * rewrite lookup_insert_eq. intros [= <-]. simpl.
        intros [->%elem_of_singleton|Hin']%elem_of_union; [by right|].
        by apply not_elem_of_empty in Hin'.
      * rewrite lookup_insert_ne by done. intros Hk' Hin'. left. split; [|eauto].
        intros ->. by eapply Hnot.
Qed.

(** A step that leaves the registry and the entries of the store as they
    are. *)
Lemma coordinated_update_local σ t f next σ' :
  coordinated σ →
  threads σ !! t = Some f →
  threads σ' = match next with
               | Some f' => <[t := f']> (threads σ)
               | None => delete t (threads σ)
               end →
  _fn (object σ') = _fn (object σ) →
  _is_being_evaluated (object σ') = _is_being_evaluated (object σ) →
  _key_to_value (_underlying_lru_cache (object σ')) =
    _key_to_value (_underlying_lru_cache (object σ)) →
  wf (_underlying_lru_cache (object σ')) →
  (∀ f', next = Some f' → holds_cache_mutex f' = true →
         _underlying_lru_cache_mutex (object σ') = Some t) →
  (_underlying_lru_cache_mutex (object σ') = _underlying_lru_cache_mutex (object σ) ∨
   _underlying_lru_cache_mutex (object σ) = None ∨
   _underlying_lru_cache_mutex (object σ) = Some t) →
  (∀ k, next = Some (FastCounting k) ∨ next = Some (FastReading k) →
        Lru.has (_underlying_lru_cache (object σ)) k = true) →
  next ≫= registered = registered f →
  (∀ f' m, next = Some f' → holds_key_mutex f' = Some m → locked σ' !! m = Some t) →
  (∀ t' m, t' ≠ t → locked σ !! m = Some t' → locked σ' !! m = Some t') →
  (∀ k, next ≫= computes = Some k →
        Lru.has (_underlying_lru_cache (object σ)) k = false) →
  coordinated σ'.
Proof.
  intros Hco Ht Hth Hfn HR HM Hwf' Hhold Hmut Hpres Hreg Hlk1 Hlk2 Hcomp.
  assert (∀ k, Lru.has (_underlying_lru_cache (object σ')) k =
               Lru.has (_underlying_lru_cache (object σ)) k) as Hhas.
  { intros k. by apply has_same_map. }
  destruct (registry_kept σ σ' t f next Hco Ht HR Hreg) as (Hr1 & Hr2 & Hr3).
  eapply (coordinated_update σ t f next σ' Hco Ht Hth Hfn Hwf' Hhold Hmut);
    [..|exact Hr1|exact Hr2|exact Hr3|exact Hlk1|exact Hlk2| |].
  - intros k Hk. rewrite Hhas. by apply Hpres.
  - left. intros k. by rewrite Hhas.
  - intros f' k -> Hc. rewrite Hhas. by apply Hcomp.
  - intros t' f' k _ Hl Hc. rewrite Hhas. by eapply (co_absent _ Hco).
Qed.

Ltac side Hmt :=
  simpl;
  try first
    [ done
    | by intros ? [= <-]
    | by intros ? ? [= <-]
    | by left
    | by (right; left)
    | by (right; right; apply Hmt)
    | by (intros ? [[=]|[=]]) ].

Lemma step_coordinated σ t :
  coordinated σ →
  match step t σ with
  | Next σ' _ => coordinated σ'
  | Aborted _ => False
  | _ => True
  end.
Proof.
  intros Hco. unfold step.
  destruct (threads σ !! t) as [f|] eqn:Ht; [|done].
  pose proof (co_mutex _ Hco t f Ht) as Hmt.
  pose proof (λ m, co_locked _ Hco t f m Ht) as Hlt.
  pose proof (co_wf _ Hco) as Hwf.
  destruct f as [k|k|k|k|k|k m|k m|k m v|k m v|k m|k m v|k m v];
    simpl in Hmt, Hlt.
  - (* Enter *)
    destruct (_underlying_lru_cache_mutex (object σ)) eqn:Hmx; [done|].
    destruct (Lru.has _ k) eqn:Hhas.
    + eapply (coordinated_update_local σ t _ (Some (FastCounting k : frame K V)) _ Hco Ht);
        side Hmt.
      intros k' [Hx|Hx]; [|discriminate]. by injection Hx as <-.
    + eapply (coordinated_update_local σ t _ (Some (MissCounting k : frame K V)) _ Hco Ht);
        side Hmt.
  - (* FastCounting *)
    eapply (coordinated_update_local σ t _ (Some (FastReading k : frame K V)) _ Hco Ht);
      side Hmt.
    intros k' [Hx|Hx]; [discriminate|]. injection Hx as <-.
    apply (co_present _ Hco t). by left.
  - (* FastReading *)
    assert (Lru.has (_underlying_lru_cache (object σ)) k = true) as Hhas.
    { apply (co_present _ Hco t). by right. }
    destruct (operator_call_present _ k (env σ) Hwf Hhas) as (v & c' & -> & Hwf' & Hmap).
    unfold finish.
    eapply (coordinated_update_local σ t _ (@None (frame K V)) _ Hco Ht); side Hmt.
  - (* MissCounting *)
    eapply (coordinated_update_local σ t _ (Some (Registering k : frame K V)) _ Hco Ht);
      side Hmt.
  - (* Registering *)
    destruct (register_spec σ t k Hco Ht)
      as (m & σ1 & -> & Hth & HL & Hc & Hcm & Hfn & Hr1 & Hr2 & Hr3).
    eapply (coordinated_update σ t _ (Some (Locking k m : frame K V)) _ Hco Ht);
      simpl; rewrite ?Hth, ?HL, ?Hc, ?Hcm, ?Hfn; side Hmt.
    + intros f' k' m' [= <-] [= <- <-]. exact Hr1.
    + intros t' k' tk' Hk' Hin'.
      destruct (Hr3 t' k' tk' Hk' Hin') as [?|[-> ->]]; [by left|right].
      split; [done|]. by eexists _, _.
    + intros t' f' k' _ Hl' Hc'. by eapply (co_absent _ Hco).
  - (* Locking *)
    destruct (locked σ !! m) eqn:Hlm; [done|].
    eapply (coordinated_update_local σ t _ (Some (Rechecking k m : frame K V)) _ Hco Ht);
      side Hmt.
    + intros f' m' [= <-] [= <-]. apply lookup_insert_eq.
    + intros t' m' Hne Hl'. rewrite lookup_insert_ne; [done|congruence].
  - (* Rechecking *)
    destruct (_underlying_lru_cache_mutex (object σ)) eqn:Hmx; [done|].
    destruct (Lru.has _ k) eqn:Hhas.
    + destruct (operator_call_present _ k (env σ) Hwf Hhas) as (v & c' & -> & Hwf' & Hmap).
      eapply (coordinated_update_local σ t _
                (Some (LateDeregistering k m v : frame K V)) _ Hco Ht); side Hmt.
      intros f' m' [= <-] [= <-]. by apply Hlt.
    + eapply (coordinated_update_local σ t _ (Some (Evaluating k m : frame K V)) _ Hco Ht);
        side Hmt.
      intros f' m' [= <-] [= <-]. by apply Hlt.
  - (* LateDeregistering *)
    destruct (done_spec σ t _ k m (Some (LateCounting k m v : frame K V)) Hco Ht eq_refl eq_refl)
      as (o' & -> & Hc & Hcm & Hfn & Hr1 & Hr2 & Hr3).
    eapply (coordinated_update σ t _ (Some (LateCounting k m v : frame K V)) _ Hco Ht);
      simpl; rewrite ?Hc, ?Hcm, ?Hfn; side Hmt.
    + intros f' m' [= <-] [= <-]. by apply Hlt.
    + intros t' f' k' _ Hl' Hc'. by eapply (co_absent _ Hco).
  - (* LateCounting *)
    unfold finish.
    eapply (coordinated_update_local σ t _ (@None (frame K V)) _ Hco Ht); side Hmt.
    intros t' m' Hne Hl'. rewrite lookup_delete_ne; [done|].
    intros Heq. rewrite <-Heq, (Hlt m eq_refl) in Hl'. congruence.
  - (* Evaluating *)
    destruct (co_total _ Hco k (env σ)) as (v & w' & ->).
    eapply (coordinated_update_local σ t _ (Some (Publishing k m v : frame K V)) _ Hco Ht);
      side Hmt.
    + intros f' m' [= <-] [= <-]. by apply Hlt.
    + intros k' [= <-]. by eapply (co_absent _ Hco t).
  - (* Publishing *)
    destruct (_underlying_lru_cache_mutex (object σ)) eqn:Hmx; [done|].
    assert (Lru.has (_underlying_lru_cache (object σ)) k = false) as Hhas.
    { by eapply (co_absent _ Hco t). }
    rewrite Hhas. simpl.
    destruct (set_absent _ k v Hwf Hhas) as (c' & -> & Hwf' & Hkeep).
    match goal with |- coordinated ?s =>
      destruct (registry_kept σ s t _ (Some (Deregistering k m v : frame K V))
                  Hco Ht eq_refl eq_refl) as (Hr1 & Hr2 & Hr3) end.
    eapply (coordinated_update σ t _ (Some (Deregistering k m v : frame K V)) _ Hco Ht);
      [..|exact Hr1|exact Hr2|exact Hr3|idtac|idtac|idtac|idtac]; side Hmt.
    + intros f' m' [= <-] [= <-]. by apply Hlt.
    + intros t' f' k' Hne Hl' Hc'. apply Hkeep.
      * intros ->. apply Hne.
        by eapply (one_computation_per_key σ t' t f' (Publishing k m v) k).
      * by eapply (co_absent _ Hco).
  - (* Deregistering *)
    destruct (done_spec σ t _ k m (@None (frame K V)) Hco Ht eq_refl eq_refl)
      as (o' & -> & Hc & Hcm & Hfn & Hr1 & Hr2 & Hr3).
    unfold finish.
    eapply (coordinated_update σ t _ (@None (frame K V)) _ Hco Ht);
      simpl; rewrite ?Hc, ?Hcm, ?Hfn; side Hmt.
    + intros t' m' Hne Hl'. rewrite lookup_delete_ne; [done|].
      intros Heq. rewrite <-Heq, (Hlt m eq_refl) in Hl'. congruence.
    + intros t' f' k' _ Hl' Hc'. by eapply (co_absent _ Hco).
Qed.

Lemma call_coordinated σ t k :
  coordinated σ → threads σ !! t = None → coordinated (goto t (Enter k) σ).
Proof.
  intros [Hwf Htot Hm Hp Hreg Hmem Hlk Habs] Ht.
  assert (∀ t' f', threads (goto t (Enter k) σ) !! t' = Some f' →
                   (t' = t ∧ f' = Enter k) ∨ (t' ≠ t ∧ threads σ !! t' = Some f')) as Hcases.
  { intros t' f'. simpl. rewrite lookup_insert. case_decide as Htt.
    - intros [= <-]. by left.
    - by right. }
  split; simpl; try done.
  - intros t' f' [[-> ->]|[Hne Hl]]%Hcases; [done|]. by eapply Hm.
  - intros t' k' Hl. apply (Hp t'). destruct Hl as [Hl|Hl];
      apply Hcases in Hl as [[_ [=]]|[_ Hl]]; auto.
  - intros t' f' k' m [[-> ->]|[Hne Hl]]%Hcases; [done|]. by eapply Hreg.
  - intros k' tk t' Hk Hin. destruct (Hmem k' tk t' Hk Hin) as (f' & m & Hl & Hr).
    exists f', m. split; [|done]. rewrite lookup_insert_ne; [done|congruence].
  - intros t' f' m [[-> ->]|[Hne Hl]]%Hcases; [done|]. by eapply Hlk.
  - intros t' f' k' [[-> ->]|[Hne Hl]]%Hcases; [done|]. by eapply Habs.
Qed.

Lemma coordinated_initial (f : function_type K V E Env) n o w :
  never_throws f → shared_lru_cache_using_std f n = Done o →
  coordinated (initial o w).
Proof.
  intros Hf. unfold shared_lru_cache_using_std, lru_cache_using_std, assert.
  case_bool_decide as Hn; simpl; [|done]. intros [= <-].
  split; simpl; try done.
  - by apply (constructed_wf f n).
  - intros t k [Hl|Hl]; by rewrite lookup_empty in Hl.
Qed.

Lemma perform_coordinated a σ :
  coordinated σ →
  match perform a σ with
  | Next σ' _ => coordinated σ'
  | Aborted _ => False
  | _ => True
  end.
Proof.
  intros Hco. destruct a as [t k|t]; simpl.
  - destruct (threads σ !! t) eqn:Ht; [done|]. by apply call_coordinated.
  - by apply step_coordinated.
Qed.

(** When the cached function never throws, no schedule makes an assertion
    fail or uses an invalid iterator. *)
Lemma run_coordinated sched σ tr :
  coordinated σ →
  ∃ σ' tr', run sched σ tr = Running σ' tr' ∧ coordinated σ'.
Proof.
  revert σ tr. induction sched as [|a sched IH]; intros σ tr Hco; simpl; [by eauto|].
  pose proof (perform_coordinated a σ Hco) as Ha.
  destruct (perform a σ) as [σ1 evs| | | |f]; [|by auto..|done].
  by apply IH.
Qed.
End coordination.

(** *** Asking for a cached key over and over *)

Import Examples.

Lemma request_warm h tr :
  run (request 0 7) (warm h) tr = Running (warm (count_hit h)) (tr ++ hit7).
Proof. rewrite run_trace. reflexivity. Qed.

Lemma requests_S t k n : requests t k (S n) = request t k ++ requests t k n.
Proof. reflexivity. Qed.

Lemma hits_S n : mjoin (replicate (S n) hit7) = hit7 ++ mjoin (replicate n hit7).
Proof. reflexivity. Qed.

Lemma requests_warm n h tr :
  run (requests 0 7 n) (warm h) tr =
  Running (warm (Nat.iter n count_hit h)) (tr ++ mjoin (replicate n hit7)).
Proof.
  revert h tr. induction n as [|n IH]; intros h tr.
  - simpl. by rewrite app_nil_r.
  - rewrite requests_S, run_app, request_warm, IH, hits_S.
    rewrite (assoc_L (++)). do 2 f_equal.
    clear. induction n as [|n IH]; [done|]. simpl. by rewrite IH.
Qed.

Lemma iter_count_hit n a b c :
  Nat.iter n count_hit (HitRate (to_size_t a) (to_size_t b) c) =
  HitRate (to_size_t (a + n)) (to_size_t (b + n)) c.
Proof.
  induction n as [|n IH]; simpl.
  - by rewrite !Nat.add_0_r.
  - rewrite IH. unfold count_hit. simpl. rewrite !size_t_incr_to_size_t.
    f_equal; f_equal; lia.
Qed.

Lemma number_hit7 (p : event nat nat () → bool) n :
  number p (mjoin (replicate n hit7)) = n * number p hit7.
Proof.
  induction n as [|n IH]; [done|].
  rewrite hits_S, number_app, IH. lia.
Qed.
End SharedLruFacts.

(** ** The contract of the coordinated cache *)

Module SharedLruSpec.
Import StdList Lru LruFacts SharedLru SharedLruFacts Examples.

Section spec.
Context `{Countable K} {V E Env : Type}.
Implicit Types (σ : system K V E Env) (tr : list (event K V E)) (t : thread_id).

(** C4, as the code has it. Take any schedule of calls and steps of any
    number of threads, cut in two. When no call is in progress at the end,
    [calls] is the number of calls that ended, [hits] the number that
    ended at line 62 and [late_hits] the number that ended at line 106,
    all three modulo 2^64. When fewer than 2^64 calls were made, no
    counter is smaller at the end than at the cut, and with no call in
    progress [calls] is the sum of [hits], [late_hits], the number of
    calls that published a freshly computed value and the number of calls
    that an exception of the cached function ended. *)
Theorem hit_rate_accounting (f : function_type K V E Env) n w o s1 s2 σ1 tr1 σ2 tr2 :
  shared_lru_cache_using_std f n = Done o →
  run s1 (initial o w) [] = Running σ1 tr1 →
  run s2 σ1 tr1 = Running σ2 tr2 →
  let h1 := get_hit_rate (object σ1) in
  let h2 := get_hit_rate (object σ2) in
  (quiescent σ2 →
     calls h2 = to_size_t (number is_hit tr2 + number is_late_hit tr2 +
                           number is_fresh tr2 + number is_thrown tr2) ∧
     hits h2 = to_size_t (number is_hit tr2) ∧
     late_hits h2 = to_size_t (number is_late_hit tr2)) ∧
  ((N.of_nat (number is_called tr2) < size_t_modulus)%N →
     (calls h1 ≤ calls h2)%N ∧ (hits h1 ≤ hits h2)%N ∧
     (late_hits h1 ≤ late_hits h2)%N ∧
     (quiescent σ2 →
        calls h2 = (hits h2 + late_hits h2 + N.of_nat (number is_fresh tr2) +
                    N.of_nat (number is_thrown tr2))%N)).
Proof.
  intros Ho Hr1 Hr2 h1 h2. subst h1 h2. unfold get_hit_rate.
  pose proof (accounted_initial f n o w Ho) as Hacc0.
  destruct (run_accounted _ _ _ _ _ Hacc0 Hr1) as [Hacc1 _].
  destruct (run_accounted _ _ _ _ _ Hacc1 Hr2) as [Hacc2 Hadv].
  assert (quiescent σ2 →
          calls_counted σ2 tr2 = number is_hit tr2 + number is_late_hit tr2 +
                                 number is_fresh tr2 + number is_thrown tr2 ∧
          hits_counted σ2 tr2 = number is_hit tr2) as Hq.
  { intros Hq. unfold calls_counted, hits_counted, in_flight. rewrite Hq.
    rewrite !count_empty, number_endings. lia. }
  split.
  - intros [Hqc Hqh]%Hq.
    rewrite (acc_calls _ _ Hacc2), (acc_hits _ _ Hacc2), (acc_late_hits _ _ Hacc2).
    by rewrite Hqc, Hqh.
  - intros Hbound.
    destruct (counted_le_called _ _ Hacc2) as (Hc2 & Hh2 & Hl2).
    destruct Hadv as (Hc & Hh & Hl).
    rewrite (acc_calls _ _ Hacc1), (acc_hits _ _ Hacc1), (acc_late_hits _ _ Hacc1).
    rewrite (acc_calls _ _ Hacc2), (acc_hits _ _ Hacc2), (acc_late_hits _ _ Hacc2).
    rewrite !to_size_t_small by lia.
    split_and!; [lia..|].
    intros [Hqc Hqh]%Hq. unfold late_hits_counted. lia.
Qed.

(** C10. [set(k, v)] on a full, well-formed store that does not cache [k]
    removes the front node of the recency list and the entry of its key,
    then appends a node for [k] and maps [k] to [v]. This is what line 115
    of the wrapper runs: the step that publishes a computed value evicts
    the least-recently-used entry of a full store. *)
Theorem publish_can_evict (c : lru_cache K V E Env) k v :
  wf c → _key_to_value c !! k = None → is_full c = true →
  ∃ it0 k0 l c',
    _key_tracker c = (it0, k0) :: l ∧
    c' = LruCache (Lru._fn c) (_capacity c) (l ++ [(fresh l, k)])
           (<[k := (v, fresh l)]> (delete k0 (_key_to_value c)))
           (_eval_counters c) ∧
    Lru.set k v c = Done c' ∧
    Lru.has c' k0 = false ∧ Lru.has c' k = true ∧
    ∀ σ t m,
      _underlying_lru_cache (object σ) = c →
      _underlying_lru_cache_mutex (object σ) = None →
      threads σ !! t = Some (Publishing k m v) →
      step t σ =
      Next (goto t (Deregistering k m v) (with_object (with_cache c' (object σ)) σ)) [].
Proof.
  intros Hwf Hk Hfull.
  destruct (wf_nonempty_of_full c Hwf Hfull) as (it0 & k0 & l & Hl).
  assert (k0 ≠ k) as Hne.
  { intros ->. destruct (node_lookup c it0 k Hwf) as [? ?]; [|congruence].
    rewrite Hl. apply list_elem_of_here. }
  assert (Lru.set k v c =
          Done (LruCache (Lru._fn c) (_capacity c) (l ++ [(fresh l, k)])
                  (<[k := (v, fresh l)]> (delete k0 (_key_to_value c)))
                  (_eval_counters c))) as Hset.
  { unfold Lru.set. rewrite Hk. by apply (insert_full c k v it0 k0 l). }
  eexists it0, k0, l, _. split_and!; [done|reflexivity|exact Hset|..].
  - unfold Lru.has. simpl. apply bool_decide_eq_false.
    rewrite lookup_insert_ne, lookup_delete_eq by done. by intros ?%is_Some_None.
  - unfold Lru.has. simpl. apply bool_decide_eq_true. by rewrite lookup_insert_eq.
  - intros σ t m Hc Hm Ht. unfold step. rewrite Ht, Hm, Hc.
    unfold Lru.has at 1. rewrite Hk.
    rewrite bool_decide_eq_false_2 by (by intros ?%is_Some_None). simpl.
    by rewrite Hset.
Qed.
(** When the cached function never throws, no interleaving of calls makes
    an assertion of the wrapper or of the store fail, and in every state
    that is reached at most one call is computing the value of a given
    key. *)
Theorem no_abort_without_exceptions (f : function_type K V E Env) n o w sched :
  never_throws f →
  shared_lru_cache_using_std f n = Done o →
  ∃ σ tr,
    run sched (initial o w) [] = Running σ tr ∧
    wf (_underlying_lru_cache (object σ)) ∧
    ∀ t1 t2 f1 f2 k,
      threads σ !! t1 = Some f1 → threads σ !! t2 = Some f2 →
      computes f1 = Some k → computes f2 = Some k → t1 = t2.
Proof.
  intros Hf Ho.
  destruct (run_coordinated sched (initial o w) [] (coordinated_initial f n o w Hf Ho))
    as (σ & tr & Hrun & Hco).
  exists σ, tr. split_and!; [done|by apply co_wf|].
  intros t1 t2 f1 f2 k. by apply one_computation_per_key.
Qed.

(** When the cached function throws at line 110, the call ends there: the
    key mutex is released, the store is as it was, and so is the registry,
    in which the caller is still a participant of the ticket of [k]. *)
Lemma throw_keeps_ticket σ t k m e w' :
  threads σ !! t = Some (Evaluating k m) →
  _fn (object σ) k (env σ) = (inr e, w') →
  ∃ σ', step t σ = Next σ' [Ended t k (Thrown e)] ∧
    threads σ' !! t = None ∧
    locked σ' !! m = None ∧
    _underlying_lru_cache (object σ') = _underlying_lru_cache (object σ) ∧
    _is_being_evaluated (object σ') = _is_being_evaluated (object σ).
Proof.
  intros Ht Hf. unfold step. rewrite Ht, Hf. eexists. split; [reflexivity|].
  simpl. by rewrite !lookup_delete_eq.
Qed.
End spec.

(** The state [publishing8] is reached: thread 0 asks for key 7, then for
    key 8, and stands before line 113. *)
Lemma publishing8_reached :
  run (request 0 7 ++ Call 0 8 :: replicate 6 (Step 0)) (start times_ten ()) [] =
  Running publishing8 [Called 0 7; Ended 0 7 (Fresh 70); Called 0 8].
Proof. vm_compute. reflexivity. Qed.

Lemma publish_can_evict_witness :
  wf full1 ∧ _key_to_value full1 !! 8 = None ∧ is_full full1 = true ∧
  step 0 publishing8 =
  Next (goto 0 (Deregistering 8 1 80)
          (with_object
             (with_cache (LruCache times_ten 1 [(1, 8)] {[8 := (80, 1)]} ∅)
                (object publishing8)) publishing8)) [].
Proof.
  assert (_key_to_value full1 !! 8 = None) as Hk by reflexivity.
  assert (is_full full1 = true) as Hf by reflexivity.
  split_and!; [exact LruSpec.full1_wf|exact Hk|exact Hf|].
  destruct (publish_can_evict full1 8 80 LruSpec.full1_wf Hk Hf)
    as (it0 & k0 & l & c' & Hl & -> & _ & _ & _ & Hstep).
  injection Hl as <- <- <-.
  rewrite (Hstep publishing8 0 1 eq_refl eq_refl eq_refl). reflexivity.
Defined.

Lemma hit_rate_accounting_witness :
  let o := object (start times_ten ()) in
  let σ1 := warm (HitRate 1 0 0) in
  let tr1 := [Called 0 7; Ended 0 7 (Fresh 70)] in
  let σ2 := System (SharedLruCache (LruCache times_ten 1 [(1, 8)] {[8 := (80, 1)]} ∅)
                      None times_ten ∅ (HitRate 3 1 0)) 2 ∅ () ∅ in
  let tr2 := tr1 ++ [Called 1 7; Ended 1 7 (Hit 70); Called 0 8; Ended 0 8 (Fresh 80)] in
  shared_lru_cache_using_std times_ten 1 = Done o ∧
  run (request 0 7) (initial o ()) [] = Running σ1 tr1 ∧
  run (request 1 7 ++ request 0 8) σ1 tr1 = Running σ2 tr2 ∧
  (N.of_nat (number is_called tr2) < size_t_modulus)%N ∧
  quiescent σ2 ∧
  (calls (get_hit_rate (object σ1)) ≤ calls (get_hit_rate (object σ2)))%N ∧
  calls (get_hit_rate (object σ2)) =
    (hits (get_hit_rate (object σ2)) + late_hits (get_hit_rate (object σ2)) +
     N.of_nat (number is_fresh tr2) + N.of_nat (number is_thrown tr2))%N.
Proof.
  intros o σ1 tr1 σ2 tr2.
  assert (shared_lru_cache_using_std times_ten 1 = Done o) as Ho by reflexivity.
  assert (run (request 0 7) (initial o ()) [] = Running σ1 tr1) as Hr1
    by (vm_compute; reflexivity).
  assert (run (request 1 7 ++ request 0 8) σ1 tr1 = Running σ2 tr2) as Hr2
    by (vm_compute; reflexivity).
  assert (N.of_nat (number is_called tr2) < size_t_modulus)%N as Hb
    by (vm_compute; reflexivity).
  assert (quiescent σ2) as Hq by reflexivity.
  destruct (hit_rate_accounting times_ten 1 () o _ _ σ1 tr1 σ2 tr2 Ho Hr1 Hr2) as [_ Hw].
  destruct (Hw Hb) as (Hc & _ & _ & Hi).
  split_and!; [exact Ho|exact Hr1|exact Hr2|exact Hb|exact Hq|exact Hc|exact (Hi Hq)].
Defined.

(** C4 as it is stated fails in two ways. A call that the cached function
    ends with an exception is counted by [calls] and by nothing else: after
    one such call [calls] is 1 while [hits], [late_hits] and the number of
    published computations are 0. And the counters are [size_t]: the call
    number 2^64 takes [calls] from 2^64 - 1 back to 0. *)
Lemma accounting_counterexample :
  (∃ σ tr,
     shared_lru_cache_using_std always_throws 1 = Done (object (start always_throws ())) ∧
     run (request 0 7) (start always_throws ()) [] = Running σ tr ∧
     quiescent σ ∧
     number is_fresh tr = 0 ∧
     calls (get_hit_rate (object σ)) ≠
       (hits (get_hit_rate (object σ)) + late_hits (get_hit_rate (object σ)) +
        N.of_nat (number is_fresh tr))%N) ∧
  (∃ σ1 tr1 σ2 tr2,
     shared_lru_cache_using_std times_ten 1 = Done (object (start times_ten ())) ∧
     run (requests 0 7 (N.to_nat (2 ^ 64 - 1))) (start times_ten ()) [] = Running σ1 tr1 ∧
     run (request 0 7) σ1 tr1 = Running σ2 tr2 ∧
     quiescent σ1 ∧ quiescent σ2 ∧
     number is_thrown tr2 = 0 ∧ number is_fresh tr2 = 1 ∧
     calls (get_hit_rate (object σ1)) = (2 ^ 64 - 1)%N ∧
     calls (get_hit_rate (object σ2)) = 0%N ∧
     hits (get_hit_rate (object σ2)) = (2 ^ 64 - 1)%N ∧
     late_hits (get_hit_rate (object σ2)) = 0%N ∧
     ¬ (calls (get_hit_rate (object σ1)) ≤ calls (get_hit_rate (object σ2)))%N ∧
     calls (get_hit_rate (object σ2)) ≠
       (hits (get_hit_rate (object σ2)) + late_hits (get_hit_rate (object σ2)) +
        N.of_nat (number is_fresh tr2))%N).
Proof.
  split.
  - eexists _, _. split; [reflexivity|]. split; [vm_compute; reflexivity|].
    split; [reflexivity|]. split; [reflexivity|]. vm_compute. discriminate.
  - remember (N.to_nat (2 ^ 64 - 2)) as n eqn:Hn.
    assert (N.of_nat n = 18446744073709551614)%N as Hn'.
    { rewrite Hn, N2Nat.id. reflexivity. }
    assert (N.to_nat (2 ^ 64 - 1) = S n) as ->.
    { rewrite Hn, <-N2Nat.inj_succ. f_equal. }
    clear Hn.
    assert (run (request 0 7) (start times_ten ()) [] =
            Running (warm (HitRate (to_size_t 1) (to_size_t 0) 0))
              [Called 0 7; Ended 0 7 (Fresh 70)]) as Hcold.
    { vm_compute. reflexivity. }
    eexists _, _, _, _. split; [reflexivity|].
    rewrite requests_S, run_app, Hcold, requests_warm, iter_count_hit.
    split; [reflexivity|]. rewrite request_warm.
    split; [reflexivity|]. split; [reflexivity|]. split; [reflexivity|].
    rewrite !number_app, !number_hit7.
    change (number is_thrown hit7) with 0. change (number is_fresh hit7) with 0.
    change (number is_thrown [Called 0 7; Ended 0 7 (Fresh 70)]) with 0.
    change (number is_fresh [Called 0 7; Ended 0 7 (Fresh 70)]) with 1.
    split; [lia|]. split; [lia|].
    replace (1 + n * 0 + 0) with 1 by lia. simpl.
    rewrite !size_t_incr_to_size_t. unfold to_size_t.
    replace (N.of_nat (S n)) with 18446744073709551615%N by lia.
    replace (N.of_nat (S (S n))) with 18446744073709551616%N by lia.
    split_and!; [reflexivity..| |]; vm_compute; [by intros []|discriminate].
Qed.

(** C1, at the input on which the code fails. The cached function throws at
    its first invocation. Thread 0 asks for key 7: the exception reaches the
    caller, nothing is cached for 7 and the mutex of the key is released,
    but the ticket of key 7 stays in the registry with thread 0 in its
    participant set. When thread 0 asks again, the assertion of line 82
    fails. When another thread asks, it computes and publishes the value,
    and the ticket still stays behind with thread 0 in it. *)
Theorem failed_compute_keeps_ticket :
  ∃ σ,
    run (request 0 7) (start flaky 0) [] =
      Running σ [Called 0 7; Ended 0 7 (Thrown ())] ∧
    SharedLru.has (object σ) 7 = false ∧
    locked σ = ∅ ∧
    _is_being_evaluated (object σ) !! 7 = Some (Ticket 0 {[0]}) ∧
    run (request 0 7) σ [] = Abort AssertionFailed ∧
    ∃ σ', run (request 1 7) σ [] =
            Running σ' [Called 1 7; Ended 1 7 (Fresh 70)] ∧
          _is_being_evaluated (object σ') !! 7 = Some (Ticket 0 {[0]}).
Proof.
  eexists. split; [vm_compute; reflexivity|].
  split; [reflexivity|]. split; [reflexivity|]. split; [reflexivity|].
  split; [vm_compute; reflexivity|].
  eexists. split; [vm_compute; reflexivity|]. reflexivity.
Qed.
End SharedLruSpec.

(** ** More of the core store: what a user of the interface observes *)

Module LruBehaviour.
Import StdList StdListFacts Lru LruFacts Examples.
Section more.
Context `{Countable K} {V E Env : Type}.
Abbreviation cache := (lru_cache K V E Env).
Implicit Types (c : cache) (k : K) (v : V) (w : Env) (it : iterator).

Lemma filter_ne_id (k : K) (l : list K) : k ∉ l → filter (λ x, x ≠ k) l = l.
Proof.
  induction l as [|x l IH]; [done|]. intros [Hx Hl]%not_elem_of_cons.
  rewrite filter_cons_True by done. by rewrite IH.
Qed.

Lemma record_eta c :
  LruCache (_fn c) (_capacity c) (_key_tracker c) (_key_to_value c) (_eval_counters c) = c.
Proof. by destruct c. Qed.

(** The node of a key splits the recency list into keys that differ from
    it. *)
Lemma split_at_key c l1 l2 it k :
  wf c → _key_tracker c = l1 ++ (it, k) :: l2 → (k ∉ keys l1) ∧ (k ∉ keys l2).
Proof.
  intros Hwf Hl. pose proof (one_node_per_key c (wf_bijection c Hwf)) as Hnd.
  rewrite Hl, keys_app in Hnd. unfold keys in *. rewrite fmap_cons in Hnd. simpl in Hnd.
  apply NoDup_app in Hnd as (_ & Hd & Hnd2). apply NoDup_cons in Hnd2 as [Hk2 _].
  split; [|done]. intros Hin. apply (Hd _ Hin). apply list_elem_of_here.
Qed.

Lemma get_keys_app c l1 l2 :
  _key_tracker c = l1 ++ l2 → get_keys c = reverse (keys l2) ++ reverse (keys l1).
Proof. intros Hl. unfold get_keys. by rewrite Hl, keys_app, reverse_app. Qed.

(** X1. A lookup of a cached key on a well-formed store returns the stored
    value without running the cached function, and [get_keys] afterwards
    lists that key first and the other keys in the order they had; the
    entries are as they were. *)
Theorem hit_moves_to_front c k v it w :
  wf c → _key_to_value c !! k = Some (v, it) →
  ∃ c', operator_call c k w = Returns v c' w ∧
        get_keys c' = k :: filter (λ x, x ≠ k) (get_keys c) ∧
        _key_to_value c' = _key_to_value c.
Proof.
  intros Hwf Hk.
  destruct (operator_call_hit c k v it w Hwf Hk) as (l1 & l2 & Hl & Hc).
  destruct (split_at_key c l1 l2 it k Hwf Hl) as [H1 H2].
  eexists. split; [exact Hc|]. split; [|done].
  unfold get_keys. simpl. rewrite Hl.
  assert (keys (l1 ++ l2 ++ [(it, k)]) = keys l1 ++ keys l2 ++ [k]) as ->.
  { by rewrite !keys_app. }
  assert (keys (l1 ++ (it, k) :: l2) = keys l1 ++ [k] ++ keys l2) as ->.
  { by rewrite keys_app. }
  rewrite !reverse_app, reverse_singleton. simpl.
  rewrite !filter_app. rewrite (filter_cons_False _ k []) by (simpl; intros Hx; by apply Hx).
  rewrite filter_nil, app_nil_r.
  rewrite !filter_ne_id; [done|..]; by rewrite elem_of_reverse.
Qed.

Lemma count_evaluation_fields c k :
  _key_tracker (count_evaluation k c) = _key_tracker c ∧
  _key_to_value (count_evaluation k c) = _key_to_value c ∧
  _capacity (count_evaluation k c) = _capacity c ∧
  _fn (count_evaluation k c) = _fn c.
Proof. unfold count_evaluation. by destruct (_eval_counters c !! k). Qed.

Lemma get_keys_same_tracker c c' :
  _key_tracker c' = _key_tracker c → get_keys c' = get_keys c.
Proof. unfold get_keys. by intros ->. Qed.

Lemma has_same_entries c c' k :
  _key_to_value c' = _key_to_value c → has c' k = has c k.
Proof. unfold has. by intros ->. Qed.

(** What [insert] makes of the most-recent-first list of keys. *)
Lemma insert_get_keys c k v :
  wf c → _key_to_value c !! k = None →
  ∃ c1 it, insert k v c = Done c1 ∧ wf c1 ∧
    _key_to_value c1 !! k = Some (v, it) ∧
    (∃ l, _key_tracker c1 = l ++ [(it, k)]) ∧
    _fn c1 = _fn c ∧ _capacity c1 = _capacity c ∧
    _eval_counters c1 = _eval_counters c ∧
    if is_full c
    then ∃ ks k0, get_keys c = ks ++ [k0] ∧ get_keys c1 = k :: ks ∧
                  has c1 k0 = false ∧
                  _key_to_value c1 = <[k := (v, it)]> (delete k0 (_key_to_value c))
    else get_keys c1 = k :: get_keys c ∧
         _key_to_value c1 = <[k := (v, it)]> (_key_to_value c).
Proof.
  intros Hwf Hk. destruct (insert_wf c k v Hwf Hk) as (c1 & Hi & Hwf1 & _ & _).
  destruct (is_full c) eqn:Hf.
  - destruct (wf_nonempty_of_full c Hwf Hf) as (it0 & k0 & l & Hl).
    rewrite (insert_full c k v it0 k0 l) in Hi |- * by done. injection Hi as <-.
    eexists _, _. split; [reflexivity|]. split; [exact Hwf1|].
    split; [simpl; apply lookup_insert_eq|]. split; [by eexists|].
    split; [done|]. split; [done|]. split; [done|].
    exists (reverse (keys l)), k0. unfold get_keys. simpl. rewrite Hl.
    split_and!; [| | |done].
    + unfold keys. simpl. by rewrite reverse_cons.
    + by rewrite keys_app, reverse_app.
    + unfold has. simpl. apply bool_decide_eq_false.
      assert (k0 ≠ k) as Hne.
      { intros ->. destruct (node_lookup c it0 k Hwf) as [? ?]; [|congruence].
        rewrite Hl. apply list_elem_of_here. }
      rewrite lookup_insert_ne, lookup_delete_eq by done. by intros ?%is_Some_None.
  - rewrite insert_not_full in Hi |- * by done. injection Hi as <-.
    eexists _, _. split; [reflexivity|]. split; [exact Hwf1|].
    split; [simpl; apply lookup_insert_eq|]. split; [by eexists|].
    split; [done|]. split; [done|]. split; [done|].
    split; [|done]. unfold get_keys. simpl. by rewrite keys_app, reverse_app.
Qed.

(** X2. A lookup of a key that is not cached, on which the cached function
    returns [v], returns [v] and caches it. Afterwards [get_keys] lists
    the key first; if the store was full, the key that [get_keys] listed
    last is gone and the others follow in their order; if it was not, all
    the keys that were listed follow. *)
Theorem miss_enters_at_front c k w v w' :
  wf c → _key_to_value c !! k = None → _fn c k w = (inl v, w') →
  ∃ c' it, operator_call c k w = Returns v c' w' ∧
    _key_to_value c' !! k = Some (v, it) ∧
    if is_full c
    then ∃ ks k0, get_keys c = ks ++ [k0] ∧ get_keys c' = k :: ks ∧ has c' k0 = false
    else get_keys c' = k :: get_keys c.
Proof.
  intros Hwf Hk Hf.
  destruct (insert_get_keys c k v Hwf Hk) as (c1 & it & Hi & _ & Hk1 & _ & _ & _ & _ & Hfull).
  destruct (count_evaluation_fields c1 k) as (Ht & Hm & _ & _).
  exists (count_evaluation k c1), it.
  unfold operator_call. rewrite Hk, Hf, Hi. split; [done|]. rewrite Hm. split; [done|].
  rewrite (get_keys_same_tracker c1 _ Ht).
  destruct (is_full c).
  - destruct Hfull as (ks & k0 & H1 & H2 & H3 & _). exists ks, k0.
    by rewrite (has_same_entries c1 _ k0 Hm).
  - by destruct Hfull.
Qed.

(** X3. On a well-formed store [get_keys] lists every cached key exactly
    once: it has no duplicates, a key is listed exactly when [has]
    answers true, there are as many keys as entries, and [is_full]
    answers true exactly when that number is the capacity. *)
Theorem get_keys_lists_the_store c :
  wf c →
  NoDup (get_keys c) ∧
  (∀ k, k ∈ get_keys c ↔ has c k = true) ∧
  length (get_keys c) = size (_key_to_value c) ∧
  (is_full c = true ↔ N.of_nat (length (get_keys c)) = _capacity c).
Proof.
  intros Hwf. unfold get_keys.
  assert (length (keys (_key_tracker c)) = size (_key_to_value c)) as Hlen.
  { unfold keys. rewrite length_fmap. apply (wf_size c Hwf). }
  split_and!.
  - rewrite reverse_Permutation. exact (one_node_per_key c (wf_bijection c Hwf)).
  - intros k. rewrite elem_of_reverse, (same_keys c (wf_bijection c Hwf)).
    unfold has. by rewrite bool_decide_eq_true.
  - by rewrite length_reverse.
  - rewrite length_reverse, Hlen.
    unfold is_full. rewrite bool_decide_eq_true. pose proof (wf_bounded c Hwf). lia.
Qed.

(** A lookup of the key of the last node changes nothing. *)
Lemma last_node_hit c l it k v w :
  wf c → _key_tracker c = l ++ [(it, k)] → _key_to_value c !! k = Some (v, it) →
  operator_call c k w = Returns v c w.
Proof.
  intros Hwf Hl Hk. unfold operator_call, splice_back. rewrite Hk, Hl.
  rewrite unlink_middle.
  - simpl. unfold set_key_tracker. f_equal. rewrite <-(record_eta c), Hl. simpl.
    f_equal. f_equal. apply app_nil_r.
  - pose proof (wf_nodes c Hwf) as Hnd. rewrite Hl, fmap_app in Hnd.
    apply NoDup_app in Hnd as (_ & Hd & _). intros Hi. apply (Hd _ Hi).
    simpl. apply list_elem_of_here.
Qed.

(** X4. After [operator()(k)] has returned [v], asking for [k] again
    returns [v] again, does not run the cached function, whatever its
    environment, and leaves the store exactly as it is, recency order
    included. *)
Theorem second_lookup_is_free c k w v c' w' :
  wf c → operator_call c k w = Returns v c' w' →
  ∀ w'', operator_call c' k w'' = Returns v c' w''.
Proof.
  intros Hwf Hc w''.
  pose proof (apply_wf (Get k) c w Hwf) as Hwf'. simpl in Hwf'. rewrite Hc in Hwf'.
  destruct Hwf' as [Hwf' _].
  destruct (_key_to_value c !! k) as [[v0 it]|] eqn:Hk.
  - destruct (operator_call_hit c k v0 it w Hwf Hk) as (l1 & l2 & Hl & Hc').
    rewrite Hc' in Hc. injection Hc as <- <- <-.
    eapply (last_node_hit _ (l1 ++ l2)); [done| |done].
    simpl. by rewrite (assoc_L (++)).
  - unfold operator_call in Hc. rewrite Hk in Hc.
    destruct (_fn c k w) as [[v1|e] w1]; [|done].
    destruct (insert_get_keys c k v1 Hwf Hk)
      as (c1 & it & Hi & _ & Hk1 & [l Hl] & _).
    rewrite Hi in Hc. injection Hc as <- <- <-.
    destruct (count_evaluation_fields c1 k) as (Ht & Hm & _ & _).
    eapply (last_node_hit _ l it); [done|by rewrite Ht|by rewrite Hm].
Qed.

(** X5. After [set(k, v)] of a key that was not cached, [operator()(k)]
    returns [v] without running the cached function and leaves the store
    as [set] left it. *)
Theorem set_then_lookup c k v :
  wf c → _key_to_value c !! k = None →
  ∃ c1, set k v c = Done c1 ∧ ∀ w, operator_call c1 k w = Returns v c1 w.
Proof.
  intros Hwf Hk.
  destruct (insert_get_keys c k v Hwf Hk) as (c1 & it & Hi & Hwf1 & Hk1 & [l Hl] & _).
  exists c1. unfold set. rewrite Hk. split; [done|]. intros w.
  by eapply last_node_hit.
Qed.

Lemma snoc_split {A} (l l1 l2 : list A) (n n' : A) :
  l ++ [n] = l1 ++ n' :: l2 → n' ∉ l → l2 = [] ∧ l1 = l ∧ n' = n.
Proof.
  intros Heq Hni. destruct l2 as [|x l2 _] using rev_ind.
  - apply app_inj_tail in Heq as [-> ->]. done.
  - exfalso. apply Hni.
    change (n' :: l2 ++ [x]) with ((n' :: l2) ++ [x]) in Heq.
    rewrite (assoc_L (++)) in Heq. apply app_inj_tail in Heq as [-> _].
    apply elem_of_app. right. apply list_elem_of_here.
Qed.

(** X6. On a store that is not full, [set(k, v)] of a key that was not
    cached and then [evict(k)] give back the store as it was: same
    entries, same recency list. *)
Theorem set_then_evict c k v :
  wf c → _key_to_value c !! k = None → is_full c = false →
  ∃ c1, set k v c = Done c1 ∧ has c1 k = true ∧ evict k c1 = Done c.
Proof.
  intros Hwf Hk Hf.
  destruct (insert_wf c k v Hwf Hk) as (c1 & Hi & Hwf1 & _ & _).
  exists c1. unfold set. rewrite Hk. split; [done|].
  rewrite insert_not_full in Hi by done. injection Hi as <-.
  split. { unfold has. simpl. apply bool_decide_eq_true. by rewrite lookup_insert_eq. }
  destruct (evict_present _ k v (fresh (_key_tracker c)) Hwf1) as (l1 & l2 & Hl & ->).
  { simpl. apply lookup_insert_eq. }
  simpl in *.
  assert (k ∉ keys (_key_tracker c)) as Hnk.
  { rewrite (same_keys c (wf_bijection c Hwf)), Hk. by intros ?%is_Some_None. }
  apply snoc_split in Hl as (-> & -> & _).
  - rewrite app_nil_r, delete_insert_eq, delete_id by done. by rewrite record_eta.
  - intros Hin. apply Hnk. apply list_elem_of_fmap. by eexists (_, k).
Qed.

(** X7. No call of the interface changes the value cached for a key: after
    any call the key has the entry it had, or it is not cached any more;
    and no call aborts on a well-formed store. *)
Theorem cached_entries_are_stable (o : op K V) c w k v it :
  wf c → _key_to_value c !! k = Some (v, it) →
  match apply o c w with
  | Returns _ c' _ | Throws _ c' _ =>
      _key_to_value c' !! k = Some (v, it) ∨ _key_to_value c' !! k = None
  | Crashes _ => False
  end.
Proof.
  intros Hwf Hk.
  assert (∀ k' v', _key_to_value c !! k' = None →
            match insert k' v' c with
            | Done c' => _key_to_value c' !! k = Some (v, it) ∨ _key_to_value c' !! k = None
            | Fail _ => False
            end) as Hins.
  { intros k' v' Hk'. assert (k ≠ k') as Hne by congruence.
    destruct (insert_get_keys c k' v' Hwf Hk')
      as (c1 & it1 & -> & _ & _ & _ & _ & _ & _ & Hfull).
    destruct (is_full c).
    - destruct Hfull as (ks & k0 & _ & _ & _ & ->).
      rewrite lookup_insert_ne by done.
      destruct (decide (k0 = k)) as [->|Hne0].
      + right. apply lookup_delete_eq.
      + left. by rewrite lookup_delete_ne.
    - destruct Hfull as [_ ->]. left. by rewrite lookup_insert_ne. }
  destruct o as [k'|k' v'|k'|k'|]; simpl; [| | |by left..].
  - destruct (_key_to_value c !! k') as [[v0 it0]|] eqn:Hk'.
    + destruct (operator_call_hit c k' v0 it0 w Hwf Hk') as (l1 & l2 & Hl & ->).
      by left.
    + unfold operator_call. rewrite Hk'.
      destruct (_fn c k' w) as [[v'|e] w']; [|by left].
      specialize (Hins k' v' Hk'). destruct (insert k' v' c) as [c1|]; [|done].
      destruct (count_evaluation_fields c1 k') as (_ & -> & _). done.
  - unfold set. destruct (_key_to_value c !! k') as [x|] eqn:Hk'; simpl; [by left|].
    specialize (Hins k' v' Hk'). by destruct (insert k' v' c).
  - destruct (_key_to_value c !! k') as [[v0 it0]|] eqn:Hk'.
    + destruct (evict_present c k' v0 it0 Hwf Hk') as (l1 & l2 & Hl & ->). simpl.
      destruct (decide (k' = k)) as [->|Hne].
      * right. apply lookup_delete_eq.
      * left. by rewrite lookup_delete_ne.
    + unfold evict. rewrite Hk'. by left.
Qed.

(** X8. Only [evict(key)] makes room: after any other call of the
    interface the store has at least as many entries as before, and a
    store that was full is still full. *)
Theorem only_evict_makes_room (o : op K V) c w :
  wf c → (∀ k, o ≠ Evict k) →
  match apply o c w with
  | Returns _ c' _ | Throws _ c' _ =>
      size (_key_to_value c) ≤ size (_key_to_value c') ∧
      (is_full c = true → is_full c' = true)
  | Crashes _ => False
  end.
Proof.
  intros Hwf Hne.
  assert (∀ k' v', _key_to_value c !! k' = None →
            match insert k' v' c with
            | Done c' => size (_key_to_value c) ≤ size (_key_to_value c') ∧
                         (is_full c = true → is_full c' = true) ∧
                         _capacity c' = _capacity c
            | Fail _ => False
            end) as Hins.
  { intros k' v' Hk'.
    destruct (insert_get_keys c k' v' Hwf Hk')
      as (c1 & it1 & -> & Hwf1 & _ & _ & _ & Hcap & _ & Hfull).
    unfold is_full. rewrite Hcap, !bool_decide_eq_true.
    destruct (is_full c) eqn:Hf.
    - destruct Hfull as (ks & k0 & Hks & _ & _ & ->).
      assert (is_Some (_key_to_value c !! k0)) as Hk0.
      { apply (same_keys c (wf_bijection c Hwf)). apply elem_of_reverse.
        fold (get_keys c). rewrite Hks. apply elem_of_app. right. apply list_elem_of_here. }
      assert (k0 ≠ k') as Hne0. { intros ->. rewrite Hk' in Hk0. by destruct Hk0. }
      rewrite map_size_insert_None by (by rewrite lookup_delete_ne).
      rewrite map_size_delete_Some by done.
      assert (size (_key_to_value c) ≠ 0).
      { destruct Hk0 as [x Hx]. by eapply map_size_ne_0_lookup_2. }
      split_and!; [lia|lia|done].
    - destruct Hfull as [_ ->]. rewrite map_size_insert_None by done.
      split_and!; [lia|lia|done]. }
  destruct o as [k'|k' v'|k'|k'|]; simpl; [| |by destruct (Hne k')|done..].
  - destruct (_key_to_value c !! k') as [[v0 it0]|] eqn:Hk'.
    + destruct (operator_call_hit c k' v0 it0 w Hwf Hk') as (l1 & l2 & Hl & ->). done.
    + unfold operator_call. rewrite Hk'.
      destruct (_fn c k' w) as [[v'|e] w']; [|done].
      specialize (Hins k' v' Hk'). destruct (insert k' v' c) as [c1|]; [|done].
      destruct (count_evaluation_fields c1 k') as (_ & Hm & Hc & _).
      unfold is_full in *. rewrite Hm, Hc. destruct Hins as (? & ? & _). done.
  - unfold set. destruct (_key_to_value c !! k') as [x|] eqn:Hk'; simpl; [done|].
    specialize (Hins k' v' Hk'). destruct (insert k' v' c); [|done]. simpl. tauto.
Qed.

Lemma insert_caches_values_of (g : K → V) c k :
  wf c → caches_values_of g c → _key_to_value c !! k = None →
  ∃ c1, insert k (g k) c = Done c1 ∧ wf c1 ∧ caches_values_of g c1 ∧ _fn c1 = _fn c.
Proof.
  intros Hwf Hg Hk.
  destruct (insert_get_keys c k (g k) Hwf Hk)
    as (c1 & it1 & Hi & Hwf1 & _ & _ & Hfn & _ & _ & Hfull).
  exists c1. split_and!; [done..| |done].
  intros k' v' it'. destruct (is_full c).
  - destruct Hfull as (ks & k0 & _ & _ & _ & ->).
    rewrite lookup_insert_Some, lookup_delete_Some.
    intros [[<- [= <- _]]|(_ & _ & Hl)]; [done|by eapply Hg].
  - destruct Hfull as [_ ->]. rewrite lookup_insert_Some.
    intros [[<- [= <- _]]|(_ & Hl)]; [done|by eapply Hg].
Qed.

Lemma apply_caches_values_of (f : function_type K V E Env) (g : K → V) (o : op K V) c w :
  (∀ k w0, ∃ w1, f k w0 = (inl (g k), w1)) →
  (∀ k v, o = Put k v → v = g k) →
  wf c → caches_values_of g c → _fn c = f →
  match apply o c w with
  | Returns a c' _ =>
      wf c' ∧ caches_values_of g c' ∧ _fn c' = f ∧ ∀ k, o = Get k → a = Value (g k)
  | _ => False
  end.
Proof.
  intros Hf Ho Hwf Hg Hfn. destruct o as [k|k v|k|k|]; simpl.
  - destruct (_key_to_value c !! k) as [[v it]|] eqn:Hk.
    + destruct (operator_call_hit c k v it w Hwf Hk) as (l1 & l2 & Hl & Hc).
      pose proof (apply_wf (Get k) c w Hwf) as Hwf'. simpl in Hwf'.
      rewrite Hc in Hwf' |- *. destruct Hwf' as [Hwf' _].
      split_and!; [done..|]. intros k' [= <-]. f_equal. by eapply Hg.
    + unfold operator_call. rewrite Hk, Hfn. destruct (Hf k w) as [w1 ->].
      destruct (insert_caches_values_of g c k Hwf Hg Hk) as (c1 & -> & Hwf1 & Hg1 & Hfn1).
      destruct (count_evaluation_fields c1 k) as (_ & Hm & _ & Hfn2).
      split_and!.
      * by apply wf_count_evaluation.
      * intros k' v' it'. rewrite Hm. apply Hg1.
      * congruence.
      * by intros k' [= <-].
  - rewrite (Ho k v eq_refl). unfold set.
    destruct (_key_to_value c !! k) eqn:Hk; simpl; [done|].
    destruct (insert_caches_values_of g c k Hwf Hg Hk) as (c1 & -> & Hwf1 & Hg1 & Hfn1).
    simpl. split_and!; [done|done|congruence|done].
  - destruct (_key_to_value c !! k) as [[v it]|] eqn:Hk.
    + destruct (evict_present c k v it Hwf Hk) as (l1 & l2 & Hl & ->). simpl.
      split_and!; [by apply (wf_remove c l1 l2 it k)| |done..].
      intros k' v' it'. simpl. rewrite lookup_delete_Some. intros [_ Hl']. by eapply Hg.
    + unfold evict. rewrite Hk. done.
  - done.
  - done.
Qed.

(** X9. A store is transparent for a cached function whose value depends
    on the key only, say it is [g k]: after any calls of the interface on
    a new store, with [set] used for values of [g] only, every
    [operator()(k)] returns [g k]. *)
Theorem lookups_return_function_values
    (f : function_type K V E Env) (g : K → V) n (os : list (op K V)) w :
  n ≠ 0%N →
  (∀ k w0, ∃ w1, f k w0 = (inl (g k), w1)) →
  (∀ k v, Put k v ∈ os → v = g k) →
  ∃ c0 c w',
    lru_cache_using_std f n = Done c0 ∧
    apply_all os c0 w = Done (c, w') ∧
    ∀ k w1, ∃ c1 w2, operator_call c k w1 = Returns (g k) c1 w2.
Proof.
  intros Hn Hf Hputs. destruct (constructed_wf f n Hn) as [Hc Hwf].
  assert (∀ os c w, (∀ k v, Put k v ∈ os → v = g k) →
            wf c → caches_values_of g c → _fn c = f →
            ∃ c' w', apply_all os c w = Done (c', w') ∧
                     wf c' ∧ caches_values_of g c' ∧ _fn c' = f) as Hall.
  { clear -Hf. intros os. induction os as [|o os IH]; intros c w Hputs Hwf Hg Hfn; simpl.
    - exists c, w. by split_and!.
    - assert (∀ k v, o = Put k v → v = g k) as Ho'.
      { intros k v ->. apply Hputs. apply list_elem_of_here. }
      pose proof (apply_caches_values_of f g o c w Hf Ho' Hwf Hg Hfn) as Ho.
      destruct (apply o c w) as [a c1 w1|e c1 w1|x]; [|done..].
      destruct Ho as (Hwf1 & Hg1 & Hfn1 & _).
      apply IH; [|done..]. intros k v Hin. apply Hputs. by apply list_elem_of_further. }
  destruct (Hall os (LruCache f n [] ∅ ∅) w Hputs Hwf) as (c & w' & Hr & Hwf' & Hg' & Hfn');
    [by intros k v it; simpl; rewrite lookup_empty|done|].
  eexists _, c, w'. split; [exact Hc|]. split; [exact Hr|].
  intros k w1.
  assert (∀ k' v, Get k = Put k' v → v = g k') as Ho' by done.
  pose proof (apply_caches_values_of f g (Get k) c w1 Hf Ho' Hwf' Hg' Hfn') as Ho.
  simpl in Ho.
  destruct (operator_call c k w1) as [a c1 w2|e c1 w2|x]; [|done..].
  destruct Ho as (_ & _ & _ & Ha).
  specialize (Ha k eq_refl). injection Ha as ->. by eauto.
Qed.
End more.

Lemma hit_moves_to_front_witness :
  ∃ c', operator_call full1 7 () = Returns 70 c' () ∧
        get_keys c' = 7 :: filter (λ x, x ≠ 7) (get_keys full1) ∧
        _key_to_value c' = _key_to_value full1.
Proof. exact (hit_moves_to_front full1 7 70 1 () LruSpec.full1_wf eq_refl). Defined.

Lemma miss_enters_at_front_witness :
  ∃ c' it, operator_call full1 8 () = Returns 80 c' () ∧
    _key_to_value c' !! 8 = Some (80, it) ∧
    ∃ ks k0, get_keys full1 = ks ++ [k0] ∧ get_keys c' = 8 :: ks ∧ has c' k0 = false.
Proof.
  exact (miss_enters_at_front full1 8 () 80 () LruSpec.full1_wf eq_refl eq_refl).
Defined.

Lemma get_keys_lists_the_store_witness :
  NoDup (get_keys full1) ∧
  (∀ k, k ∈ get_keys full1 ↔ has full1 k = true) ∧
  length (get_keys full1) = size (_key_to_value full1) ∧
  (is_full full1 = true ↔ N.of_nat (length (get_keys full1)) = _capacity full1).
Proof. exact (get_keys_lists_the_store full1 LruSpec.full1_wf). Defined.

Lemma second_lookup_is_free_witness :
  let c' := LruCache times_ten 1 [(1, 8)] {[8 := (80, 1)]} {[8 := 1%N]} in
  operator_call full1 8 () = Returns 80 c' () ∧
  ∀ w'', operator_call c' 8 w'' = Returns 80 c' w''.
Proof.
  intros c'.
  assert (operator_call full1 8 () = Returns 80 c' ()) as Hc by reflexivity.
  split; [exact Hc|].
  exact (second_lookup_is_free full1 8 () 80 c' () LruSpec.full1_wf Hc).
Defined.

Lemma set_then_lookup_witness :
  ∃ c1, set 1 10 empty2 = Done c1 ∧ ∀ w, operator_call c1 1 w = Returns 10 c1 w.
Proof. exact (set_then_lookup empty2 1 10 LruSpec.empty2_wf eq_refl). Defined.

Lemma set_then_evict_witness :
  ∃ c1, set 1 10 empty2 = Done c1 ∧ has c1 1 = true ∧ evict 1 c1 = Done empty2.
Proof. exact (set_then_evict empty2 1 10 LruSpec.empty2_wf eq_refl eq_refl). Defined.

Lemma cached_entries_are_stable_witness :
  match apply (Get 8) full1 () with
  | Returns _ c' _ | Throws _ c' _ =>
      _key_to_value c' !! 7 = Some (70, 1) ∨ _key_to_value c' !! 7 = None
  | Crashes _ => False
  end.
Proof.
  exact (cached_entries_are_stable (Get 8) full1 () 7 70 1 LruSpec.full1_wf eq_refl).
Defined.

Lemma only_evict_makes_room_witness :
  match apply (Put 8 80) full1 () with
  | Returns _ c' _ | Throws _ c' _ =>
      size (_key_to_value full1) ≤ size (_key_to_value c') ∧
      (is_full full1 = true → is_full c' = true)
  | Crashes _ => False
  end.
Proof.
  assert (∀ k : nat, Put 8 80 ≠ Evict k) as Hne by discriminate.
  exact (only_evict_makes_room (Put 8 80) full1 () LruSpec.full1_wf Hne).
Defined.

Lemma lookups_return_function_values_witness :
  ∃ c0 c w',
    lru_cache_using_std times_ten 2 = Done c0 ∧
    apply_all [Get 1; Put 2 20; Evict 1; Get 3] c0 () = Done (c, w') ∧
    ∀ k w1, ∃ c1 w2, operator_call c k w1 = Returns (k * 10) c1 w2.
Proof.
  apply (lookups_return_function_values times_ten (λ k, k * 10) 2
           [Get 1; Put 2 20; Evict 1; Get 3] ()).
  - discriminate.
  - intros k w0. exists w0. reflexivity.
  - intros k v Hin. rewrite !elem_of_cons, elem_of_nil in Hin.
    destruct Hin as [Hin|[Hin|[Hin|[Hin|[]]]]]; try discriminate.
    injection Hin as -> ->. reflexivity.
Defined.
End LruBehaviour.

(** ** The evaluation counters of the core store *)

Module LruCounters.
Import StdList StdListFacts Lru LruFacts LruBehaviour SharedLruFacts.
Section counters.
Context `{Countable K} {V E Env : Type}.
Abbreviation cache := (lru_cache K V E Env).
Implicit Types (c : cache) (k : K) (v : V) (w : Env) (it : iterator).

Lemma count_evaluation_lookup c k k' :
  _eval_counters (count_evaluation k c) !! k' =
  if decide (k = k') then bump (_eval_counters c !! k) else _eval_counters c !! k'.
Proof.
  unfold count_evaluation, bump.
  destruct (_eval_counters c !! k) eqn:Hk; simpl; case_decide as Hkk; subst;
    rewrite ?lookup_insert_eq, ?lookup_insert_ne by done; by rewrite ?Hk.
Qed.

Lemma apply_eval_counters (o : op K V) c w k :
  wf c →
  match apply o c w with
  | Returns _ c' _ =>
      _eval_counters c' !! k = Nat.iter (evaluated k o c) bump (_eval_counters c !! k)
  | Throws _ c' _ => _eval_counters c' !! k = _eval_counters c !! k
  | Crashes _ => False
  end.
Proof.
  intros Hwf. destruct o as [k'|k' v'|k'|k'|]; simpl; [| | |done..].
  - destruct (_key_to_value c !! k') as [[v0 it0]|] eqn:Hk'.
    + destruct (operator_call_hit c k' v0 it0 w Hwf Hk') as (l1 & l2 & Hl & ->). simpl.
      rewrite bool_decide_eq_false_2; [done|]. intros [-> Hn]. congruence.
    + unfold operator_call. rewrite Hk'.
      destruct (_fn c k' w) as [[v'|e] w']; [|done].
      destruct (insert_get_keys c k' v' Hwf Hk') as (c1 & it1 & -> & _ & _ & _ & _ & _ & Hev & _).
      rewrite count_evaluation_lookup, Hev.
      case_decide as Hkk.
      * subst k'. by rewrite bool_decide_eq_true_2.
      * rewrite bool_decide_eq_false_2; [done|]. by intros [? _].
  - unfold set. destruct (_key_to_value c !! k') as [x|] eqn:Hk'; simpl; [done|].
    destruct (insert_get_keys c k' v' Hwf Hk') as (c1 & it1 & -> & _ & _ & _ & _ & _ & Hev & _).
    simpl. by rewrite Hev.
  - destruct (_key_to_value c !! k') as [[v0 it0]|] eqn:Hk'.
    + by destruct (evict_present c k' v0 it0 Hwf Hk') as (l1 & l2 & Hl & ->).
    + unfold evict. by rewrite Hk'.
Qed.

Lemma iter_bump_add n m x : Nat.iter (n + m) bump x = Nat.iter m bump (Nat.iter n bump x).
Proof. rewrite Nat.add_comm. apply Nat.iter_add. Qed.

Lemma apply_all_eval_counters (os : list (op K V)) c w c' w' k :
  wf c → apply_all os c w = Done (c', w') →
  _eval_counters c' !! k = Nat.iter (evaluations k os c w) bump (_eval_counters c !! k).
Proof.
  revert c w. induction os as [|o os IH]; intros c w Hwf; simpl.
  - by intros [= <- <-].
  - pose proof (apply_eval_counters o c w k Hwf) as Ho.
    pose proof (apply_wf o c w Hwf) as Hwf1.
    destruct (apply o c w) as [a c1 w1|e c1 w1|x]; [| |done]; intros Hall.
    + destruct Hwf1 as [Hwf1 _]. rewrite (IH c1 w1 Hwf1 Hall), Ho. by rewrite iter_bump_add.
    + destruct Hwf1 as [Hwf1 _]. by rewrite (IH c1 w1 Hwf1 Hall), Ho.
Qed.

Lemma iter_bump_None n :
  Nat.iter (S n) bump None = Some (N.of_nat (S n) mod size_t_modulus)%N.
Proof.
  induction n as [|n IH]; [done|].
  rewrite Nat.iter_succ, IH. unfold bump. f_equal.
  apply (size_t_incr_to_size_t (S n)).
Qed.

(** X21. In the build with assertions, after any calls of the interface
    on a new store the evaluation counter of a key is the number of
    times [operator()] did not find the key cached and the cached
    function returned, modulo 2^64; a key for which that never happened
    has no counter. Eviction, [set] and [evict] leave the counters as
    they are. *)
Theorem eval_counters_count_evaluations
    (f : function_type K V E Env) n (os : list (op K V)) w c0 c w' k :
  lru_cache_using_std f n = Done c0 →
  apply_all os c0 w = Done (c, w') →
  _eval_counters c !! k =
    match evaluations k os c0 w with
    | 0 => None
    | S m => Some (N.of_nat (S m) mod size_t_modulus)%N
    end.
Proof.
  intros Hc Hall.
  assert (n ≠ 0%N) as Hn.
  { intros ->. unfold lru_cache_using_std in Hc. by rewrite bool_decide_eq_false_2 in Hc. }
  destruct (constructed_wf f n Hn) as [Hc' Hwf]. rewrite Hc' in Hc. injection Hc as <-.
  rewrite (apply_all_eval_counters os _ w c w' k Hwf Hall). simpl.
  destruct (evaluations _ _ _ _) as [|m]; [done|]. apply iter_bump_None.
Qed.
End counters.

Import Examples.

Lemma eval_counters_count_evaluations_witness :
  let c := LruCache times_ten 2 [(1, 1)] {[1 := (10, 1)]} {[1 := 2%N]} in
  apply_all [Get 1; Evict 1; Get 1; Get 1] empty2 () = Done (c, ()) ∧
  _eval_counters c !! 1 = Some 2%N.
Proof.
  intros c.
  assert (apply_all [Get 1; Evict 1; Get 1; Get 1] empty2 () = Done (c, ())) as Hall
    by reflexivity.
  split; [exact Hall|].
  exact (eval_counters_count_evaluations times_ten 2 [Get 1; Evict 1; Get 1; Get 1] ()
           empty2 c () 1 eq_refl Hall).
Defined.
End LruCounters.

(** ** More of the coordinated cache *)

(** *** Nothing is left held, and the calls can always finish *)

Module SharedLruProgress.
Import StdList Lru LruFacts SharedLru SharedLruFacts.
Section more.
Context `{Countable K} {V E Env : Type}.
Implicit Types (σ : system K V E Env) (t : thread_id) (f : frame K V).

(** *** Mutexes have owners and tickets have participants *)

Lemma owned_update σ t f next σ' :
  owned σ →
  threads σ !! t = Some f →
  threads σ' = match next with
               | Some f' => <[t := f']> (threads σ)
               | None => delete t (threads σ)
               end →
  (_underlying_lru_cache_mutex (object σ') = None ∨
   (_underlying_lru_cache_mutex (object σ') = Some t ∧
    ∃ f', next = Some f' ∧ holds_cache_mutex f' = true) ∨
   (_underlying_lru_cache_mutex (object σ') = _underlying_lru_cache_mutex (object σ) ∧
    (holds_cache_mutex f = true → ∃ f', next = Some f' ∧ holds_cache_mutex f' = true))) →
  ((locked σ' = locked σ ∧
    ∀ m, holds_key_mutex f = Some m → ∃ f', next = Some f' ∧ holds_key_mutex f' = Some m) ∨
   (∃ m f', locked σ' = <[m := t]> (locked σ) ∧ next = Some f' ∧
            holds_key_mutex f' = Some m ∧ holds_key_mutex f = None) ∨
   (∃ m, locked σ' = delete m (locked σ) ∧ holds_key_mutex f = Some m)) →
  (∀ k tk, _is_being_evaluated (object σ') !! k = Some tk → active_threads tk ≠ ∅) →
  owned σ'.
Proof.
  intros [Hcm Hkm Htk] Ht Hth Hc Hl Hr.
  assert (∀ t' f', t' ≠ t → threads σ !! t' = Some f' → threads σ' !! t' = Some f') as Hother.
  { intros t' f' Hne. rewrite Hth. destruct next.
    - by rewrite lookup_insert_ne.
    - by rewrite lookup_delete_ne. }
  assert (∀ f', next = Some f' → threads σ' !! t = Some f') as Hself.
  { intros f' ->. rewrite Hth. by rewrite lookup_insert_eq. }
  split; [| |done].
  - intros t0 Ht0. destruct Hc as [Hc|[[Hc (f' & Hn & Hh)]|[Hc Hkeep]]].
    + congruence.
    + assert (t0 = t) as -> by congruence. exists f'. split; [by apply Hself|done].
    + rewrite Hc in Ht0. destruct (Hcm t0 Ht0) as (f0 & Hf0 & Hh0).
      destruct (decide (t0 = t)) as [->|Hne].
      * assert (f0 = f) as -> by congruence. destruct (Hkeep Hh0) as (f' & Hn & Hh).
        exists f'. split; [by apply Hself|done].
      * exists f0. split; [by apply Hother|done].
  - intros m t1 Hm. destruct Hl as [[Hl Hkeep]|[(m0 & f' & Hl & Hn & Hh & Hnone)|(m0 & Hl & Hh)]].
    + rewrite Hl in Hm. destruct (Hkm m t1 Hm) as (f1 & Hf1 & Hh1).
      destruct (decide (t1 = t)) as [->|Hne].
      * assert (f1 = f) as -> by congruence. destruct (Hkeep m Hh1) as (f' & Hn & Hh).
        exists f'. split; [by apply Hself|done].
      * exists f1. split; [by apply Hother|done].
    + rewrite Hl in Hm. apply lookup_insert_Some in Hm as [[<- <-]|[Hnm Hm]].
      * exists f'. split; [by apply Hself|done].
      * destruct (Hkm m t1 Hm) as (f1 & Hf1 & Hh1).
        destruct (decide (t1 = t)) as [->|Hne].
        -- assert (f1 = f) as -> by congruence. congruence.
        -- exists f1. split; [by apply Hother|done].
    + rewrite Hl in Hm. apply lookup_delete_Some in Hm as [Hnm Hm].
      destruct (Hkm m t1 Hm) as (f1 & Hf1 & Hh1).
      destruct (decide (t1 = t)) as [->|Hne].
      * assert (f1 = f) as -> by congruence. congruence.
      * exists f1. split; [by apply Hother|done].
Qed.

Lemma done_tickets t k (o o' : shared_lru_cache K V E Env) :
  done t k o = Done o' →
  (∀ k tk, _is_being_evaluated o !! k = Some tk → active_threads tk ≠ ∅) →
  ∀ k tk, _is_being_evaluated o' !! k = Some tk → active_threads tk ≠ ∅.
Proof.
  unfold done. destruct (_is_being_evaluated o !! k) as [tk0|] eqn:Hk; [|done].
  destruct (assert _); simpl; [|done].
  destruct (decide _) as [He|He]; intros [= <-] Hall k' tk'; simpl.
  - rewrite lookup_delete_Some. intros [_ Hl]. by eapply Hall.
  - rewrite lookup_insert_Some. intros [[_ <-]|[_ Hl]]; [done|by eapply Hall].
Qed.

Lemma register_tickets t k σ m σ1 :
  register t k σ = Done (m, σ1) →
  (∀ k tk, _is_being_evaluated (object σ) !! k = Some tk → active_threads tk ≠ ∅) →
  ∀ k tk, _is_being_evaluated (object σ1) !! k = Some tk → active_threads tk ≠ ∅.
Proof.
  unfold register.
  destruct (_is_being_evaluated (object σ) !! k) as [tk0|] eqn:Hk;
    (destruct (assert _); simpl; [|done]); intros [= <- <-] Hall k' tk'; simpl;
    rewrite lookup_insert_Some; (intros [[_ <-]|[_ Hl]]; [|by eapply Hall]); simpl;
    intros He; apply (not_elem_of_empty (C:=gset thread_id) t); rewrite <-He;
    apply elem_of_union_l; by apply elem_of_singleton.
Qed.

Ltac own_mutex :=
  first
    [ by left
    | by (right; left; split; [done|eexists; split; done])
    | by (right; right; split; [done|intros ?; try done; eexists; split; done]) ].

Ltac own_lock :=
  first
    [ by (left; split; [done|intros ? [= <-]; eexists; split; done])
    | by (left; split; [done|intros ? ?; done])
    | by (right; left; eexists _, _; split_and!; done)
    | by (right; right; eexists; split; done) ].

Lemma step_owned σ t :
  coordinated σ → owned σ →
  match step t σ with
  | Next σ' _ => owned σ'
  | _ => True
  end.
Proof.
  intros Hco Hown. pose proof (step_coordinated σ t Hco) as Hnext. revert Hnext.
  unfold step.
  destruct (threads σ !! t) as [f|] eqn:Ht; [|done].
  pose proof (ow_ticket _ Hown) as Htk.
  pose proof (co_wf _ Hco) as Hwf.
  destruct f as [k|k|k|k|k|k m|k m|k m v|k m v|k m|k m v|k m v].
  - destruct (_underlying_lru_cache_mutex (object σ)) eqn:Hmx; [done|].
    destruct (Lru.has _ k) eqn:Hhas; intros _.
    + eapply (owned_update σ t _ (Some (FastCounting k : frame K V)) _ Hown Ht);
        simpl; [done|own_mutex|own_lock|done].
    + eapply (owned_update σ t _ (Some (MissCounting k : frame K V)) _ Hown Ht);
        simpl; [done|own_mutex|own_lock|done].
  - intros _.
    eapply (owned_update σ t _ (Some (FastReading k : frame K V)) _ Hown Ht);
      simpl; [done|own_mutex|own_lock|done].
  - destruct (Lru.operator_call _ k (env σ)) as [v u w|e u w|x]; [| |done]; intros _;
      unfold finish;
      (eapply (owned_update σ t _ (@None (frame K V)) _ Hown Ht);
       simpl; [done|own_mutex|own_lock|done]).
  - intros _.
    eapply (owned_update σ t _ (Some (Registering k : frame K V)) _ Hown Ht);
      simpl; [done|own_mutex|own_lock|done].
  - destruct (register t k σ) as [[m σ1]|x] eqn:Hreg; [|done]. intros _.
    pose proof (register_tickets t k σ m σ1 Hreg Htk) as Htk1.
    destruct (register_spec σ t k Hco Ht)
      as (m' & σ1' & Hreg' & Hth & HL & Hc & Hcm & _).
    rewrite Hreg in Hreg'. injection Hreg' as <- <-.
    eapply (owned_update σ t _ (Some (Locking k m : frame K V)) _ Hown Ht);
      simpl; rewrite ?Hth, ?HL, ?Hcm; [done|own_mutex|own_lock|done].
  - destruct (locked σ !! m) eqn:Hlm; [done|]. intros _.
    eapply (owned_update σ t _ (Some (Rechecking k m : frame K V)) _ Hown Ht);
      simpl; [done|own_mutex|own_lock|done].
  - destruct (_underlying_lru_cache_mutex (object σ)) eqn:Hmx; [done|].
    destruct (Lru.has _ k) eqn:Hhas.
    + destruct (Lru.operator_call _ k (env σ)) as [v u w|e u w|x]; [| |done]; intros _.
      * eapply (owned_update σ t _ (Some (LateDeregistering k m v : frame K V)) _ Hown Ht);
          simpl; [done|own_mutex|own_lock|done].
      * unfold finish.
        eapply (owned_update σ t _ (@None (frame K V)) _ Hown Ht);
          simpl; [done|own_mutex|own_lock|done].
    + intros _.
      eapply (owned_update σ t _ (Some (Evaluating k m : frame K V)) _ Hown Ht);
        simpl; [done|own_mutex|own_lock|done].
  - destruct (done t k (object σ)) as [o1|x] eqn:Hd; [|done]. intros _.
    pose proof (done_tickets t k _ _ Hd Htk) as Htk1.
    destruct (done_spec σ t _ k m (Some (LateCounting k m v : frame K V)) Hco Ht eq_refl eq_refl)
      as (o' & Hd' & Hc & Hcm & _).
    rewrite Hd in Hd'. injection Hd' as <-.
    eapply (owned_update σ t _ (Some (LateCounting k m v : frame K V)) _ Hown Ht);
      simpl; rewrite ?Hcm; [done|own_mutex|own_lock|done].
  - intros _. unfold finish.
    eapply (owned_update σ t _ (@None (frame K V)) _ Hown Ht);
      simpl; [done|own_mutex|own_lock|done].
  - destruct (_fn (object σ) k (env σ)) as [[v|e] w']; intros _.
    + eapply (owned_update σ t _ (Some (Publishing k m v : frame K V)) _ Hown Ht);
        simpl; [done|own_mutex|own_lock|done].
    + unfold finish.
      eapply (owned_update σ t _ (@None (frame K V)) _ Hown Ht);
        simpl; [done|own_mutex|own_lock|done].
  - destruct (_underlying_lru_cache_mutex (object σ)) eqn:Hmx; [done|].
    destruct (fallible_bind _ _) as [u|x]; [|done]. intros _.
    eapply (owned_update σ t _ (Some (Deregistering k m v : frame K V)) _ Hown Ht);
      simpl; [done|own_mutex|own_lock|done].
  - destruct (done t k (object σ)) as [o1|x] eqn:Hd; [|done]. intros _.
    pose proof (done_tickets t k _ _ Hd Htk) as Htk1.
    destruct (done_spec σ t _ k m (@None (frame K V)) Hco Ht eq_refl eq_refl)
      as (o' & Hd' & Hc & Hcm & _).
    rewrite Hd in Hd'. injection Hd' as <-. unfold finish.
    eapply (owned_update σ t _ (@None (frame K V)) _ Hown Ht);
      simpl; rewrite ?Hcm; [done|own_mutex|own_lock|done].
Qed.

Lemma call_owned σ t k :
  owned σ → threads σ !! t = None → owned (goto t (Enter k) σ).
Proof.
  intros [Hcm Hkm Htk] Ht. split; simpl; [| |done].
  - intros t0 Ht0. destruct (Hcm t0 Ht0) as (f0 & Hf0 & Hh).
    exists f0. split; [|done]. rewrite lookup_insert_ne; [done|congruence].
  - intros m t1 Hm. destruct (Hkm m t1 Hm) as (f1 & Hf1 & Hh).
    exists f1. split; [|done]. rewrite lookup_insert_ne; [done|congruence].
Qed.

Lemma owned_initial (f : function_type K V E Env) n o w :
  shared_lru_cache_using_std f n = Done o → owned (initial o w).
Proof.
  unfold shared_lru_cache_using_std, lru_cache_using_std.
  destruct (assert _); simpl; [|done]. intros [= <-]. split; simpl; done.
Qed.

Lemma run_owned sched σ tr :
  coordinated σ → owned σ →
  ∃ σ' tr', run sched σ tr = Running σ' tr' ∧ coordinated σ' ∧ owned σ'.
Proof.
  revert σ tr. induction sched as [|a sched IH]; intros σ tr Hco Hown; simpl; [by eauto|].
  pose proof (perform_coordinated a σ Hco) as Ha.
  assert (match perform a σ with Next σ' _ => owned σ' | _ => True end) as Hb.
  { destruct a as [t k|t]; simpl.
    - destruct (threads σ !! t) eqn:Ht; [done|]. by apply call_owned.
    - by apply step_owned. }
  destruct (perform a σ) as [σ1 evs| | | |f]; [|by auto..|done].
  by apply IH.
Qed.

(** When no call is in progress under these invariants, nothing is held and
    no ticket is left. *)
Lemma quiescent_released σ :
  coordinated σ → owned σ → quiescent σ →
  _underlying_lru_cache_mutex (object σ) = None ∧
  locked σ = ∅ ∧
  _is_being_evaluated (object σ) = ∅.
Proof.
  intros Hco Hown Hq. unfold quiescent in Hq. split_and!.
  - destruct (_underlying_lru_cache_mutex (object σ)) as [t|] eqn:Hm; [|done].
    destruct (ow_cache_mutex _ Hown t Hm) as (f & Hf & _).
    by rewrite Hq, lookup_empty in Hf.
  - apply map_empty. intros m. destruct (locked σ !! m) as [t|] eqn:Hm; [|done].
    destruct (ow_key_mutex _ Hown m t Hm) as (f & Hf & _).
    by rewrite Hq, lookup_empty in Hf.
  - apply map_empty. intros k.
    destruct (_is_being_evaluated (object σ) !! k) as [tk|] eqn:Hk; [|done].
    pose proof (ow_ticket _ Hown k tk Hk) as Hne.
    apply set_choose_L in Hne as [t Hin].
    destruct (co_members _ Hco k tk t Hk Hin) as (f & m & Hf & _).
    by rewrite Hq, lookup_empty in Hf.
Qed.

(** *** No deadlock *)

Lemma work_leave (T : gmap thread_id (frame K V)) t f :
  T !! t = Some f →
  map_fold (λ _ f n, remaining f + n) 0 T =
  remaining f + map_fold (λ _ f n, remaining f + n) 0 (delete t T).
Proof.
  intros Ht.
  rewrite (map_fold_delete_L (λ _ f n, remaining f + n) 0 t f T); [done| |done].
  intros. lia.
Qed.

Lemma work_goto (T : gmap thread_id (frame K V)) t f f' :
  T !! t = Some f →
  map_fold (λ _ f n, remaining f + n) 0 (<[t := f']> T) + remaining f =
  map_fold (λ _ f n, remaining f + n) 0 T + remaining f'.
Proof.
  intros Ht. rewrite (work_leave T t f Ht), <-insert_delete_eq.
  rewrite map_fold_insert_L; [lia|intros; lia|apply lookup_delete_eq].
Qed.

Lemma remaining_pos (f : frame K V) : 0 < remaining f.
Proof. destruct f; simpl; lia. Qed.

Lemma register_threads t k σ m σ1 :
  register t k σ = Done (m, σ1) → threads σ1 = threads σ.
Proof.
  unfold register. destruct (_is_being_evaluated (object σ) !! k);
    (destruct (assert _); simpl; [|done]); by intros [= <- <-].
Qed.

(** Every step brings the calls in progress nearer to their end. *)
Lemma step_work σ t σ' evs : step t σ = Next σ' evs → work σ' < work σ.
Proof.
  unfold step, work, finish.
  destruct (threads σ !! t) as [f|] eqn:Ht; [|done].
  destruct f; repeat case_match; try done; intros [= <- <-]; simpl;
    try (pose proof (work_leave _ _ _ Ht) as Hw; simpl in Hw; lia);
    try (match goal with
         | |- context [<[t := ?f']> (threads σ)] =>
             pose proof (work_goto _ t _ f' Ht) as Hw; simpl in Hw; lia
         end).
  match goal with
  | Hr : register _ _ _ = Done (_, ?s) |- _ =>
      rewrite (register_threads _ _ _ _ _ Hr)
  end.
  match goal with
  | |- context [<[t := ?f']> (threads σ)] =>
      pose proof (work_goto _ t _ f' Ht) as Hw; simpl in Hw; lia
  end.
Qed.

Lemma blocked_inv σ t :
  step t σ = Blocked →
  ∃ f, threads σ !! t = Some f ∧ holds_cache_mutex f = false ∧
    (_underlying_lru_cache_mutex (object σ) ≠ None ∨
     ∃ k m t1, f = Locking k m ∧ locked σ !! m = Some t1).
Proof.
  unfold step, finish.
  destruct (threads σ !! t) as [f|] eqn:Ht; [|done].
  destruct f; repeat case_match; try done; intros _; eexists; (split; [done|]);
    (split; [done|]); try (by left); right; by eexists _, _, _.
Qed.

Lemma step_progress σ :
  coordinated σ → owned σ → threads σ ≠ ∅ →
  ∃ t σ' evs, step t σ = Next σ' evs.
Proof.
  intros Hco Hown Hne.
  assert (∀ t f, threads σ !! t = Some f → step t σ ≠ Blocked →
                 ∃ σ' evs, step t σ = Next σ' evs) as Hgo.
  { intros t f Ht Hnb. pose proof (step_coordinated σ t Hco) as Hs.
    destruct (step t σ) as [σ' evs| | | |x] eqn:Hst; [by eauto|done| | |done].
    - unfold step in Hst. rewrite Ht in Hst. destruct f; repeat case_match; done.
    - unfold step in Hst. rewrite Ht in Hst. destruct f; repeat case_match; done. }
  destruct (_underlying_lru_cache_mutex (object σ)) as [t0|] eqn:Hm.
  - destruct (ow_cache_mutex _ Hown t0 Hm) as (f0 & Hf0 & Hh).
    exists t0. apply (Hgo t0 f0 Hf0). intros (f & Hf & Hb & _)%blocked_inv. congruence.
  - apply map_choose in Hne as (t & f & Ht).
    destruct (step t σ) as [σ' evs| | | |x] eqn:Hst.
    + by eauto.
    + apply blocked_inv in Hst as (f' & Hf' & _ & [Hx|(k & m & t1 & -> & Hl)]); [done|].
      destruct (ow_key_mutex _ Hown m t1 Hl) as (f1 & Hf1 & Hh1).
      exists t1. apply (Hgo t1 f1 Hf1).
      intros (f2 & Hf2 & _ & [Hx|(k2 & m2 & t2 & -> & _)])%blocked_inv; [done|].
      assert (f1 = Locking k2 m2) as -> by congruence. done.
    + destruct (Hgo t f Ht) as (? & ? & ?); [congruence|congruence].
    + destruct (Hgo t f Ht) as (? & ? & ?); [congruence|congruence].
    + destruct (Hgo t f Ht) as (? & ? & ?); [congruence|congruence].
Qed.

Lemma work_bound σ : work σ ≤ 8 * size (threads σ).
Proof.
  unfold work. generalize (threads σ). intros T.
  induction T as [|t f T Ht _ IH] using map_first_key_ind.
  - rewrite map_fold_empty, map_size_empty. lia.
  - rewrite map_fold_insert_L; [|intros; lia|done].
    rewrite map_size_insert_None by done.
    assert (remaining f ≤ 8) by (destruct f; simpl; lia). lia.
Qed.

Lemma drain n σ tr :
  work σ ≤ n → coordinated σ → owned σ →
  ∃ ts σ' tr', run (Step <$> ts) σ tr = Running σ' tr' ∧ quiescent σ' ∧
               length ts ≤ n.
Proof.
  revert σ tr. induction n as [|n IH]; intros σ tr Hn Hco Hown.
  - exists [], σ, tr. split_and!; [done| |simpl; lia].
    destruct (map_eq_dec_empty (threads σ)) as [|Hne]; [done|].
    destruct (step_progress σ Hco Hown Hne) as (t & σ' & evs & Hst).
    apply step_work in Hst. lia.
  - destruct (map_eq_dec_empty (threads σ)) as [Hq|Hne].
    { exists [], σ, tr. split_and!; [done|done|simpl; lia]. }
    destruct (step_progress σ Hco Hown Hne) as (t & σ1 & evs & Hst).
    pose proof (step_coordinated σ t Hco) as Hco1.
    pose proof (step_owned σ t Hco Hown) as Hown1.
    pose proof (step_work _ _ _ _ Hst) as Hw.
    rewrite Hst in Hco1, Hown1.
    destruct (IH σ1 (tr ++ evs)) as (ts & σ' & tr' & Hrun & Hq & Hlen);
      [lia|done|done|].
    exists (t :: ts), σ', tr'. simpl. rewrite Hst. split_and!; [done|done|lia].
Qed.

(** X12. When the cached function never throws, whenever no call is in
    progress nothing is left behind: the cache mutex and every key mutex
    are unlocked and the registry of keys being evaluated is empty. *)
Theorem quiescent_releases_everything (f : function_type K V E Env) n o w sched σ tr :
  never_throws f →
  shared_lru_cache_using_std f n = Done o →
  run sched (initial o w) [] = Running σ tr →
  quiescent σ →
  at_rest σ.
Proof.
  intros Hf Ho Hrun Hq.
  destruct (run_owned sched (initial o w) [] (coordinated_initial f n o w Hf Ho)
              (owned_initial f n o w Ho)) as (σ1 & tr1 & Hrun1 & Hco & Hown).
  rewrite Hrun in Hrun1. injection Hrun1 as <- <-.
  split; [exact Hq|]. by apply quiescent_released.
Qed.

(** X13. When the cached function never throws, the wrapper cannot
    deadlock: from every state that calls of [operator()] reach, in
    whatever interleaving, the threads can be scheduled so that every
    call in progress returns, within eight steps for each of them. *)
Theorem calls_can_always_finish (f : function_type K V E Env) n o w sched σ tr :
  never_throws f →
  shared_lru_cache_using_std f n = Done o →
  run sched (initial o w) [] = Running σ tr →
  ∃ ts σ' tr',
    run (Step <$> ts) σ tr = Running σ' tr' ∧ quiescent σ' ∧
    length ts ≤ 8 * size (threads σ).
Proof.
  intros Hf Ho Hrun.
  destruct (run_owned sched (initial o w) [] (coordinated_initial f n o w Hf Ho)
              (owned_initial f n o w Ho)) as (σ1 & tr1 & Hrun1 & Hco & Hown).
  rewrite Hrun in Hrun1. injection Hrun1 as <- <-.
  apply drain; [apply work_bound|done..].
Qed.
End more.

Import Examples.

Lemma times_ten_never_throws : never_throws times_ten.
Proof. intros k w. exists (k * 10), w. reflexivity. Qed.

Lemma no_abort_without_exceptions_witness :
  ∃ σ tr,
    run (request 0 7 ++ [Call 1 7; Call 0 8; Step 1; Step 0; Step 1])
      (start times_ten ()) [] = Running σ tr ∧
    wf (_underlying_lru_cache (object σ)) ∧
    ∀ t1 t2 f1 f2 k,
      threads σ !! t1 = Some f1 → threads σ !! t2 = Some f2 →
      computes f1 = Some k → computes f2 = Some k → t1 = t2.
Proof.
  exact (SharedLruSpec.no_abort_without_exceptions times_ten 1
           (object (start times_ten ())) ()
           (request 0 7 ++ [Call 1 7; Call 0 8; Step 1; Step 0; Step 1])
           times_ten_never_throws eq_refl).
Defined.

Lemma quiescent_releases_everything_witness : at_rest (warm (HitRate 1 0 0)).
Proof.
  assert (run (request 0 7) (start times_ten ()) [] =
          Running (warm (HitRate 1 0 0)) [Called 0 7; Ended 0 7 (Fresh 70)]) as Hrun
    by (vm_compute; reflexivity).
  exact (quiescent_releases_everything times_ten 1 (object (start times_ten ())) ()
           (request 0 7) (warm (HitRate 1 0 0)) [Called 0 7; Ended 0 7 (Fresh 70)]
           times_ten_never_throws eq_refl Hrun eq_refl).
Defined.

Lemma calls_can_always_finish_witness :
  ∃ ts σ' tr',
    run (Step <$> ts) publishing8 [Called 0 7; Ended 0 7 (Fresh 70); Called 0 8] =
      Running σ' tr' ∧
    quiescent σ' ∧ length ts ≤ 8 * size (threads publishing8).
Proof.
  assert (run (request 0 7 ++ Call 0 8 :: replicate 6 (Step 0)) (start times_ten ()) [] =
          Running publishing8 [Called 0 7; Ended 0 7 (Fresh 70); Called 0 8]) as Hrun
    by (vm_compute; reflexivity).
  exact (calls_can_always_finish times_ten 1 (object (start times_ten ())) ()
           (request 0 7 ++ Call 0 8 :: replicate 6 (Step 0)) publishing8
           [Called 0 7; Ended 0 7 (Fresh 70); Called 0 8]
           times_ten_never_throws eq_refl Hrun).
Defined.
End SharedLruProgress.

(** *** The values returned and the invocations they cost *)

Module SharedLruValues.
Import StdList Lru LruFacts SharedLru SharedLruFacts LruBehaviour SharedLruProgress.
Section more.
Context `{Countable K} {V E Env : Type}.
Implicit Types (σ : system K V E Env) (tr : list (event K V E)) (t : thread_id).

(** *** Every call returns the value of the cached function *)

Lemma faithful_update g σ tr t f next σ' evs :
  faithful g σ tr →
  threads σ !! t = Some f →
  threads σ' = match next with
               | Some f' => <[t := f']> (threads σ)
               | None => delete t (threads σ)
               end →
  _fn (object σ') = _fn (object σ) →
  caches_values_of g (_underlying_lru_cache (object σ')) →
  (∀ f' k v, next = Some f' → carried f' = Some (k, v) → v = g k) →
  (∀ t' k r, Ended t' k r ∈ evs → returned r = Some (g k)) →
  faithful g σ' (tr ++ evs).
Proof.
  intros [Hfn Hc Hcar Hret] Ht Hth Hfn' Hc' Hnext Hevs. split.
  - by rewrite Hfn'.
  - done.
  - intros t' f' k v. rewrite Hth. destruct (decide (t' = t)) as [->|Hne].
    + destruct next as [f''|]; [|by rewrite lookup_delete_eq].
      rewrite lookup_insert_eq. intros [= <-]. by apply (Hnext f'').
    + destruct next; [rewrite lookup_insert_ne by done|rewrite lookup_delete_ne by done];
        apply (Hcar t').
  - intros t' k r [Hin|Hin]%elem_of_app; [by eapply Hret|by apply (Hevs t')].
Qed.

Lemma hit_value (g : K → V) (c u : lru_cache K V E Env) k w v w' :
  wf c → caches_values_of g c → Lru.has c k = true →
  operator_call c k w = Returns v u w' →
  v = g k ∧ caches_values_of g u ∧ w' = w ∧ _eval_counters u = _eval_counters c ∧
  Lru._fn u = Lru._fn c.
Proof.
  intros Hwf Hg [[v0 it] Hk]%bool_decide_eq_true.
  destruct (operator_call_hit c k v0 it w Hwf Hk) as (l1 & l2 & _ & ->).
  intros [= <- <- <-]. split; [by eapply Hg|]. done.
Qed.

Lemma hit_no_throw (c u : lru_cache K V E Env) k w e w' :
  wf c → Lru.has c k = true → operator_call c k w = Throws e u w' → False.
Proof.
  intros Hwf [[v0 it] Hk]%bool_decide_eq_true.
  destruct (operator_call_hit c k v0 it w Hwf Hk) as (l1 & l2 & _ & ->). done.
Qed.

Lemma set_caches_values_of (g : K → V) (c u : lru_cache K V E Env) k :
  wf c → caches_values_of g c → Lru.has c k = false →
  Lru.set k (g k) c = Done u → caches_values_of g u.
Proof.
  intros Hwf Hg Hk%has_false. unfold Lru.set. rewrite Hk.
  destruct (insert_caches_values_of g c k Hwf Hg Hk) as (c1 & -> & _ & Hg1 & _).
  by intros [= <-].
Qed.

Lemma done_fields t k (o o1 : shared_lru_cache K V E Env) :
  done t k o = Done o1 →
  _underlying_lru_cache o1 = _underlying_lru_cache o ∧ _fn o1 = _fn o ∧
  _hit_rate o1 = _hit_rate o ∧
  _underlying_lru_cache_mutex o1 = _underlying_lru_cache_mutex o.
Proof.
  unfold done. destruct (_is_being_evaluated o !! k); [|done].
  destruct (assert _); simpl; [|done]. by destruct (decide _); intros [= <-].
Qed.

Lemma register_fields t k σ m σ1 :
  register t k σ = Done (m, σ1) →
  threads σ1 = threads σ ∧ env σ1 = env σ ∧
  _underlying_lru_cache (object σ1) = _underlying_lru_cache (object σ) ∧
  _fn (object σ1) = _fn (object σ).
Proof.
  unfold register. destruct (_is_being_evaluated (object σ) !! k);
    (destruct (assert _); simpl; [|done]); by intros [= <- <-].
Qed.

Lemma ended_singleton t k (r : ending V E) t' k' r' :
  Ended t' k' r' ∈ [Ended t k r : event K V E] → k' = k ∧ r' = r.
Proof. intros [=]%list_elem_of_singleton. done. Qed.

Ltac keep Hfa Ht next :=
  eapply (faithful_update _ _ _ _ _ next _ _ Hfa Ht);
  simpl;
  try first
    [ reflexivity
    | done
    | by intros ? ? ? [= <-]
    | by intros ? ? ? ?%elem_of_nil ].

Lemma step_faithful g σ tr t :
  coordinated σ → faithful g σ tr →
  match step t σ with
  | Next σ' evs => faithful g σ' (tr ++ evs)
  | _ => True
  end.
Proof.
  intros Hco Hfa. unfold step, finish.
  destruct (threads σ !! t) as [f|] eqn:Ht; [|done].
  pose proof (co_wf _ Hco) as Hwf.
  pose proof (fa_cached _ _ _ Hfa) as Hg.
  pose proof (fa_carried _ _ _ Hfa t f) as Hcar.
  destruct f as [k|k|k|k|k|k m|k m|k m v|k m v|k m|k m v|k m v].
  - (* Enter *)
    destruct (_underlying_lru_cache_mutex (object σ)); [done|].
    destruct (Lru.has _ k).
    + keep Hfa Ht (Some (FastCounting k : frame K V)).
    + keep Hfa Ht (Some (MissCounting k : frame K V)).
  - keep Hfa Ht (Some (FastReading k : frame K V)).
  - (* FastReading *)
    assert (Lru.has (_underlying_lru_cache (object σ)) k = true) as Hhas.
    { apply (co_present _ Hco t). by right. }
    destruct (operator_call _ k (env σ)) as [v u w'|e u w'|x] eqn:Hop; [| |done].
    + destruct (hit_value g _ _ _ _ _ _ Hwf Hg Hhas Hop) as (-> & Hu & _).
      keep Hfa Ht (@None (frame K V)).
      by intros t' k' r' [-> ->]%ended_singleton.
    + destruct (hit_no_throw _ _ _ _ _ _ Hwf Hhas Hop).
  - keep Hfa Ht (Some (Registering k : frame K V)).
  - (* Registering *)
    destruct (register t k σ) as [[m σ1]|x] eqn:Hr; [|done].
    destruct (register_fields _ _ _ _ _ Hr) as (Hth & _ & Hu & Hfn).
    keep Hfa Ht (Some (Locking k m : frame K V)).
    + by rewrite Hth.
    + by rewrite Hu.
  - (* Locking *)
    destruct (locked σ !! m); [done|].
    keep Hfa Ht (Some (Rechecking k m : frame K V)).
  - (* Rechecking *)
    destruct (_underlying_lru_cache_mutex (object σ)); [done|].
    destruct (Lru.has _ k) eqn:Hhas.
    + destruct (operator_call _ k (env σ)) as [v u w'|e u w'|x] eqn:Hop; [| |done].
      * destruct (hit_value g _ _ _ _ _ _ Hwf Hg Hhas Hop) as (-> & Hu & _).
        keep Hfa Ht (Some (LateDeregistering k m (g k) : frame K V)).
        by intros ? ? ? [= <-] [= <- <-].
      * destruct (hit_no_throw _ _ _ _ _ _ Hwf Hhas Hop).
    + keep Hfa Ht (Some (Evaluating k m : frame K V)).
  - (* LateDeregistering *)
    destruct (done t k (object σ)) as [o1|x] eqn:Hd; [|done].
    destruct (done_fields _ _ _ _ Hd) as (Hu & Hfn & _).
    keep Hfa Ht (Some (LateCounting k m v : frame K V)).
    + by rewrite Hu.
    + intros ? ? ? [= <-] [= <- <-]. by apply Hcar.
  - (* LateCounting *)
    keep Hfa Ht (@None (frame K V)).
    intros t' k' r' [-> ->]%ended_singleton. simpl. f_equal. by apply Hcar.
  - (* Evaluating *)
    destruct (fa_fn _ _ _ Hfa k (env σ)) as (w' & ->).
    keep Hfa Ht (Some (Publishing k m (g k) : frame K V)).
    by intros ? ? ? [= <-] [= <- <-].
  - (* Publishing *)
    destruct (_underlying_lru_cache_mutex (object σ)); [done|].
    destruct (Lru.has _ k) eqn:Hhas; simpl; [done|].
    destruct (Lru.set k v _) as [u|x] eqn:Hs; [|done].
    assert (v = g k) as -> by by apply Hcar.
    keep Hfa Ht (Some (Deregistering k m (g k) : frame K V)).
    + by eapply set_caches_values_of.
    + by intros ? ? ? [= <-] [= <- <-].
  - (* Deregistering *)
    destruct (done t k (object σ)) as [o1|x] eqn:Hd; [|done].
    destruct (done_fields _ _ _ _ Hd) as (Hu & Hfn & _).
    keep Hfa Ht (@None (frame K V)).
    + by rewrite Hu.
    + intros t' k' r' [-> ->]%ended_singleton. simpl. f_equal. by apply Hcar.
Qed.

Lemma call_faithful g σ tr t k :
  faithful g σ tr → threads σ !! t = None →
  faithful g (goto t (Enter k) σ) (tr ++ [Called t k]).
Proof.
  intros [Hfn Hc Hcar Hret] Ht. split; simpl; [done..| |].
  - intros t' f' k' v'. rewrite lookup_insert. case_decide; [by intros [= <-]|].
    apply Hcar.
  - intros t' k' r [Hin|Hin]%elem_of_app; [by eapply Hret|].
    by apply list_elem_of_singleton in Hin.
Qed.

Lemma faithful_initial (f : function_type K V E Env) g n o w :
  (∀ k w0, ∃ w1, f k w0 = (inl (g k), w1)) →
  shared_lru_cache_using_std f n = Done o → faithful g (initial o w) [].
Proof.
  intros Hf. unfold shared_lru_cache_using_std, lru_cache_using_std.
  destruct (assert _); simpl; [|done]. intros [= <-].
  split; simpl; [done|done|done|]. by intros t k r ?%elem_of_nil.
Qed.

Lemma value_never_throws (f : function_type K V E Env) (g : K → V) :
  (∀ k w0, ∃ w1, f k w0 = (inl (g k), w1)) → never_throws f.
Proof. intros Hf k w. destruct (Hf k w) as (w1 & ->). by eauto. Qed.

Lemma run_faithful g sched σ tr :
  coordinated σ → faithful g σ tr →
  ∃ σ' tr', run sched σ tr = Running σ' tr' ∧ coordinated σ' ∧ faithful g σ' tr'.
Proof.
  revert σ tr. induction sched as [|a sched IH]; intros σ tr Hco Hfa; simpl; [by eauto|].
  pose proof (perform_coordinated a σ Hco) as Ha.
  assert (match perform a σ with
          | Next σ' evs => faithful g σ' (tr ++ evs) | _ => True end) as Hb.
  { destruct a as [t k|t]; simpl.
    - destruct (threads σ !! t) eqn:Ht; [done|]. by apply call_faithful.
    - by apply step_faithful. }
  destruct (perform a σ) as [σ1 evs| | | |x]; [|by auto..|done].
  by apply IH.
Qed.

(** X10. The wrapper is transparent for a cached function whose value
    depends on the key only, say it is [g k]: whatever calls the threads
    make and however they interleave, no assertion fails and every call
    of [operator()(k)] that has ended returned [g k], be it a hit, a late
    hit or a fresh value. *)
Theorem every_call_returns_the_function_value
    (f : function_type K V E Env) (g : K → V) n o w sched :
  (∀ k w0, ∃ w1, f k w0 = (inl (g k), w1)) →
  shared_lru_cache_using_std f n = Done o →
  ∃ σ tr,
    run sched (initial o w) [] = Running σ tr ∧
    ∀ t k r, Ended t k r ∈ tr → returned r = Some (g k).
Proof.
  intros Hf Ho.
  destruct (run_faithful g sched (initial o w) [])
    as (σ & tr & Hrun & _ & Hfa).
  - by eapply coordinated_initial; [eapply value_never_throws|].
  - by eapply faithful_initial.
  - exists σ, tr. split; [done|]. apply (fa_returned _ _ _ Hfa).
Qed.

(** *** Invocations of the cached function *)

Lemma metered_update μ n0 σ tr t f next σ' evs :
  metered μ n0 σ tr →
  threads σ !! t = Some f →
  threads σ' = match next with
               | Some f' => <[t := f']> (threads σ)
               | None => delete t (threads σ)
               end →
  _fn (object σ') = _fn (object σ) →
  μ (env σ') + weight computed f =
    μ (env σ) + weight_next computed next + number is_fresh evs + number is_thrown evs →
  metered μ n0 σ' (tr ++ evs).
Proof.
  intros [Hfn Henv] Ht Hth Hfn' Hμ. split; [by rewrite Hfn'|].
  assert (count computed (threads σ') + weight computed f =
          count computed (threads σ) + weight_next computed next) as Hcount.
  { rewrite Hth. destruct next; simpl.
    - by apply count_goto.
    - rewrite (count_delete computed _ t f Ht). lia. }
  unfold in_flight in *. rewrite !number_app. lia.
Qed.

Lemma hit_env (c u : lru_cache K V E Env) k w v w' :
  Lru.has c k = true → operator_call c k w = Returns v u w' → w' = w.
Proof.
  intros [[v0 it] Hk]%bool_decide_eq_true. unfold operator_call. rewrite Hk.
  destruct (splice_back _ it); [|done]. by intros [= _ _ <-].
Qed.

Lemma hit_throws_not (c u : lru_cache K V E Env) k w e w' :
  Lru.has c k = true → operator_call c k w = Throws e u w' → False.
Proof.
  intros [[v0 it] Hk]%bool_decide_eq_true. unfold operator_call. rewrite Hk.
  by destruct (splice_back _ it).
Qed.

Ltac meter Hme Ht next :=
  eapply (metered_update _ _ _ _ _ _ next _ _ Hme Ht);
  simpl;
  try first
    [ reflexivity
    | done
    | by (unfold weight; simpl; rewrite ?number_nil, ?number_singleton; simpl; lia) ].

Lemma step_metered μ n0 σ tr t :
  accounted σ tr → metered μ n0 σ tr →
  match step t σ with
  | Next σ' evs => metered μ n0 σ' (tr ++ evs)
  | _ => True
  end.
Proof.
  intros Hacc Hme. unfold step, finish.
  destruct (threads σ !! t) as [f|] eqn:Ht; [|done].
  destruct f as [k|k|k|k|k|k m|k m|k m v|k m v|k m|k m v|k m v].
  - (* Enter *)
    destruct (_underlying_lru_cache_mutex (object σ)); [done|].
    destruct (Lru.has _ k).
    + meter Hme Ht (Some (FastCounting k : frame K V)).
    + meter Hme Ht (Some (MissCounting k : frame K V)).
  - meter Hme Ht (Some (FastReading k : frame K V)).
  - (* FastReading *)
    assert (Lru.has (_underlying_lru_cache (object σ)) k = true) as Hhas.
    { apply (acc_present _ _ Hacc t). by right. }
    destruct (operator_call _ k (env σ)) as [v u w'|e u w'|x] eqn:Hop; [| |done].
    + apply hit_env in Hop as ->; [|done]. meter Hme Ht (@None (frame K V)).
    + destruct (hit_throws_not _ _ _ _ _ _ Hhas Hop).
  - meter Hme Ht (Some (Registering k : frame K V)).
  - (* Registering *)
    destruct (register t k σ) as [[m σ1]|x] eqn:Hr; [|done].
    destruct (register_fields _ _ _ _ _ Hr) as (Hth & Hw & _ & Hfn).
    meter Hme Ht (Some (Locking k m : frame K V)).
    + by rewrite Hth.
    + rewrite Hw. unfold weight. simpl. rewrite !number_nil. lia.
  - (* Locking *)
    destruct (locked σ !! m); [done|].
    meter Hme Ht (Some (Rechecking k m : frame K V)).
  - (* Rechecking *)
    destruct (_underlying_lru_cache_mutex (object σ)); [done|].
    destruct (Lru.has _ k) eqn:Hhas.
    + destruct (operator_call _ k (env σ)) as [v u w'|e u w'|x] eqn:Hop; [| |done].
      * apply hit_env in Hop as ->; [|done].
        meter Hme Ht (Some (LateDeregistering k m v : frame K V)).
      * destruct (hit_throws_not _ _ _ _ _ _ Hhas Hop).
    + meter Hme Ht (Some (Evaluating k m : frame K V)).
  - (* LateDeregistering *)
    destruct (done t k (object σ)) as [o1|x] eqn:Hd; [|done].
    destruct (done_fields _ _ _ _ Hd) as (_ & Hfn & _).
    meter Hme Ht (Some (LateCounting k m v : frame K V)).
  - (* LateCounting *)
    meter Hme Ht (@None (frame K V)).
  - (* Evaluating *)
    pose proof (me_fn _ _ _ _ Hme k (env σ)) as Hμ.
    destruct (_fn (object σ) k (env σ)) as [[v|e] w']; simpl in Hμ.
    + meter Hme Ht (Some (Publishing k m v : frame K V)).
    + meter Hme Ht (@None (frame K V)).
  - (* Publishing *)
    destruct (_underlying_lru_cache_mutex (object σ)); [done|].
    destruct (assert _); simpl; [|done].
    destruct (Lru.set k v _) as [u|x]; [|done].
    meter Hme Ht (Some (Deregistering k m v : frame K V)).
  - (* Deregistering *)
    destruct (done t k (object σ)) as [o1|x] eqn:Hd; [|done].
    destruct (done_fields _ _ _ _ Hd) as (_ & Hfn & _).
    meter Hme Ht (@None (frame K V)).
Qed.

Lemma call_metered μ n0 σ tr t k :
  metered μ n0 σ tr → threads σ !! t = None →
  metered μ n0 (goto t (Enter k) σ) (tr ++ [Called t k]).
Proof.
  intros [Hfn Henv] Ht. split; simpl; [done|].
  unfold in_flight in *. simpl.
  rewrite !number_app, !number_singleton, count_insert_new by done. simpl.
  unfold weight. simpl. lia.
Qed.

Lemma metered_initial (f : function_type K V E Env) μ n o w :
  (∀ k w0, μ (f k w0).2 = S (μ w0)) →
  shared_lru_cache_using_std f n = Done o → metered μ (μ w) (initial o w) [].
Proof.
  intros Hf. unfold shared_lru_cache_using_std, lru_cache_using_std.
  destruct (assert _); simpl; [|done]. intros [= <-].
  split; simpl; [done|]. unfold in_flight. simpl. rewrite count_empty, !number_nil. lia.
Qed.

Lemma run_metered μ n0 sched σ tr σ' tr' :
  accounted σ tr → metered μ n0 σ tr → run sched σ tr = Running σ' tr' →
  metered μ n0 σ' tr'.
Proof.
  revert σ tr. induction sched as [|a sched IH]; intros σ tr Hacc Hme; simpl.
  - by intros [= <- <-].
  - assert (match perform a σ with
            | Next σ1 evs => metered μ n0 σ1 (tr ++ evs) | _ => True end) as Hb.
    { destruct a as [t k|t]; simpl.
      - destruct (threads σ !! t) eqn:Ht; [done|]. by apply call_metered.
      - by apply step_metered. }
    destruct (perform a σ) as [σ1 evs| | | |x] eqn:Ha; [|by eauto..|done].
    destruct (perform_accounted _ _ _ _ _ Hacc Ha) as [Hacc1 _].
    by apply IH.
Qed.

(** X14. The cached function is run once for every call that ends with a
    fresh value or with an exception, once for every call that has its
    fresh value in hand, and never otherwise: hits and late hits do not
    run it. [μ] is any count of the invocations that the function keeps
    in its environment. *)
Theorem one_evaluation_per_computed_value
    (f : function_type K V E Env) (μ : Env → nat) n o w sched σ tr :
  (∀ k w0, μ (f k w0).2 = S (μ w0)) →
  shared_lru_cache_using_std f n = Done o →
  run sched (initial o w) [] = Running σ tr →
  μ (env σ) =
    μ w + number is_fresh tr + number is_thrown tr + in_flight computed σ.
Proof.
  intros Hf Ho Hrun.
  eapply me_env, run_metered; [| |exact Hrun].
  - by eapply accounted_initial.
  - by eapply metered_initial.
Qed.
End more.

Import Examples.

Lemma every_call_returns_the_function_value_witness :
  ∃ σ tr,
    run (request 0 7 ++ request 1 7 ++ request 0 8) (start times_ten ()) [] =
      Running σ tr ∧
    ∀ t k r, Ended t k r ∈ tr → returned r = Some (k * 10).
Proof.
  assert (∀ k (w0 : ()), ∃ w1, times_ten k w0 = (inl (k * 10), w1)) as Hf.
  { intros k w0. exists w0. reflexivity. }
  exact (every_call_returns_the_function_value times_ten (λ k, k * 10) 1
           (object (start times_ten ())) ()
           (request 0 7 ++ request 1 7 ++ request 0 8) Hf eq_refl).
Defined.

Lemma one_evaluation_per_computed_value_witness :
  let σ := System
             (SharedLruCache (LruCache flaky 1 [(1, 7)] {[7 := (70, 1)]} ∅) None flaky
                {[7 := Ticket 0 {[0]}]} (HitRate 2 0 0))
             1 ∅ 2 ∅ in
  let tr := [Called 0 7; Ended 0 7 (Thrown ()); Called 1 7; Ended 1 7 (Fresh 70)] in
  run (request 0 7 ++ request 1 7) (start flaky 0) [] = Running σ tr ∧
  env σ = 0 + number is_fresh tr + number is_thrown tr + in_flight computed σ.
Proof.
  intros σ tr.
  assert (run (request 0 7 ++ request 1 7) (start flaky 0) [] = Running σ tr) as Hrun
    by (vm_compute; reflexivity).
  split; [exact Hrun|].
  assert (∀ k w0, (flaky k w0).2 = S w0) as Hf by reflexivity.
  exact (one_evaluation_per_computed_value flaky (λ w, w) 1 (object (start flaky 0)) 0
           (request 0 7 ++ request 1 7) σ tr Hf eq_refl Hrun).
Defined.
End SharedLruValues.

(** *** One call at a time, and mutual exclusion *)

Module SharedLruAlone.
Import StdList Lru LruFacts SharedLru SharedLruFacts.
Section more.
Context `{Countable K} {V E Env : Type}.
Implicit Types (σ : system K V E Env) (tr : list (event K V E)) (t : thread_id).

Lemma insert_eval_counters (c c' : lru_cache K V E Env) k v :
  wf c → _key_to_value c !! k = None →
  insert k v c = Done c' → _eval_counters c' = _eval_counters c.
Proof.
  intros Hwf Hk. destruct (is_full c) eqn:Hf.
  - destruct (wf_nonempty_of_full c Hwf Hf) as (it0 & k0 & l & Hl).
    rewrite (insert_full c k v it0 k0 l) by done. by intros [= <-].
  - rewrite insert_not_full by done. by intros [= <-].
Qed.

Lemma count_evaluation_undo (c : lru_cache K V E Env) k m :
  _eval_counters c = m → set_eval_counters m (count_evaluation k c) = c.
Proof.
  intros <-. unfold count_evaluation.
  destruct (_eval_counters c !! k); by destruct c.
Qed.

Lemma run_next a s σ tr σ' evs :
  perform a σ = Next σ' evs → run (a :: s) σ tr = run s σ' (tr ++ evs).
Proof. intros Ha. simpl. by rewrite Ha. Qed.

Lemma run_idle t s σ tr :
  threads σ !! t = None → run (Step t :: s) σ tr = run s σ tr.
Proof. intros Ht. simpl. unfold step. by rewrite Ht. Qed.

Ltac advance tac :=
  erewrite run_next;
  [|unfold perform, step; simpl; rewrite lookup_insert_eq; tac;
    unfold finish, goto, leave, lock, unlock, release_cache_mutex, with_env,
      with_object, with_cache, with_cache_mutex, with_registry, with_hit_rate;
    simpl;
    rewrite ?insert_insert_eq, ?delete_insert_eq, ?delete_empty; reflexivity].

(** X15. A call of [operator()(k)] that runs alone, from a state in which
    no call is in progress and nothing is held, does what [operator()(k)]
    of the underlying store does, short of the evaluation counters of
    that store, which the wrapper never updates. If the store's operator
    returns [v], the call returns [v], as a hit if [k] was cached and as
    a fresh value if not, and counts itself accordingly; it leaves the
    entries and the recency list that the store's operator leaves, the
    environment the cached function leaves, nothing held, and [has(k)]
    true. If the cached function throws, the call ends with that
    exception, counted as a call, and the store as it was, and the ticket
    of [k] stays in the registry with the caller in it. *)
Theorem call_alone_is_core_call σ tr t k :
  wf (_underlying_lru_cache (object σ)) →
  Lru._fn (_underlying_lru_cache (object σ)) = _fn (object σ) →
  at_rest σ →
  match operator_call (_underlying_lru_cache (object σ)) k (env σ) with
  | Returns v u w' =>
      ∃ σ' r,
        run (request t k) σ tr = Running σ' (tr ++ [Called t k; Ended t k r]) ∧
        r = (if Lru.has (_underlying_lru_cache (object σ)) k then Hit v else Fresh v) ∧
        _underlying_lru_cache (object σ') =
          set_eval_counters (_eval_counters (_underlying_lru_cache (object σ))) u ∧
        _hit_rate (object σ') =
          (if Lru.has (_underlying_lru_cache (object σ)) k then count_hit else count_miss)
            (_hit_rate (object σ)) ∧
        env σ' = w' ∧ at_rest σ' ∧ SharedLru.has (object σ') k = true
  | Throws e u w' =>
      ∃ σ',
        run (request t k) σ tr =
          Running σ' (tr ++ [Called t k; Ended t k (Thrown e)]) ∧
        _underlying_lru_cache (object σ') = _underlying_lru_cache (object σ) ∧
        _hit_rate (object σ') = count_miss (_hit_rate (object σ)) ∧
        env σ' = w' ∧ threads σ' = ∅ ∧
        _is_being_evaluated (object σ') !! k = Some (Ticket (allocated σ) {[t]})
  | Crashes _ => False
  end.
Proof.
  remember (request t k) as rq eqn:Hrq.
  destruct σ as [[c mx fn reg hr] al lk w T]. unfold at_rest. simpl.
  intros Hwf Hfn (-> & -> & -> & ->). subst fn rq.
  unfold request. simpl replicate.
  destruct (_key_to_value c !! k) as [[v it]|] eqn:Hk.
  - destruct (operator_call_hit c k v it w Hwf Hk) as (l1 & l2 & Hl & Hop).
    rewrite Hop.
    assert (Lru.has c k = true) as Hhas by (apply bool_decide_eq_true; eauto).
    rewrite Hhas. eexists _, _. split; [|split; [reflexivity|]].
    + erewrite run_next; [|simpl; rewrite lookup_empty; unfold goto; simpl; reflexivity].
      advance ltac:(rewrite Hhas).
      advance idtac.
      advance ltac:(rewrite Hop).
      rewrite ?run_idle by apply lookup_empty. cbn [run].
      by rewrite <-!(assoc_L (++)).
    + simpl. done.
  - assert (Lru.has c k = false) as Hhas by by apply has_false.
    unfold operator_call. rewrite Hk, Hhas.
    destruct (Lru._fn c k w) as [[v|e] w'] eqn:Hf.
    + destruct (insert_wf c k v Hwf Hk) as (c' & Hi & Hwf' & Hk' & _).
      rewrite Hi.
      pose proof (insert_eval_counters c c' k v Hwf Hk Hi) as Hev.
      eexists _, _. split; [|split; [reflexivity|]].
      * erewrite run_next; [|simpl; rewrite lookup_empty; unfold goto; simpl; reflexivity].
        advance ltac:(rewrite Hhas).
        advance idtac.
        advance ltac:(unfold register; simpl; rewrite lookup_empty; simpl;
                      rewrite bool_decide_eq_true_2 by apply not_elem_of_empty;
                      simpl; rewrite (right_id_L ∅ (∪))).
        advance ltac:(rewrite lookup_empty).
        advance ltac:(rewrite Hhas).
        advance ltac:(rewrite Hf).
        advance ltac:(rewrite Hhas; unfold Lru.set; simpl; rewrite Hk, Hi).
        advance ltac:(unfold done; simpl; rewrite lookup_insert_eq; simpl;
                      rewrite bool_decide_eq_true_2 by (by apply elem_of_singleton);
                      simpl; rewrite (difference_diag_L {[t]});
                      rewrite decide_True by done).
        rewrite ?run_idle by apply lookup_empty. cbn [run].
        by rewrite <-!(assoc_L (++)).
      * simpl. split_and!; [|done..|by apply bool_decide_eq_true].
        symmetry. by apply count_evaluation_undo.
    + eexists. split.
      * erewrite run_next; [|simpl; rewrite lookup_empty; unfold goto; simpl; reflexivity].
        advance ltac:(rewrite Hhas).
        advance idtac.
        advance ltac:(unfold register; simpl; rewrite lookup_empty; simpl;
                      rewrite bool_decide_eq_true_2 by apply not_elem_of_empty;
                      simpl; rewrite (right_id_L ∅ (∪))).
        advance ltac:(rewrite lookup_empty).
        advance ltac:(rewrite Hhas).
        advance ltac:(rewrite Hf).
        rewrite ?run_idle by apply lookup_empty. cbn [run].
        by rewrite <-!(assoc_L (++)).
      * simpl. split_and!; [done..|]. by rewrite lookup_insert_eq.
Qed.

(** X16. Whatever the cached function does, in every state that calls of
    [operator()] reach at most one thread is inside a scope of the guard
    of [_underlying_lru_cache_mutex], and that thread owns the mutex. *)
Theorem cache_mutex_excludes (f : function_type K V E Env) n o w sched σ tr t1 t2 f1 f2 :
  shared_lru_cache_using_std f n = Done o →
  run sched (initial o w) [] = Running σ tr →
  threads σ !! t1 = Some f1 → threads σ !! t2 = Some f2 →
  holds_cache_mutex f1 = true → holds_cache_mutex f2 = true →
  t1 = t2 ∧ _underlying_lru_cache_mutex (object σ) = Some t1.
Proof.
  intros Ho Hrun Ht1 Ht2 Hh1 Hh2.
  destruct (run_accounted sched _ _ _ _ (accounted_initial f n o w Ho) Hrun) as [Hacc _].
  pose proof (acc_mutex _ _ Hacc t1 f1 Ht1 Hh1) as H1.
  pose proof (acc_mutex _ _ Hacc t2 f2 Ht2 Hh2) as H2.
  split; [congruence|done].
Qed.
End more.

Import Examples.

Lemma call_alone_is_core_call_witness :
  ∃ σ',
    run (request 1 8) (warm (HitRate 1 0 0)) [] =
      Running σ' [Called 1 8; Ended 1 8 (Fresh 80)] ∧
    _underlying_lru_cache (object σ') =
      LruCache times_ten 1 [(1, 8)] {[8 := (80, 1)]} ∅ ∧
    at_rest σ' ∧ SharedLru.has (object σ') 8 = true.
Proof.
  assert (at_rest (warm (HitRate 1 0 0))) as Hrest by (by split_and!).
  pose proof (call_alone_is_core_call (warm (HitRate 1 0 0)) [] 1 8
                LruSpec.full1_wf eq_refl Hrest) as Hcall.
  change (operator_call (_underlying_lru_cache (object (warm (HitRate 1 0 0)))) 8
            (env (warm (HitRate 1 0 0))))
    with (Returns (E:=()) 80
            (LruCache times_ten 1 [(1, 8)] {[8 := (80, 1)]} {[8 := 1%N]}) ()) in Hcall.
  cbv beta iota in Hcall.
  destruct Hcall as (σ' & r & Hrun & -> & Hu & _ & _ & Hrest' & Hhas).
  exists σ'. split; [exact Hrun|]. split; [exact Hu|]. split; [exact Hrest'|exact Hhas].
Defined.

Lemma cache_mutex_excludes_witness :
  let σ := System
             (SharedLruCache (LruCache times_ten 1 [] ∅ ∅) (Some 0) times_ten ∅
                (HitRate 0 0 0))
             0 ∅ () {[0 := MissCounting 7]} in
  run [Call 0 7; Call 1 7; Step 0; Step 1; Step 1] (start times_ten ()) [] =
    Running (goto 1 (Enter 7) σ) [Called 0 7; Called 1 7] ∧
  0 = 0 ∧ _underlying_lru_cache_mutex (object (goto 1 (Enter 7) σ)) = Some 0.
Proof.
  intros σ.
  assert (run [Call 0 7; Call 1 7; Step 0; Step 1; Step 1] (start times_ten ()) [] =
          Running (goto 1 (Enter 7) σ) [Called 0 7; Called 1 7]) as Hrun
    by (vm_compute; reflexivity).
  split; [exact Hrun|].
  exact (cache_mutex_excludes times_ten 1 (object (start times_ten ())) ()
           [Call 0 7; Call 1 7; Step 0; Step 1; Step 1] (goto 1 (Enter 7) σ)
           [Called 0 7; Called 1 7] 0 0 (MissCounting 7) (MissCounting 7)
           eq_refl Hrun eq_refl eq_refl eq_refl eq_refl).
Defined.
End SharedLruAlone.

(** ** The test program *)

Module TestFacts.
Import Lru SharedLru SharedLruFacts SharedLruProgress SharedLruValues Test.

Lemma Fibonacci_number_SS n :
  Fibonacci_number (S (S n)) = (Fibonacci_number (S n) + Fibonacci_number n)%N.
Proof. done. Qed.

Lemma fibonacci_loop n :
  Nat.iter n fibonacci_body (1, 1, 1)%N =
  ((Fibonacci_number (S (S n)) mod uint64_modulus)%N,
   (Fibonacci_number (S n) mod uint64_modulus)%N,
   (Fibonacci_number (S (S n)) mod uint64_modulus)%N).
Proof.
  induction n as [|n IH]; [done|].
  rewrite Nat.iter_succ, IH. unfold fibonacci_body.
  rewrite <-N.Div0.add_mod, <-Fibonacci_number_SS. done.
Qed.

Lemma Fibonacci_number_mono n : (Fibonacci_number n ≤ Fibonacci_number (S n))%N.
Proof. destruct n as [|n]; [done|]. rewrite Fibonacci_number_SS. lia. Qed.

Lemma Fibonacci_number_le n m :
  n ≤ m → (Fibonacci_number n ≤ Fibonacci_number m)%N.
Proof.
  induction 1 as [|m _ IH]; [done|].
  pose proof (Fibonacci_number_mono m). lia.
Qed.

(** The numbers in linear time. *)
Lemma Fibonacci_number_pair n :
  Nat.iter n (λ p : N * N, (p.1 + p.2, p.1)%N) (1, 0)%N =
  (Fibonacci_number (S n), Fibonacci_number n).
Proof.
  induction n as [|n IH]; [done|].
  rewrite Nat.iter_succ, IH. cbn [fst snd]. by rewrite <-Fibonacci_number_SS.
Qed.

Lemma Fibonacci_number_linear n :
  Fibonacci_number n = (Nat.iter n (λ p : N * N, (p.1 + p.2, p.1)%N) (1, 0)%N).2.
Proof. by rewrite Fibonacci_number_pair. Qed.

Lemma Fibonacci_number_93 : Fibonacci_number 93 = 12200160415121876738%N.
Proof. rewrite Fibonacci_number_linear. vm_compute. reflexivity. Qed.

Lemma Fibonacci_number_94 : Fibonacci_number 94 = 19740274219868223167%N.
Proof. rewrite Fibonacci_number_linear. vm_compute. reflexivity. Qed.

(** X17. [fibonacci(x)] is the Fibonacci number of index [x + 1] modulo
    [2^64] when [x] is at least 1, and it is 1, the Fibonacci number of
    index 2, when [x] is smaller. *)
Theorem fibonacci_is_Fibonacci_mod (x : Z) :
  fibonacci x =
  (Fibonacci_number (S (Z.to_nat (Z.max x 1))) mod uint64_modulus)%N.
Proof.
  unfold fibonacci. rewrite fibonacci_loop. cbn [snd].
  replace (S (Z.to_nat (x - 1))) with (Z.to_nat (Z.max x 1)) by lia. reflexivity.
Qed.

(** X18. For [x] at least 1, [fibonacci(x)] is the Fibonacci number of
    index [x + 1] itself exactly when [x] is at most 92: from 93 on the
    sum has wrapped around. *)
Theorem fibonacci_exact_up_to_92 (x : Z) :
  (1 ≤ x)%Z →
  fibonacci x = Fibonacci_number (S (Z.to_nat x)) ↔ (x ≤ 92)%Z.
Proof.
  intros Hx. unfold fibonacci. rewrite fibonacci_loop. cbn [snd].
  replace (S (Z.to_nat (x - 1))) with (Z.to_nat x) by lia.
  assert (uint64_modulus = 18446744073709551616%N) as HM by done.
  split.
  - intros Heq. destruct (decide (x ≤ 92)%Z) as [|Hgt]; [done|]. exfalso.
    assert (Fibonacci_number (S (Z.to_nat x)) < uint64_modulus)%N as Hlt.
    { rewrite <-Heq. by apply N.mod_lt. }
    assert (94 ≤ S (Z.to_nat x)) as Hle%Fibonacci_number_le by lia.
    rewrite Fibonacci_number_94 in Hle. lia.
  - intros Hle. apply N.mod_small.
    assert (S (Z.to_nat x) ≤ 93) as Hle'%Fibonacci_number_le by lia.
    rewrite Fibonacci_number_93 in Hle'. lia.
Qed.

Lemma calculate_keys_spec n x :
  x ∈ calculate_keys n ↔ ∃ i, (1 ≤ i ≤ 10 * n)%Z ∧ x = (i * n)%Z.
Proof.
  unfold calculate_keys. rewrite list_elem_of_fmap. split.
  - intros (i & -> & Hi%elem_of_seqZ). exists i. split; [lia|done].
  - intros (i & Hi & ->). exists i. split; [done|]. apply elem_of_seqZ. lia.
Qed.

(** X19. The keys that the thread started with [n] asks for, for [n] from
    1 to 100 as in [main]: there are [10 * n] of them, no two are the
    same, so that a thread that runs alone never hits, and every one is a
    multiple of [n] between [n] and 100000, so that the product [i * n]
    of line 43 does not overflow. *)
Theorem calculate_keys_distinct_in_range n :
  (1 ≤ n ≤ 100)%Z →
  length (calculate_keys n) = Z.to_nat (10 * n) ∧
  NoDup (calculate_keys n) ∧
  ∀ x, x ∈ calculate_keys n → (n ≤ x ≤ 100000)%Z ∧ (n | x)%Z.
Proof.
  intros Hn. split_and!.
  - unfold calculate_keys. by rewrite length_fmap, length_seqZ.
  - unfold calculate_keys. apply NoDup_fmap_2; [|apply NoDup_seqZ].
    intros i j Hij. nia.
  - intros x (i & Hi & ->)%calculate_keys_spec. split; [nia|].
    by apply Z.divide_factor_r.
Qed.

Lemma repeated_fibonacci_value debug x w :
  ∃ w', repeated_fibonacci debug x w = (inl (fibonacci x), w').
Proof. by exists w. Qed.

(** X20. The assertion of [calculate] never fails: with the cache that
    [main] constructs, over [repeated_fibonacci] and with capacity 10,
    whatever calls the threads make and however they interleave, no
    assertion of the cache fails, no call throws, and every call that
    has ended with key [x] returned [fibonacci(x)]. *)
Theorem test_assertions_hold debug sched :
  ∃ o σ tr,
    main_cache debug = Done o ∧
    run sched (initial o ()) [] = Running σ tr ∧
    ∀ ev, ev ∈ tr → asserted ev.
Proof.
  set (o := SharedLruCache (LruCache (repeated_fibonacci debug) 10 [] ∅ ∅) None
              (repeated_fibonacci debug) ∅ (HitRate 0 0 0)).
  assert (shared_lru_cache_using_std (repeated_fibonacci debug) 10 = Done o) as Ho by done.
  destruct (run_faithful fibonacci sched (initial o ()) [])
    as (σ & tr & Hrun & _ & Hfa).
  - eapply coordinated_initial; [|exact Ho].
    eapply value_never_throws, repeated_fibonacci_value.
  - eapply faithful_initial; [|exact Ho]. apply repeated_fibonacci_value.
  - exists o, σ, tr. split; [exact Ho|]. split; [exact Hrun|].
    intros [t x|t x r] Hev; [done|].
    apply (fa_returned _ _ _ Hfa) in Hev. by destruct r; simplify_eq/=.
Qed.
Lemma fibonacci_exact_up_to_92_witness :
  fibonacci 92 = Fibonacci_number (S (Z.to_nat 92)) ↔ (92 ≤ 92)%Z.
Proof.
  assert (1 ≤ 92)%Z as Hx by lia.
  exact (fibonacci_exact_up_to_92 92 Hx).
Defined.

Lemma calculate_keys_distinct_in_range_witness :
  length (calculate_keys 100) = Z.to_nat (10 * 100) ∧
  NoDup (calculate_keys 100) ∧
  ∀ x, x ∈ calculate_keys 100 → (100 ≤ x ≤ 100000)%Z ∧ (100 | x)%Z.
Proof.
  assert (1 ≤ 100 ≤ 100)%Z as Hn by lia.
  exact (calculate_keys_distinct_in_range 100 Hn).
Defined.
End TestFacts.
